(** * A shallow embedding of shared_ptr.hpp

    The header defines a reference-counted owning handle [SharedPtr<T>], an
    observing handle [WeakPtr<T>], and the control blocks behind them
    ([details::BaseControlBlock], [details::ControlBlock],
    [details::BlockVault]).  The code is single-threaded C++ that mutates
    control blocks shared between handles, so the embedding threads an
    explicit program state through every member function:

    - a heap of control blocks indexed by address (aliasing between handles
      is aliasing of addresses; an address is never handed out twice, so it
      names one block for good);
    - a store of [SharedPtr] and [WeakPtr] objects indexed by object
      identity (what [this] and [&other] compare);
    - the set of raw storage regions obtained from an allocator and not yet
      given back;
    - a log of the observable calls (deleter, allocate, deallocate,
      [release_shared], [release_weak]).

    Dereferencing a null or dangling control-block pointer, and using a
    handle object outside its lifetime, are undefined behaviour in C++; the
    embedding reports them as the outcome [UB].  A C++ exception leaving a
    member function is the outcome [Throw]; an exception that would leave
    a [noexcept] function calls [std::terminate], the outcome
    [Terminate].

    The deleter and the destructor of the managed object are code of the
    client.  Every function that can reach [release_shared], and the
    constructor that calls the deleter itself, takes what that code runs
    as an argument [del]: the destructors of the handles the object holds,
    an exception, or nothing ([inert]). *)

From Stdlib Require Import ZArith List Lia.
From stdpp Require Import base option gmap list.

(** ** Data model *)

(** Addresses of control blocks and identities of handle objects. *)
Abbreviation addr := nat (only parsing).
Abbreviation handle := nat (only parsing).

(** [size_t] is a 64-bit unsigned integer; arithmetic wraps around. *)
Definition size_max : Z := 2 ^ 64.
Definition wrap (z : Z) : Z := z mod size_max.

(** [use_count] returns [int]: the conversion from [size_t] keeps the low 32
    bits, read in two's complement. *)
Definition to_int (z : Z) : Z :=
  let r := (z mod 2 ^ 32)%Z in
  if (r <? 2 ^ 31)%Z then r else (r - 2 ^ 32)%Z.

(** The managed object a block points to: an object that lives outside the
    block, or the [value] member of a [BlockVault]. *)
Inductive object : Type :=
| External (p : nat)
| ValueOf (b : addr).

(** [T*]: [None] is [nullptr]. *)
Abbreviation obj_ptr := (option object) (only parsing).
(** [BaseControlBlock<T>*]: [None] is [nullptr]. *)
Abbreviation block_ptr := (option nat) (only parsing).

(** The [Deleter] template argument of a [ControlBlock]. *)
Inductive deleter : Type :=
| DefaultDelete
| CustomDeleter (d : nat).

(** The dynamic type of a control block decides which overrides of
    [release_shared] and [release_weak] run. *)
Inductive block_kind : Type :=
| KControlBlock (d : deleter)
| KBlockVault.

(** [struct BaseControlBlock] with the dynamic type of the object. *)
Record block : Type := Block {
  kind : block_kind;
  pointer : obj_ptr;
  shared_count : Z;
  weak_count : Z
}.

(** Observable calls, logged in the order they happen.  [EvDeleter b d p] is
    the call [deleter(p)] made for the block at [b], by [release_shared] or
    by the constructor that was building that block. *)
Inductive event : Type :=
| EvAllocate (b : addr)
| EvDeallocate (b : addr)
| EvDestroyBlock (b : addr)
| EvDestroyValue (b : addr)
| EvDeleter (b : addr) (d : deleter) (p : obj_ptr)
| EvReleaseShared (b : addr)
| EvReleaseWeak (b : addr) (shared weak : Z).

#[global] Instance object_eq_dec : EqDecision object.
Proof. solve_decision. Defined.
#[global] Instance deleter_eq_dec : EqDecision deleter.
Proof. solve_decision. Defined.
#[global] Instance block_kind_eq_dec : EqDecision block_kind.
Proof. solve_decision. Defined.
#[global] Instance block_eq_dec : EqDecision block.
Proof. solve_decision. Defined.
#[global] Instance event_eq_dec : EqDecision event.
Proof. solve_decision. Defined.

(** The program state.  [events] holds the log newest first; [trace] below
    gives it in chronological order.  Addresses are never handed out twice:
    [next_addr] is the next fresh one. *)
Record state : Type := State {
  blocks : gmap nat block;
  storage : gset nat;
  next_addr : nat;
  shared_ptrs : gmap nat (option nat);
  weak_ptrs : gmap nat (option nat);
  events : list event
}.

Definition trace (st : state) : list event := rev (events st).

Definition init : state :=
  {| blocks := ∅; storage := ∅; next_addr := 1;
     shared_ptrs := ∅; weak_ptrs := ∅; events := [] |}.

Definition set_blocks (f : gmap nat block → gmap nat block) (st : state) : state :=
  {| blocks := f (blocks st); storage := storage st; next_addr := next_addr st;
     shared_ptrs := shared_ptrs st; weak_ptrs := weak_ptrs st;
     events := events st |}.

Definition set_storage (f : gset nat → gset nat) (st : state) : state :=
  {| blocks := blocks st; storage := f (storage st); next_addr := next_addr st;
     shared_ptrs := shared_ptrs st; weak_ptrs := weak_ptrs st;
     events := events st |}.

Definition set_next_addr (n : nat) (st : state) : state :=
  {| blocks := blocks st; storage := storage st; next_addr := n;
     shared_ptrs := shared_ptrs st; weak_ptrs := weak_ptrs st;
     events := events st |}.

Definition set_shared_ptrs
    (f : gmap nat (option nat) → gmap nat (option nat)) (st : state) : state :=
  {| blocks := blocks st; storage := storage st; next_addr := next_addr st;
     shared_ptrs := f (shared_ptrs st); weak_ptrs := weak_ptrs st;
     events := events st |}.

Definition set_weak_ptrs
    (f : gmap nat (option nat) → gmap nat (option nat)) (st : state) : state :=
  {| blocks := blocks st; storage := storage st; next_addr := next_addr st;
     shared_ptrs := shared_ptrs st; weak_ptrs := f (weak_ptrs st);
     events := events st |}.

Definition log (e : event) (st : state) : state :=
  {| blocks := blocks st; storage := storage st; next_addr := next_addr st;
     shared_ptrs := shared_ptrs st; weak_ptrs := weak_ptrs st;
     events := e :: events st |}.

(** ** The monad of member functions *)

Inductive result (A : Type) : Type :=
| Ok (a : A) (st : state)
| Throw (st : state)
| UB (st : state)
| Terminate (st : state).
Arguments Ok {A} a st.
Arguments Throw {A} st.
Arguments UB {A} st.
Arguments Terminate {A} st.

Definition M (A : Type) : Type := state → result A.

Definition ret {A} (a : A) : M A := fun st => Ok a st.

Definition bind {A B} (m : M A) (k : A → M B) : M B :=
  fun st =>
    match m st with
    | Ok a st' => k a st'
    | Throw st' => Throw st'
    | UB st' => UB st'
    | Terminate st' => Terminate st'
    end.

#[global] Instance M_ret : MRet M := @ret.
#[global] Instance M_bind : MBind M := fun A B k m => bind m k.

(** [throw;] and [try { body } catch (...) { handler }]. *)
Definition throw {A} : M A := fun st => Throw st.

Definition try_catch {A} (body handler : M A) : M A :=
  fun st =>
    match body st with
    | Throw st' => handler st'
    | r => r
    end.

(** A function declared [noexcept], and a destructor, which is [noexcept]
    unless declared otherwise: an exception that would leave the body
    calls [std::terminate].  Members whose body calls nothing that can
    throw are written without it. *)
Definition noexcept {A} (m : M A) : M A :=
  fun st =>
    match m st with
    | Throw st' => Terminate st'
    | r => r
    end.

Definition undefined {A} : M A := fun st => UB st.

Definition emit (e : event) : M unit := fun st => Ok tt (log e st).

(** ** Memory *)

(** [control_block_->...]: reading through a pointer to a block that is not
    (or no longer) a constructed block is undefined. *)
Definition deref (b : addr) : M block :=
  fun st =>
    match blocks st !! b with
    | Some blk => Ok blk st
    | None => UB st
    end.

Definition store (b : addr) (blk : block) : M unit :=
  fun st => Ok tt (set_blocks (insert b blk) st).

(** [allocate(alloc, 1)] and [operator new]: fresh raw storage, or
    [std::bad_alloc] when memory is exhausted ([oom]). *)
Definition allocate (oom : bool) : M addr :=
  fun st =>
    if oom then Throw st
    else
      let b := next_addr st in
      Ok b (log (EvAllocate b)
             (set_next_addr (S b) (set_storage (fun s => {[b]} ∪ s) st))).

(** [deallocate(alloc, this, 1)]: the storage is given back; whatever block
    was constructed in it is gone. *)
Definition deallocate (b : addr) : M unit :=
  fun st =>
    Ok tt (log (EvDeallocate b)
            (set_storage (fun s => s ∖ {[b]}) (set_blocks (delete b) st))).

(** [construct(alloc, p, args...)]: runs the constructor of the block in the
    raw storage at [b]; the constructor may throw (a throwing copy of the
    deleter or allocator, a throwing constructor of the managed value). *)
Definition construct (throws : bool) (b : addr) (blk : block) : M unit :=
  if throws then throw else store b blk.

(** What can go wrong while a control block is being created. *)
Inductive fault : Type :=
| NoFault
| AllocFails
| ConstructThrows.

Definition alloc_fails (f : fault) : bool :=
  match f with AllocFails => true | _ => false end.
Definition construct_throws (f : fault) : bool :=
  match f with ConstructThrows => true | _ => false end.

(** ** The destruction of a managed object *)

(** What the call [deleter(this->pointer)], or the destruction of the
    [value] of a [BlockVault], runs besides being logged: the destructor
    of the managed object and with it the destructors of the [SharedPtr]
    and [WeakPtr] members of the object, which are calls of the functions
    below, and possibly an exception.  [inert] is the destruction of an
    object that holds no handle and does not throw. *)
Definition inert : M unit := ret tt.

(** ** namespace details *)

Module details.

(** [BaseControlBlock(T* ptr)]: member initialisers [shared_count{1}],
    [weak_count{0}]. *)
Definition new_block (k : block_kind) (ptr : obj_ptr) : block :=
  {| kind := k; pointer := ptr; shared_count := 1; weak_count := 0 |}.

Definition with_pointer (p : obj_ptr) (blk : block) : block :=
  {| kind := kind blk; pointer := p;
     shared_count := shared_count blk; weak_count := weak_count blk |}.

Definition with_shared_count (n : Z) (blk : block) : block :=
  {| kind := kind blk; pointer := pointer blk;
     shared_count := n; weak_count := weak_count blk |}.

Definition with_weak_count (n : Z) (blk : block) : block :=
  {| kind := kind blk; pointer := pointer blk;
     shared_count := shared_count blk; weak_count := n |}.

(** [size_t increase_shared_count() { return ++shared_count; }] *)
Definition increase_shared_count (b : addr) : M Z :=
  blk ← deref b;
  let n := wrap (shared_count blk + 1) in
  store b (with_shared_count n blk);;
  ret n.

(** [size_t increase_weak_count() { return ++weak_count; }] *)
Definition increase_weak_count (b : addr) : M Z :=
  blk ← deref b;
  let n := wrap (weak_count blk + 1) in
  store b (with_weak_count n blk);;
  ret n.

(** [ControlBlock::release_shared] calls [deleter(this->pointer)];
    [BlockVault::release_shared] destroys [value] through the allocator.
    Both then set [this->pointer = nullptr]: a write through [this] after
    the code [del] of the client has run, undefined when that code has
    released the block. *)
Definition release_shared (del : M unit) (b : addr) : M unit :=
  blk ← deref b;
  emit (EvReleaseShared b);;
  match kind blk with
  | KControlBlock d => emit (EvDeleter b d (pointer blk))
  | KBlockVault => emit (EvDestroyValue b)
  end;;
  del;;
  blk' ← deref b;
  store b (with_pointer None blk').

(** [ControlBlock::release_weak] destroys and deallocates [this];
    [BlockVault::release_weak] only deallocates [this].  The event records
    the two counters as they are when the function is entered. *)
Definition release_weak (b : addr) : M unit :=
  blk ← deref b;
  emit (EvReleaseWeak b (shared_count blk) (weak_count blk));;
  match kind blk with
  | KControlBlock _ => emit (EvDestroyBlock b)
  | KBlockVault => ret tt
  end;;
  deallocate b.

(** [BaseControlBlock::decrease_shared_counter] *)
Definition decrease_shared_counter (del : M unit) (b : addr) : M unit :=
  blk ← deref b;
  let n := wrap (shared_count blk - 1) in
  store b (with_shared_count n blk);;
  if (n =? 0)%Z then
    release_shared del b;;
    blk' ← deref b;
    if (weak_count blk' =? 0)%Z then release_weak b else ret tt
  else ret tt.

(** [BaseControlBlock::decrease_weak_counter] *)
Definition decrease_weak_counter (b : addr) : M unit :=
  blk ← deref b;
  let n := wrap (weak_count blk - 1) in
  store b (with_weak_count n blk);;
  if ((shared_count blk =? 0)%Z && (n =? 0)%Z)%bool then release_weak b
  else ret tt.

End details.

(** ** Handle objects *)

(** Reading [control_block_] of a [SharedPtr] object; using an object that
    does not exist (never constructed, or already destroyed) is undefined. *)
Definition shared_field (h : handle) : M block_ptr :=
  fun st =>
    match shared_ptrs st !! h with
    | Some cb => Ok cb st
    | None => UB st
    end.

(** [control_block_ = cb] on an existing object. *)
Definition set_shared_field (h : handle) (cb : block_ptr) : M unit :=
  fun st =>
    match shared_ptrs st !! h with
    | Some _ => Ok tt (set_shared_ptrs (insert h cb) st)
    | None => UB st
    end.

(** A constructor brings a new object into existence; its identity must not
    be that of a live object. *)
Definition new_shared (h : handle) (cb : block_ptr) : M unit :=
  fun st =>
    match shared_ptrs st !! h with
    | Some _ => UB st
    | None => Ok tt (set_shared_ptrs (insert h cb) st)
    end.

(** The end of a destructor: the object is gone. *)
Definition end_shared (h : handle) : M unit :=
  fun st => Ok tt (set_shared_ptrs (delete h) st).

Definition weak_field (w : handle) : M block_ptr :=
  fun st =>
    match weak_ptrs st !! w with
    | Some cb => Ok cb st
    | None => UB st
    end.

Definition set_weak_field (w : handle) (cb : block_ptr) : M unit :=
  fun st =>
    match weak_ptrs st !! w with
    | Some _ => Ok tt (set_weak_ptrs (insert w cb) st)
    | None => UB st
    end.

Definition new_weak (w : handle) (cb : block_ptr) : M unit :=
  fun st =>
    match weak_ptrs st !! w with
    | Some _ => UB st
    | None => Ok tt (set_weak_ptrs (insert w cb) st)
    end.

Definition end_weak (w : handle) : M unit :=
  fun st => Ok tt (set_weak_ptrs (delete w) st).

(** ** class SharedPtr *)

(** [dynamic_cast<details::BaseControlBlock<T>*>(other.control_block_)] in
    the overloads that take a [SharedPtr<Y>] with [Y] different from [T]
    (for [Y] = [T] overload resolution picks the non-template members):
    [BaseControlBlock<Y>] and [BaseControlBlock<T>] are unrelated classes
    and every control block derives from exactly one [BaseControlBlock], so
    the cast of a pointer to a block gives [nullptr].  The cast reads the
    dynamic type of the block it is applied to: on a null pointer it gives
    null without reading, on a pointer to a released block it is
    undefined. *)
Definition dynamic_cast (cb : block_ptr) : M block_ptr :=
  match cb with
  | None => ret None
  | Some b => _ ← deref b; ret None
  end.

Module SharedPtr.

(** [SharedPtr() = default;] *)
Definition default_ctor (h : handle) : M unit := new_shared h None.

(** [explicit SharedPtr(std::nullptr_t) {}] *)
Definition nullptr_ctor (h : handle) : M unit := new_shared h None.

(** The private [explicit SharedPtr(BaseControlBlock<T>* control_block)]:
    stores the pointer and nothing else. *)
Definition block_ctor (h : handle) (cb : block_ptr) : M unit := new_shared h cb.

(** [SharedPtr(Y* ptr)]: [new details::ControlBlock<T>(ptr)]. *)
Definition raw_ctor (h : handle) (ptr : obj_ptr) (oom : bool) : M unit :=
  b ← allocate oom;
  store b (details.new_block (KControlBlock DefaultDelete) ptr);;
  new_shared h (Some b).

(** [SharedPtr(Y* ptr, Deleter deleter)]:
    [new details::ControlBlock<T, Deleter>(ptr, std::move(deleter))].  A
    new-expression gives the storage back when the constructor throws. *)
Definition deleter_ctor (h : handle) (ptr : obj_ptr) (d : nat) (f : fault)
  : M unit :=
  b ← allocate (alloc_fails f);
  try_catch
    (construct (construct_throws f) b
       (details.new_block (KControlBlock (CustomDeleter d)) ptr))
    (deallocate b;; throw);;
  new_shared h (Some b).

(** [SharedPtr(Y* ptr, Deleter deleter, Allocator alloc)]; the handler
    calls [deleter(ptr)], which runs [del] as in [release_shared]. *)
Definition deleter_alloc_ctor (del : M unit) (h : handle) (ptr : obj_ptr)
    (d : nat) (f : fault) : M unit :=
  b ← allocate (alloc_fails f);
  try_catch
    (construct (construct_throws f) b
       (details.new_block (KControlBlock (CustomDeleter d)) ptr);;
     new_shared h (Some b))
    (emit (EvDeleter b (CustomDeleter d) ptr);; del;; throw).

(** [SharedPtr(const SharedPtr& other)] *)
Definition copy_ctor (h other : handle) : M unit :=
  cb ← shared_field other;
  new_shared h cb;;
  match cb with
  | None => ret tt
  | Some b =>
      blk ← deref b;
      match pointer blk with
      | None => ret tt
      | Some _ => details.increase_shared_count b;; ret tt
      end
  end.

(** [template <typename Y> SharedPtr(const SharedPtr<Y>& other)] *)
Definition converting_copy_ctor (h other : handle) : M unit :=
  cb ← shared_field other;
  c ← dynamic_cast cb;
  new_shared h c;;
  match c with
  | None => ret tt
  | Some b =>
      blk ← deref b;
      match pointer blk with
      | None => ret tt
      | Some _ => details.increase_shared_count b;; ret tt
      end
  end.

(** [SharedPtr(SharedPtr&& other) noexcept] *)
Definition move_ctor (h other : handle) : M unit :=
  cb ← shared_field other;
  new_shared h cb;;
  set_shared_field other None.

(** [template <typename Y> SharedPtr(SharedPtr<Y>&& other)] *)
Definition converting_move_ctor (h other : handle) : M unit :=
  cb ← shared_field other;
  c ← dynamic_cast cb;
  new_shared h c;;
  set_shared_field other None.

(** [SharedPtr& operator=(const SharedPtr& other)]: after the test of
    [this] against [&other] the handle gives up its block, and only then
    is [other.control_block_] read. *)
Definition copy_assign (del : M unit) (h other : handle) : M unit :=
  cb ← shared_field h;
  if decide (h = other) then ret tt
  else
    match cb with
    | None => ret tt
    | Some b => details.decrease_shared_counter del b
    end;;
    cb_other ← shared_field other;
    set_shared_field h cb_other;;
    match cb_other with
    | None => ret tt
    | Some b => details.increase_shared_count b;; ret tt
    end.

(** [template <typename Y> SharedPtr& operator=(const SharedPtr<Y>& other)]:
    no test of [this] against [&other], which have different types. *)
Definition converting_copy_assign (del : M unit) (h other : handle)
  : M unit :=
  cb ← shared_field h;
  match cb with
  | None => ret tt
  | Some b => details.decrease_shared_counter del b
  end;;
  cb_other ← shared_field other;
  c ← dynamic_cast cb_other;
  set_shared_field h c;;
  match c with
  | None => ret tt
  | Some b => details.increase_shared_count b;; ret tt
  end.

(** [template <typename Y> SharedPtr& operator=(SharedPtr<Y>&& other)] *)
Definition converting_move_assign (del : M unit) (h other : handle)
  : M unit :=
  cb ← shared_field h;
  match cb with
  | None => ret tt
  | Some b => details.decrease_shared_counter del b
  end;;
  cb_other ← shared_field other;
  c ← dynamic_cast cb_other;
  set_shared_field h c;;
  set_shared_field other None.

(** [SharedPtr& operator=(SharedPtr&& other) noexcept]: as in the copy
    assignment, [other.control_block_] is read after the handle has given
    up its block. *)
Definition move_assign (del : M unit) (h other : handle) : M unit :=
  noexcept
    (cb ← shared_field h;
     if decide (h = other) then ret tt
     else
       match cb with
       | None => ret tt
       | Some b => details.decrease_shared_counter del b
       end;;
       cb_other ← shared_field other;
       set_shared_field h cb_other;;
       set_shared_field other None).

(** [~SharedPtr()], implicitly [noexcept]. *)
Definition dtor (del : M unit) (h : handle) : M unit :=
  noexcept
    (cb ← shared_field h;
     match cb with
     | None => ret tt
     | Some b => details.decrease_shared_counter del b
     end;;
     end_shared h).

(** [int use_count() const] *)
Definition use_count (h : handle) : M Z :=
  cb ← shared_field h;
  match cb with
  | None => ret 0%Z
  | Some b => blk ← deref b; ret (to_int (shared_count blk))
  end.

(** [T* get() const] *)
Definition get (h : handle) : M obj_ptr :=
  cb ← shared_field h;
  match cb with
  | None => ret None
  | Some b => blk ← deref b; ret (pointer blk)
  end.

(** [void reset()] *)
Definition reset (del : M unit) (h : handle) : M unit :=
  cb ← shared_field h;
  match cb with
  | None => ret tt
  | Some b => details.decrease_shared_counter del b;; set_shared_field h None
  end.

End SharedPtr.

(** [AllocateShared(alloc, args...)]: storage for a [BlockVault], then
    [construct], which runs the constructor of the managed [value]; the
    result is built by the private constructor of [SharedPtr]. *)
Definition AllocateShared (h : handle) (f : fault) : M unit :=
  b ← allocate (alloc_fails f);
  construct (construct_throws f) b
    (details.new_block KBlockVault (Some (ValueOf b)));;
  SharedPtr.block_ctor h (Some b).

(** [MakeShared(args...)]: [AllocateShared] with [std::allocator<T>]. *)
Definition MakeShared (h : handle) (f : fault) : M unit := AllocateShared h f.

(** ** class WeakPtr *)

Module WeakPtr.

(** [WeakPtr() = default;] *)
Definition default_ctor (w : handle) : M unit := new_weak w None.

(** [WeakPtr(const WeakPtr& other)]: no null check before the increment. *)
Definition copy_ctor (w other : handle) : M unit :=
  cb ← weak_field other;
  new_weak w cb;;
  match cb with
  | None => undefined
  | Some b => details.increase_weak_count b;; ret tt
  end.

(** [explicit WeakPtr(const SharedPtr<T>& other)] *)
Definition from_shared (w other : handle) : M unit :=
  cb ← shared_field other;
  new_weak w cb;;
  match cb with
  | None => ret tt
  | Some b => details.increase_weak_count b;; ret tt
  end.

(** [WeakPtr(WeakPtr&& other) noexcept] *)
Definition move_ctor (w other : handle) : M unit :=
  cb ← weak_field other;
  new_weak w cb;;
  set_weak_field other None.

(** [WeakPtr& operator=(const WeakPtr& other) = default;]: the member is
    copied. *)
Definition copy_assign (w other : handle) : M unit :=
  cb_other ← weak_field other;
  set_weak_field w cb_other.

(** [WeakPtr& operator=(WeakPtr&& other) noexcept]:
    [control_block_ = std::move(other.control_block_)], and moving from a
    raw pointer copies it. *)
Definition move_assign (w other : handle) : M unit :=
  cb_other ← weak_field other;
  set_weak_field w cb_other.

(** [bool expired() const { return control_block_->shared_count == 0; }] *)
Definition expired (w : handle) : M bool :=
  cb ← weak_field w;
  match cb with
  | None => undefined
  | Some b => blk ← deref b; ret (shared_count blk =? 0)%Z
  end.

(** [SharedPtr<T> lock() const]; [h] is the object that receives the
    returned value. *)
Definition lock (h w : handle) : M unit :=
  cb ← weak_field w;
  match cb with
  | None => SharedPtr.default_ctor h
  | Some b =>
      blk ← deref b;
      if (shared_count blk =? 0)%Z then SharedPtr.default_ctor h
      else SharedPtr.block_ctor h (Some b)
  end.

(** [~WeakPtr()] *)
Definition dtor (w : handle) : M unit :=
  cb ← weak_field w;
  match cb with
  | None => ret tt
  | Some b => details.decrease_weak_counter b
  end;;
  end_weak w.

End WeakPtr.

(** ** Client programs: sequences of public operations *)

(** The handles of a client program are objects of the client: locals,
    temporaries, members of objects that no [SharedPtr] manages.  The
    managed objects hold no handle and their destruction does not throw,
    so every operation of a program runs with [inert].  A handle that is a
    member of a managed object is destroyed by the destructor of that
    object, not by an operation of the program; code with such objects is
    written with the member functions themselves, the destructors of the
    members as the argument [del]. *)
Inductive op : Type :=
| SDefault (h : handle)
| SNullptr (h : handle)
| SRaw (h : handle) (ptr : obj_ptr) (oom : bool)
| SDeleter (h : handle) (ptr : obj_ptr) (d : nat) (f : fault)
| SDeleterAlloc (h : handle) (ptr : obj_ptr) (d : nat) (f : fault)
| SAllocateShared (h : handle) (f : fault)
| SMakeShared (h : handle) (f : fault)
| SCopy (h other : handle)
| SMove (h other : handle)
| SCopyAssign (h other : handle)
| SMoveAssign (h other : handle)
| SConvCopy (h other : handle)
| SConvMove (h other : handle)
| SConvCopyAssign (h other : handle)
| SConvMoveAssign (h other : handle)
| SReset (h : handle)
| SUseCount (h : handle)
| SGet (h : handle)
| SDestroy (h : handle)
| WDefault (w : handle)
| WFromShared (w other : handle)
| WCopy (w other : handle)
| WMove (w other : handle)
| WCopyAssign (w other : handle)
| WMoveAssign (w other : handle)
| WExpired (w : handle)
| WLock (h w : handle)
| WDestroy (w : handle).

Definition exec (o : op) : M unit :=
  match o with
  | SDefault h => SharedPtr.default_ctor h
  | SNullptr h => SharedPtr.nullptr_ctor h
  | SRaw h ptr oom => SharedPtr.raw_ctor h ptr oom
  | SDeleter h ptr d f => SharedPtr.deleter_ctor h ptr d f
  | SDeleterAlloc h ptr d f => SharedPtr.deleter_alloc_ctor inert h ptr d f
  | SAllocateShared h f => AllocateShared h f
  | SMakeShared h f => MakeShared h f
  | SCopy h other => SharedPtr.copy_ctor h other
  | SMove h other => SharedPtr.move_ctor h other
  | SCopyAssign h other => SharedPtr.copy_assign inert h other
  | SMoveAssign h other => SharedPtr.move_assign inert h other
  | SConvCopy h other => SharedPtr.converting_copy_ctor h other
  | SConvMove h other => SharedPtr.converting_move_ctor h other
  | SConvCopyAssign h other => SharedPtr.converting_copy_assign inert h other
  | SConvMoveAssign h other => SharedPtr.converting_move_assign inert h other
  | SReset h => SharedPtr.reset inert h
  | SUseCount h => SharedPtr.use_count h;; ret tt
  | SGet h => SharedPtr.get h;; ret tt
  | SDestroy h => SharedPtr.dtor inert h
  | WDefault w => WeakPtr.default_ctor w
  | WFromShared w other => WeakPtr.from_shared w other
  | WCopy w other => WeakPtr.copy_ctor w other
  | WMove w other => WeakPtr.move_ctor w other
  | WCopyAssign w other => WeakPtr.copy_assign w other
  | WMoveAssign w other => WeakPtr.move_assign w other
  | WExpired w => WeakPtr.expired w;; ret tt
  | WLock h w => WeakPtr.lock h w
  | WDestroy w => WeakPtr.dtor w
  end.

(** How a client program ends: it runs to its end, it stops at the first
    operation with undefined behaviour, or it is ended by [std::terminate].
    An exception thrown by an operation is caught by the client, which goes
    on with the next operation. *)
Inductive outcome : Type :=
| Finished
| Undefined
| Terminated.

Fixpoint run (ops : list op) (st : state) : outcome * state :=
  match ops with
  | [] => (Finished, st)
  | o :: rest =>
      match exec o st with
      | Ok _ st' => run rest st'
      | Throw st' => run rest st'
      | UB st' => (Undefined, st')
      | Terminate st' => (Terminated, st')
      end
  end.

(** ** Observations *)

(** The state in which a member function leaves the program, however it
    ends. *)
Definition final {A} (r : result A) : state :=
  match r with
  | Ok _ st => st
  | Throw st => st
  | UB st => st
  | Terminate st => st
  end.

(** A scenario used below: the state a client program reaches from [init]. *)
Definition after (ops : list op) : state := snd (run ops init).

Definition count_of (st : state) (b : addr) : option Z :=
  shared_count <$> blocks st !! b.

Definition weak_count_of (st : state) (b : addr) : option Z :=
  weak_count <$> blocks st !! b.

(** What a call returns, when it returns. *)
Definition returns {A} (r : result A) : option A :=
  match r with
  | Ok a _ => Some a
  | _ => None
  end.

(** [m] returns and leaves the whole program state as it was; spelled out
    for what a client can observe of the handle [h]. *)
Definition leaves_unchanged (m : M unit) (h : handle) (st : state) : Prop :=
  ∃ st', m st = Ok tt st'
         ∧ st' = st
         ∧ returns (SharedPtr.use_count h st')
           = returns (SharedPtr.use_count h st)
         ∧ returns (SharedPtr.get h st') = returns (SharedPtr.get h st)
         ∧ trace st' = trace st.

(** The destination of a move assignment holds no block, or a live one. *)
Definition null_or_live (st : state) (cb : option nat) : Prop :=
  match cb with
  | None => True
  | Some y => is_Some (blocks st !! y)
  end.

(** The source handle [a] is empty in [st]. *)
Definition source_empty (a : handle) (st : state) : Prop :=
  shared_ptrs st !! a = Some None
  ∧ SharedPtr.get a st = Ok None st
  ∧ SharedPtr.use_count a st = Ok 0%Z st.

(** A move construction of [b] from [a] returns, leaves [a] empty and
    writes no block. *)
Definition move_ctor_spec (st : state) (a b : handle) : Prop :=
  ∃ st', SharedPtr.move_ctor b a st = Ok tt st'
         ∧ source_empty a st'
         ∧ blocks st' = blocks st.

(** The code [del], run in [st], returns without an exception and leaves
    alone the [SharedPtr] objects in [hs] and the control blocks that the
    pointers in [cbs] refer to. *)
Definition spares (del : M unit) (st : state) (hs : list handle)
    (cbs : list (option nat)) : Prop :=
  ∃ st', del st = Ok tt st'
         ∧ (∀ h, In h hs → shared_ptrs st' !! h = shared_ptrs st !! h)
         ∧ (∀ x, In (Some x) cbs → blocks st' !! x = blocks st !! x).

(** A move assignment [b = std::move(a)], with [cb_a] and [cb_b] the block
    pointers the two handles held and [del] what the destruction of the
    object of [b] runs: it returns and leaves [a] empty; the block [a]
    referred to is as it was, unless [b] referred to it too, in which case
    its [shared_count] has gone down by one. *)
Definition move_assign_spec (del : M unit) (st : state) (a b : handle)
    (cb_a cb_b : option nat) : Prop :=
  ∃ st', SharedPtr.move_assign del b a st = Ok tt st'
         ∧ source_empty a st'
         ∧ match cb_a with
           | None => True
           | Some x =>
               if decide (cb_b = Some x)
               then ∀ blk blk', blocks st !! x = Some blk →
                                blocks st' !! x = Some blk' →
                                shared_count blk'
                                = wrap (shared_count blk - 1)
               else blocks st' !! x = blocks st !! x
           end.

(** What [get] and [use_count] give for the handle [h] in [st]. *)
Definition observes (h : handle) (st : state) (p : option object) (n : Z)
  : Prop :=
  SharedPtr.get h st = Ok p st ∧ SharedPtr.use_count h st = Ok n st.

(** ** The invariant behind the release protocol *)

(** One entry of the log, judged against the entries before it: a call of
    [release_weak] on [b] sees both counters at zero, comes after a call of
    [release_shared] on [b], and is the first [release_weak] on [b]. *)
Definition weak_release_ok (e : event) (earlier : list event) : Prop :=
  match e with
  | EvReleaseWeak b sc wc =>
      sc = 0%Z ∧ wc = 0%Z
      ∧ In (EvReleaseShared b) earlier
      ∧ ∀ sc' wc', ¬ In (EvReleaseWeak b sc' wc') earlier
  | _ => True
  end.

(** The log, newest entry first, respects the protocol. *)
Fixpoint log_ok (l : list event) : Prop :=
  match l with
  | [] => True
  | e :: earlier => weak_release_ok e earlier ∧ log_ok earlier
  end.

(** The invariant after [n] operations of a client program:
    - a block on which [release_shared] has not run has a [shared_count]
      between 1 and [n];
    - blocks live below [next_addr];
    - a block on which [release_weak] has run is gone, and its address is
      below [next_addr], so it is never handed out again;
    - the log respects the protocol. *)
Record Inv (n : nat) (st : state) : Prop := {
  inv_counts : ∀ b blk, blocks st !! b = Some blk →
    In (EvReleaseShared b) (events st)
    ∨ (1 ≤ shared_count blk ≤ Z.of_nat n)%Z;
  inv_fresh : ∀ b, is_Some (blocks st !! b) → b < next_addr st;
  inv_freed : ∀ b sc wc, In (EvReleaseWeak b sc wc) (events st) →
    blocks st !! b = None ∧ b < next_addr st;
  inv_log : log_ok (events st)
}.

(** [m] keeps the invariant at level [n], however it ends. *)
Definition keeps (n : nat) {A} (m : M A) : Prop :=
  ∀ st, Inv n st → Inv n (final (m st)).

(** [m] takes the invariant from level [n] to level [S n]. *)
Definition grows (n : nat) {A} (m : M A) : Prop :=
  ∀ st, Inv n st → Inv (S n) (final (m st)).

(** Entries of the log that are calls of [release_weak]. *)
Definition is_weak_release (e : event) : bool :=
  match e with
  | EvReleaseWeak _ _ _ => true
  | _ => false
  end.

(** What [release_shared] does to the managed object. *)
Definition object_release (b : addr) (blk : block) : event :=
  match kind blk with
  | KControlBlock d => EvDeleter b d (pointer blk)
  | KBlockVault => EvDestroyValue b
  end.

(** ** Scenarios *)

(** An object outside any control block, and the pointer to it. *)
Definition obj7 : option object := Some (External 7).
Definition obj8 : option object := Some (External 8).

(** One strong and one weak handle on one block. *)
Definition one_strong_one_weak : state :=
  after [SRaw 1 obj7 false; WFromShared 1 1].

(** Two blocks, each with one strong and one weak handle. *)
Definition two_blocks : state :=
  after [SRaw 1 obj7 false; SRaw 2 obj8 false;
         WFromShared 1 1; WFromShared 2 2].

(** Two strong handles on one block, the second made by copy
    construction. *)
Definition two_strong : state := after [SRaw 1 obj7 false; SCopy 2 1].

(** A handle built from a null raw pointer with a custom deleter, a copy of
    it, and the copy destroyed. *)
Definition null_copy_destroyed : state :=
  after [SDeleter 1 None 0 NoFault; SCopy 2 1; SDestroy 2].

(** A handle built from a null raw pointer with a custom deleter and
    observed by a weak handle; strong handles are made from it by copy
    construction and by copy assignment, and every strong handle is
    destroyed. *)
Definition null_copy_program : list op :=
  [SDeleter 1 None 0 NoFault; WFromShared 1 1;
   SCopy 2 1; SDestroy 2;
   SDefault 3; SCopyAssign 3 1; SDestroy 3;
   SDestroy 1].

(** A parent and a child.  The parent is owned by the handle 1 and its
    member [child] is the handle 3; the child is built from the parent, its
    member [parent] is the weak handle 1, and it is handed to the parent
    through a temporary, the handle 2:
    [SharedPtr<Parent> p(new Parent);]
    [p->child = SharedPtr<Child>(new Child(p));] *)
Definition parent_child_program : list op :=
  [SDefault 3; SRaw 1 obj7 false; WFromShared 1 1;
   SRaw 2 obj8 false; SMoveAssign 3 2; SDestroy 2].

(** A singly linked list of two nodes.  The first node is owned by the
    handle 1 ([head]) and its member [next] is the handle 3, which owns the
    second node; the member [next] of the second node is the empty handle
    4.  The handle 2 is the temporary that carried the second node. *)
Definition two_nodes_program : list op :=
  [SDefault 3; SRaw 1 obj7 false; SDefault 4; SRaw 2 obj8 false;
   SMoveAssign 3 2; SDestroy 2].

(** A list node next to another object: the handle 1 owns an object
    without members, the handle 2 owns a node whose member [next] is the
    empty handle 3. *)
Definition object_and_node_program : list op :=
  [SRaw 1 obj7 false; SDefault 3; SRaw 2 obj8 false].

(** A list of one node: the handle 1 owns the node, whose member [next] is
    the empty handle 3. *)
Definition one_node_program : list op := [SDefault 3; SRaw 1 obj7 false].

(** The program of main.cpp: a handle with a custom deleter and allocator,
    moved, copied, the moved-to handle reassigned from [MakeShared], then
    every handle destroyed at the end of the scope. *)
Definition main_program : list op :=
  [SDeleterAlloc 1 obj7 0 NoFault; SMove 2 1; SCopy 3 2;
   SMakeShared 4 NoFault; SMoveAssign 2 4; SDestroy 4;
   SDestroy 3; SDestroy 2; SDestroy 1].

(** ** Sound client programs *)

(** The number of handles in a store that hold a pointer to the block at
    [b]. *)
Definition refs (m : gmap nat (option nat)) (b : addr) : nat :=
  size (filter (λ kv : nat * option nat, kv.2 = Some b) m).

(** What a handle holding [cb] contributes to the count for [b]. *)
Definition ref_of (cb : option nat) (b : addr) : nat :=
  if decide (cb = Some b) then 1 else 0.

(** The [SharedPtr] and the [WeakPtr] objects that refer to [b]. *)
Definition srefs (st : state) (b : addr) : nat := refs (shared_ptrs st) b.
Definition wrefs (st : state) (b : addr) : nat := refs (weak_ptrs st) b.

(** Operations that stay clear of the paths on which the counters go
    wrong: no [lock], no [WeakPtr] assignment, no converting overload, no
    null raw pointer, and no throwing [construct] where the storage would
    stay allocated. *)
Definition sound_op (o : op) : bool :=
  match o with
  | SDefault _ | SNullptr _ => true
  | SRaw _ (Some _) _ => true
  | SDeleter _ (Some _) _ _ => true
  | SDeleterAlloc _ (Some _) _ f => negb (construct_throws f)
  | SAllocateShared _ f | SMakeShared _ f => negb (construct_throws f)
  | SCopy _ _ | SMove _ _ | SCopyAssign _ _ | SMoveAssign _ _ => true
  | SReset _ | SUseCount _ | SGet _ | SDestroy _ => true
  | WDefault _ | WFromShared _ _ | WCopy _ _ | WMove _ _ => true
  | WExpired _ | WDestroy _ => true
  | _ => false
  end.

Definition is_live {A} (m : gmap nat A) (h : nat) : bool :=
  bool_decide (is_Some (m !! h)).
Definition is_free {A} (m : gmap nat A) (h : nat) : bool :=
  bool_decide (m !! h = None).
Definition is_bound (m : gmap nat (option nat)) (h : nat) : bool :=
  match m !! h with
  | Some (Some _) => true
  | _ => false
  end.

(** What the client owes an operation: a constructor gets the identity of
    no live object, every other operation names live objects, and
    [WeakPtr(const WeakPtr&)] and [expired] are given a handle that holds a
    block, since they dereference it unchecked. *)
Definition well_used (o : op) (st : state) : bool :=
  match o with
  | SDefault h | SNullptr h | SRaw h _ _ | SDeleter h _ _ _
  | SDeleterAlloc h _ _ _ | SAllocateShared h _ | SMakeShared h _ =>
      is_free (shared_ptrs st) h
  | SCopy h other | SMove h other | SConvCopy h other | SConvMove h other =>
      is_free (shared_ptrs st) h && is_live (shared_ptrs st) other
  | SCopyAssign h other | SMoveAssign h other
  | SConvCopyAssign h other | SConvMoveAssign h other =>
      is_live (shared_ptrs st) h && is_live (shared_ptrs st) other
  | SReset h | SUseCount h | SGet h | SDestroy h => is_live (shared_ptrs st) h
  | WDefault w => is_free (weak_ptrs st) w
  | WFromShared w other =>
      is_free (weak_ptrs st) w && is_live (shared_ptrs st) other
  | WCopy w other => is_free (weak_ptrs st) w && is_bound (weak_ptrs st) other
  | WMove w other => is_free (weak_ptrs st) w && is_live (weak_ptrs st) other
  | WCopyAssign w other | WMoveAssign w other =>
      is_live (weak_ptrs st) w && is_live (weak_ptrs st) other
  | WExpired w => is_bound (weak_ptrs st) w
  | WLock h w => is_free (shared_ptrs st) h && is_live (weak_ptrs st) w
  | WDestroy w => is_live (weak_ptrs st) w
  end.

(** A client program made of sound operations, each well used in the state
    the ones before it leave.  As for every program given by operations,
    its managed objects hold no handle and do not throw when destroyed
    ([exec] runs the operations with [inert]). *)
Fixpoint sound_program (ops : list op) (st : state) : bool :=
  match ops with
  | [] => true
  | o :: rest =>
      sound_op o && well_used o st && sound_program rest (final (exec o st))
  end.

(** [e] is the destruction of the object managed by the block at [b]. *)
Definition releases_object (b : addr) (e : event) : Prop :=
  match e with
  | EvDeleter b' _ _ => b' = b
  | EvDestroyValue b' => b' = b
  | _ => False
  end.

(** One entry of the log, judged against the entries before it:
    [release_shared] runs once per block, the managed object is destroyed
    once per block, and the deleter is given a non-null pointer. *)
Definition once_ok (e : event) (earlier : list event) : Prop :=
  match e with
  | EvReleaseShared b => ¬ In (EvReleaseShared b) earlier
  | EvDeleter b _ p =>
      p ≠ None ∧ ∀ e', In e' earlier → ¬ releases_object b e'
  | EvDestroyValue b => ∀ e', In e' earlier → ¬ releases_object b e'
  | _ => True
  end.

Fixpoint once_log (l : list event) : Prop :=
  match l with
  | [] => True
  | e :: earlier => once_ok e earlier ∧ once_log earlier
  end.

(** A block with [sr] strong and [wr] weak handles on it: the counters say
    so, the block has some handle, and the managed object is there exactly
    as long as a strong handle is. *)
Definition block_ok (sr wr : nat) (released : Prop) (blk : block) : Prop :=
  shared_count blk = Z.of_nat sr
  ∧ weak_count blk = Z.of_nat wr
  ∧ (sr = 0 → wr ≠ 0 ∧ pointer blk = None ∧ released)
  ∧ (sr ≠ 0 → pointer blk ≠ None ∧ ¬ released).

(** The state of a sound program after at most [n] operations. *)
Record Safe (n : nat) (st : state) : Prop := {
  safe_live : ∀ b blk, blocks st !! b = Some blk →
    block_ok (srefs st b) (wrefs st b)
      (In (EvReleaseShared b) (events st)) blk;
  safe_dead : ∀ b, blocks st !! b = None → srefs st b = 0 ∧ wrefs st b = 0;
  safe_storage : ∀ b, b ∈ storage st ↔ is_Some (blocks st !! b);
  safe_fresh : ∀ b, is_Some (blocks st !! b) → b < next_addr st;
  safe_released : ∀ b, In (EvReleaseShared b) (events st) → b < next_addr st;
  safe_object : ∀ e b, In e (events st) → releases_object b e →
    In (EvReleaseShared b) (events st);
  safe_size : size (shared_ptrs st) ≤ n ∧ size (weak_ptrs st) ≤ n;
  safe_log : once_log (events st)
}.

(** New entries of the log that concern the block at [b] only. *)
Definition about (b : addr) (evs : list event) : Prop :=
  ∀ e, In e evs →
    (∀ x, e = EvReleaseShared x → x = b) ∧ (∀ x, releases_object x e → x = b).

(** The entry [release_weak] logs for destroying the block object. *)
Definition block_destroy (b : addr) (blk : block) : list event :=
  match kind blk with
  | KControlBlock _ => [EvDestroyBlock b]
  | KBlockVault => []
  end.

(** The entries logged when the block at [b] loses its last strong handle
    and has no weak handle. *)
Definition last_strong_events (b : addr) (blk : block) : list event :=
  EvDeallocate b
  :: block_destroy b blk
  ++ [EvReleaseWeak b 0 0; object_release b blk; EvReleaseShared b].

(** The entries logged when the block at [b] loses its last weak handle
    and has no strong handle. *)
Definition last_weak_events (b : addr) (blk : block) : list event :=
  EvDeallocate b :: block_destroy b blk ++ [EvReleaseWeak b 0 0].

(** [m] returns or throws, and leaves a sound state. *)
Definition steps_to (n : nat) (m : M unit) (st : state) : Prop :=
  ∃ st', (m st = Ok tt st' ∨ m st = Throw st') ∧ Safe n st'.

(** What the state [st'] must show once a [SharedPtr] has let go of the
    block [blk] at [b] in the state [st]: the last owner destroys the
    managed object, and gives the storage back unless an observer is left;
    any other owner only takes itself off the count. *)
Definition lets_go (st st' : state) (b : addr) (blk : block) : Prop :=
  (srefs st b = 1 →
     In (object_release b blk) (events st')
     ∧ ¬ In (object_release b blk) (events st)
     ∧ (b ∈ storage st' ↔ wrefs st b ≠ 0))
  ∧ (srefs st b ≠ 1 →
     events st' = events st ∧ storage st' = storage st
     ∧ count_of st' b = Some (shared_count blk - 1)%Z).

(** The same for a [WeakPtr]: the last observer of a block without owner
    gives the storage back; any other observer only takes itself off the
    count. *)
Definition forgets (st st' : state) (b : addr) (blk : block) : Prop :=
  (srefs st b = 0 ∧ wrefs st b = 1 →
     (b ∉ storage st') ∧ blocks st' !! b = None
     ∧ In (EvDeallocate b) (events st')
     ∧ ∀ e, In e (events st') → releases_object b e → In e (events st))
  ∧ (¬ (srefs st b = 0 ∧ wrefs st b = 1) →
     events st' = events st ∧ storage st' = storage st
     ∧ weak_count_of st' b = Some (weak_count blk - 1)%Z).

(** The state in which [release_shared] calls the deleter when the last
    owner of the block [blk] at [b] gives it up in [st]: [shared_count] is
    0 and the two calls are logged. *)
Definition release_point (b : addr) (blk : block) (st : state) : state :=
  log (object_release b blk)
    (log (EvReleaseShared b)
       (set_blocks (insert b (details.with_shared_count 0 blk)) st)).

(** A block from [MakeShared] with two owners and two observers, a second
    block that an assignment gives up, and handles that are moved from and
    destroyed. *)
Definition shared_and_observed : list op :=
  [SMakeShared 1 NoFault; SCopy 2 1; WFromShared 1 1;
   SRaw 3 obj7 false; SMoveAssign 3 2; WCopy 2 1; SDestroy 1].

(** A block whose only owner is gone and that an observer keeps. *)
Definition observed_after_owner : list op :=
  [SDeleter 1 obj7 0 NoFault; WFromShared 1 1; SDestroy 1].

(** [m] keeps the state invariant [P], however it ends. *)
Definition holds (P : state → Prop) {A} (m : M A) : Prop :=
  ∀ st, P st → P (final (m st)).

(** Wherever [release_shared] has run, the managed object of the block has
    been destroyed. *)
Definition Released (st : state) : Prop :=
  ∀ b, In (EvReleaseShared b) (events st) →
       ∃ e, In e (events st) ∧ releases_object b e.

(** ** Objects handed over by raw pointer *)

(** The operations that create a control block. *)
Definition allocates (o : op) : bool :=
  match o with
  | SRaw _ _ _ | SDeleter _ _ _ _ | SDeleterAlloc _ _ _ _
  | SAllocateShared _ _ | SMakeShared _ _ => true
  | _ => false
  end.

(** The object an operation takes over from the client by raw pointer. *)
Definition given (o : op) : list object :=
  match o with
  | SRaw _ (Some x) _ | SDeleter _ (Some x) _ _
  | SDeleterAlloc _ (Some x) _ _ => [x]
  | _ => []
  end.

Definition objects_given (ops : list op) : list object := flat_map given ops.

(** An object of the client, outside every control block. *)
Definition is_external (x : object) : Prop :=
  match x with
  | External _ => True
  | ValueOf _ => False
  end.

(** [e] is a call of a deleter on the object [x]. *)
Definition deletes (x : object) (e : event) : Prop :=
  match e with
  | EvDeleter _ _ (Some y) => y = x
  | _ => False
  end.

(** In the log, newest entry first, no object is handed to a deleter
    twice. *)
Fixpoint deleted_once (l : list event) : Prop :=
  match l with
  | [] => True
  | e :: earlier =>
      (∀ x, deletes x e → ∀ e', In e' earlier → ¬ deletes x e')
      ∧ deleted_once earlier
  end.

(** The blocks keep the objects apart, [G] being the objects handed over
    so far: the object a block points to is its own [value] or one of [G],
    no deleter has been called on it, and no other block points to it;
    deleters have been called on objects of [G] only, once each. *)
Record Apart (G : list object) (st : state) : Prop := {
  apart_origin : ∀ b blk x, blocks st !! b = Some blk → pointer blk = Some x →
    (x = ValueOf b ∧ kind blk = KBlockVault) ∨ (In x G ∧ is_external x);
  apart_alive : ∀ b blk x e, blocks st !! b = Some blk →
    pointer blk = Some x → In e (events st) → ¬ deletes x e;
  apart_blocks : ∀ b1 b2 blk1 blk2 x,
    blocks st !! b1 = Some blk1 → blocks st !! b2 = Some blk2 →
    pointer blk1 = Some x → pointer blk2 = Some x → b1 = b2;
  apart_log : ∀ e x, In e (events st) → deletes x e →
    In x G ∧ is_external x;
  apart_once : deleted_once (events st)
}.

(** ** Access to the managed object *)

(** [T* operator->() { return control_block_->pointer; }]: no test of
    [control_block_] against [nullptr]. *)
Definition operator_arrow (h : handle) : M (option object) :=
  cb ← shared_field h;
  match cb with
  | None => undefined
  | Some b => blk ← deref b; ret (pointer blk)
  end.

(** [T& operator*() { return *control_block_->pointer; }]: the pointer is
    dereferenced as well. *)
Definition operator_star (h : handle) : M object :=
  cb ← shared_field h;
  match cb with
  | None => undefined
  | Some b =>
      blk ← deref b;
      match pointer blk with
      | None => undefined
      | Some o => ret o
      end
  end.

(** ** Proof support *)

Ltac unfold_monad :=
  unfold inert, noexcept, mbind, M_bind, bind, mret, M_ret, ret, throw,
    try_catch, undefined,
    emit, deref, store, allocate, deallocate, construct,
    shared_field, set_shared_field, new_shared, end_shared,
    weak_field, set_weak_field, new_weak, end_weak in *.

Ltac simpl_state :=
  cbn [blocks storage next_addr shared_ptrs weak_ptrs events
       log set_blocks set_storage set_next_addr set_shared_ptrs set_weak_ptrs
       kind pointer shared_count weak_count details.new_block
       details.with_pointer details.with_shared_count
       details.with_weak_count alloc_fails construct_throws final] in *.

Ltac msimpl :=
  repeat (progress (unfold_monad; simpl_state;
                    rewrite ?lookup_insert_eq, ?lookup_delete_eq)).

(** ** Facts about single member functions *)

(** [lock] on a handle whose block is live and not expired: the new
    [SharedPtr] stores the block pointer; no block is written. *)
Lemma lock_live (st : state) (h w b : nat) (blk : block) :
  weak_ptrs st !! w = Some (Some b) →
  blocks st !! b = Some blk →
  shared_count blk ≠ 0%Z →
  shared_ptrs st !! h = None →
  WeakPtr.lock h w st = Ok tt (set_shared_ptrs (insert h (Some b)) st).
Proof.
  intros Hw Hb Hc Hh. unfold WeakPtr.lock, SharedPtr.default_ctor,
    SharedPtr.block_ctor. msimpl. rewrite Hw. msimpl. rewrite Hb. msimpl.
  destruct (Z.eqb_spec (shared_count blk) 0); [done|]. by rewrite Hh.
Qed.

(** [lock] on an empty handle, or on a handle whose block has no strong
    owner left: the result is an empty [SharedPtr]. *)
Lemma lock_expired (st : state) (h w : nat) (cb : option nat) :
  weak_ptrs st !! w = Some cb →
  (cb = None ∨ ∃ b blk, cb = Some b ∧ blocks st !! b = Some blk
                        ∧ shared_count blk = 0%Z) →
  shared_ptrs st !! h = None →
  WeakPtr.lock h w st = Ok tt (set_shared_ptrs (insert h None) st).
Proof.
  intros Hw Hcb Hh. unfold WeakPtr.lock, SharedPtr.default_ctor,
    SharedPtr.block_ctor. msimpl. rewrite Hw. msimpl.
  destruct Hcb as [-> | (b & blk & -> & Hb & Hc)].
  - by rewrite Hh.
  - rewrite Hb. msimpl. rewrite Hc. simpl. by rewrite Hh.
Qed.

(** [expired] on a handle with a live block compares [shared_count] with
    zero. *)
Lemma expired_live (st : state) (w b : nat) (blk : block) :
  weak_ptrs st !! w = Some (Some b) →
  blocks st !! b = Some blk →
  WeakPtr.expired w st = Ok (shared_count blk =? 0)%Z st.
Proof.
  intros Hw Hb. unfold WeakPtr.expired. msimpl. rewrite Hw. msimpl.
  by rewrite Hb.
Qed.

(** [expired] on an empty handle dereferences [nullptr]. *)
Lemma expired_null (st : state) (w : nat) :
  weak_ptrs st !! w = Some None →
  WeakPtr.expired w st = UB st.
Proof.
  intros Hw. unfold WeakPtr.expired. msimpl. by rewrite Hw.
Qed.

(** The defaulted copy assignment and the move assignment of [WeakPtr]
    copy the member and do nothing else. *)
Lemma weak_assign_copies_member (st : state) (w other : nat)
    (cb cb_other : option nat) :
  weak_ptrs st !! w = Some cb →
  weak_ptrs st !! other = Some cb_other →
  WeakPtr.copy_assign w other st = Ok tt (set_weak_ptrs (insert w cb_other) st)
  ∧ WeakPtr.move_assign w other st
    = Ok tt (set_weak_ptrs (insert w cb_other) st).
Proof.
  intros Hw Ho. unfold WeakPtr.copy_assign, WeakPtr.move_assign. msimpl.
  rewrite Ho. msimpl. by rewrite Hw.
Qed.

(** A throwing [construct] in the three-argument constructor: the deleter
    runs on [ptr], the exception goes on, and the storage obtained from
    [allocate] stays allocated. *)
Lemma deleter_alloc_ctor_throwing (st : state) (h : nat) (ptr : option object)
    (d : nat) :
  SharedPtr.deleter_alloc_ctor inert h ptr d ConstructThrows st
  = Throw (log (EvDeleter (next_addr st) (CustomDeleter d) ptr)
            (log (EvAllocate (next_addr st))
              (set_next_addr (S (next_addr st))
                (set_storage (fun s => {[next_addr st]} ∪ s) st)))).
Proof. reflexivity. Qed.

(** A throwing [construct] in [AllocateShared]: the exception goes on and
    the storage obtained from [allocate] stays allocated. *)
Lemma AllocateShared_throwing (st : state) (h : nat) :
  AllocateShared h ConstructThrows st
  = Throw (log (EvAllocate (next_addr st))
            (set_next_addr (S (next_addr st))
              (set_storage (fun s => {[next_addr st]} ∪ s) st))).
Proof. reflexivity. Qed.

(** [AllocateShared] without a fault: a fresh [BlockVault] with
    [shared_count] 1, referenced by the returned handle. *)
Lemma AllocateShared_ok (st : state) (h : nat) :
  shared_ptrs st !! h = None →
  ∃ st', AllocateShared h NoFault st = Ok tt st'
         ∧ shared_ptrs st' !! h = Some (Some (next_addr st))
         ∧ blocks st' !! next_addr st
           = Some (details.new_block KBlockVault
                     (Some (ValueOf (next_addr st)))).
Proof.
  intros Hh. unfold AllocateShared, SharedPtr.block_ctor. msimpl. rewrite Hh.
  eexists; split; [reflexivity|]. by msimpl.
Qed.

(** ** The invariant is kept by every member function *)

Lemma Inv_mono (n m : nat) (st : state) : n ≤ m → Inv n st → Inv m st.
Proof.
  intros Hnm [H1 H2 H3 H4]. split; try done.
  intros b blk Hb. destruct (H1 b blk Hb) as [?|?]; [by left | right; lia].
Qed.

Lemma Inv_init : Inv 0 init.
Proof.
  split; simpl; try done.
  intros b [blk Hb]. by rewrite lookup_empty in Hb.
Qed.

Lemma final_bind {A B} (m : M A) (k : A → M B) (st : state) :
  final ((m ≫= k) st)
  = match m st with
    | Ok a st' => final (k a st')
    | Throw st' => st'
    | UB st' => st'
    | Terminate st' => st'
    end.
Proof. unfold mbind, M_bind, bind. by destruct (m st). Qed.

Lemma final_noexcept {A} (m : M A) (st : state) :
  final (noexcept m st) = final (m st).
Proof. unfold noexcept. by destruct (m st). Qed.

Lemma keeps_noexcept (n : nat) {A} (m : M A) : keeps n m → keeps n (noexcept m).
Proof. intros H st HI. rewrite final_noexcept. by apply H. Qed.

Lemma grows_noexcept (n : nat) {A} (m : M A) : grows n m → grows n (noexcept m).
Proof. intros H st HI. rewrite final_noexcept. by apply H. Qed.

Lemma keeps_grows (n : nat) {A} (m : M A) : keeps n m → grows n m.
Proof. intros H st HI. eapply Inv_mono; [|by apply H]. lia. Qed.

Lemma keeps_bind (n : nat) {A B} (m : M A) (k : A → M B) :
  keeps n m → (∀ a, keeps n (k a)) → keeps n (m ≫= k).
Proof.
  intros Hm Hk st HI. rewrite final_bind. specialize (Hm st HI).
  destruct (m st); try done. by apply Hk.
Qed.

Lemma keeps_ret (n : nat) {A} (a : A) : keeps n (mret a).
Proof. by intros st HI. Qed.

Lemma grows_bind_keeps (n : nat) {A B} (m : M A) (k : A → M B) :
  keeps n m → (∀ a, grows n (k a)) → grows n (m ≫= k).
Proof.
  intros Hm Hk st HI. rewrite final_bind. specialize (Hm st HI).
  destruct (m st); simpl in Hm;
    [by apply Hk | | | ]; (eapply Inv_mono; [|exact Hm]); lia.
Qed.

Lemma grows_bind_grows (n : nat) {A B} (m : M A) (k : A → M B) :
  grows n m → (∀ a, keeps (S n) (k a)) → grows n (m ≫= k).
Proof.
  intros Hm Hk st HI. rewrite final_bind. specialize (Hm st HI).
  destruct (m st); try done. by apply Hk.
Qed.

(** Handle primitives do not touch blocks, log or [next_addr]. *)
Lemma keeps_shared_field n h : keeps n (shared_field h).
Proof. intros st HI. unfold shared_field. by destruct (_ !! _). Qed.

Lemma keeps_weak_field n w : keeps n (weak_field w).
Proof. intros st HI. unfold weak_field. by destruct (_ !! _). Qed.

Lemma keeps_set_shared_field n h cb : keeps n (set_shared_field h cb).
Proof.
  intros st [H1 H2 H3 H4]. unfold set_shared_field.
  destruct (_ !! _); by split.
Qed.

Lemma keeps_set_weak_field n w cb : keeps n (set_weak_field w cb).
Proof.
  intros st [H1 H2 H3 H4]. unfold set_weak_field.
  destruct (_ !! _); by split.
Qed.

Lemma keeps_new_shared n h cb : keeps n (new_shared h cb).
Proof.
  intros st [H1 H2 H3 H4]. unfold new_shared. destruct (_ !! _); by split.
Qed.

Lemma keeps_new_weak n w cb : keeps n (new_weak w cb).
Proof.
  intros st [H1 H2 H3 H4]. unfold new_weak. destruct (_ !! _); by split.
Qed.

Lemma keeps_end_shared n h : keeps n (end_shared h).
Proof. intros st [H1 H2 H3 H4]. by split. Qed.

Lemma keeps_end_weak n w : keeps n (end_weak w).
Proof. intros st [H1 H2 H3 H4]. by split. Qed.

Lemma keeps_undefined n {A} : keeps n (@undefined A).
Proof. by intros st HI. Qed.

Lemma keeps_deref n b : keeps n (deref b).
Proof. intros st HI. unfold deref. by destruct (_ !! _). Qed.

(** The invariant under the ways a block primitive changes the state: an
    entry that is not a [release_weak] is logged, a live block is
    overwritten, a block is released. *)
Lemma Inv_log (n : nat) (e : event) (st : state) :
  is_weak_release e = false → Inv n st → Inv n (log e st).
Proof.
  intros He [H1 H2 H3 H4]. split; simpl_state.
  - intros b blk Hb. destruct (H1 b blk Hb); [left; by right | by right].
  - done.
  - intros b sc wc [-> | Hin]; [done | by eapply H3].
  - split; [by destruct e | done].
Qed.

Lemma Inv_store (n m : nat) (b : addr) (blk' : block) (st : state) :
  n ≤ m → Inv n st → is_Some (blocks st !! b) →
  In (EvReleaseShared b) (events st)
  ∨ (1 ≤ shared_count blk' ≤ Z.of_nat m)%Z →
  Inv m (set_blocks (insert b blk') st).
Proof.
  intros Hnm [H1 H2 H3 H4] Hb Hc. split; simpl_state.
  - intros b' blk2. destruct (decide (b = b')) as [<-|Hne].
    + rewrite lookup_insert_eq. by intros [= <-].
    + rewrite lookup_insert_ne by done. intros Hb'.
      destruct (H1 b' blk2 Hb'); [by left | right; lia].
  - intros b'. destruct (decide (b = b')) as [<-|Hne].
    + intros _. by apply H2.
    + rewrite lookup_insert_ne by done. apply H2.
  - intros b' sc wc Hin. destruct (H3 b' sc wc Hin) as [Hnone Hlt].
    split; [|done]. destruct (decide (b = b')) as [<-|Hne].
    + rewrite Hnone in Hb. by destruct Hb.
    + by rewrite lookup_insert_ne.
  - done.
Qed.

(** [release_shared] on a block that has just been written. *)
Lemma release_shared_after_store (b : addr) (blk : block) (st : state) :
  details.release_shared inert b (set_blocks (insert b blk) st)
  = Ok tt (set_blocks (insert b (details.with_pointer None blk))
            (log (object_release b blk) (log (EvReleaseShared b) st))).
Proof.
  unfold details.release_shared, object_release. msimpl.
  destruct (kind blk); msimpl; unfold set_blocks, log; simpl;
    by rewrite insert_insert_eq.
Qed.

Lemma release_shared_at (n : nat) (b : addr) (blk : block) (st : state) :
  Inv n st → is_Some (blocks st !! b) →
  Inv n (set_blocks (insert b (details.with_pointer None blk))
          (log (object_release b blk) (log (EvReleaseShared b) st))).
Proof.
  intros HI Hb. apply (Inv_store n n); [done | | done |].
  - apply Inv_log; [by unfold object_release; destruct (kind blk)|].
    by apply Inv_log.
  - left. right. by left.
Qed.

(** [release_weak] on a live block with both counters at zero, after
    [release_shared]. *)
Lemma release_weak_at (n : nat) (b : addr) (blk : block) (st : state) :
  Inv n st → blocks st !! b = Some blk →
  shared_count blk = 0%Z → weak_count blk = 0%Z →
  In (EvReleaseShared b) (events st) →
  Inv n (final (details.release_weak b st)).
Proof.
  intros [H1 H2 H3 H4] Hb Hsc Hwc Hrel. unfold details.release_weak. msimpl.
  rewrite Hb. msimpl. rewrite Hsc, Hwc.
  assert (Hfirst : ∀ sc wc, ¬ In (EvReleaseWeak b sc wc) (events st)).
  { intros sc wc Hin. destruct (H3 b sc wc Hin) as [Hnone _]. congruence. }
  assert (Hlt : b < next_addr st) by (apply H2; by eexists).
  destruct (kind blk); msimpl; split; simpl_state.
  - intros b' blk' Hb'. destruct (decide (b = b')) as [<-|Hne].
    + by rewrite lookup_delete_eq in Hb'.
    + rewrite lookup_delete_ne in Hb' by done.
      destruct (H1 b' blk' Hb'); [left; right; right; by right | by right].
  - intros b' [blk' Hb']. destruct (decide (b = b')) as [<-|Hne].
    + by rewrite lookup_delete_eq in Hb'.
    + rewrite lookup_delete_ne in Hb' by done. apply H2. by eexists.
  - intros b' sc wc [|[|[Heq|Hin]]]; try done.
    + injection Heq as <- <- <-. by rewrite lookup_delete_eq.
    + destruct (H3 b' sc wc Hin) as [Hnone ?]. split; [|done].
      destruct (decide (b = b')) as [<-|Hne];
        [apply lookup_delete_eq | by rewrite lookup_delete_ne].
  - repeat split; done.
  - intros b' blk' Hb'. destruct (decide (b = b')) as [<-|Hne].
    + by rewrite lookup_delete_eq in Hb'.
    + rewrite lookup_delete_ne in Hb' by done.
      destruct (H1 b' blk' Hb'); [left; right; by right | by right].
  - intros b' [blk' Hb']. destruct (decide (b = b')) as [<-|Hne].
    + by rewrite lookup_delete_eq in Hb'.
    + rewrite lookup_delete_ne in Hb' by done. apply H2. by eexists.
  - intros b' sc wc [|[Heq|Hin]]; try done.
    + injection Heq as <- <- <-. by rewrite lookup_delete_eq.
    + destruct (H3 b' sc wc Hin) as [Hnone ?]. split; [|done].
      destruct (decide (b = b')) as [<-|Hne];
        [apply lookup_delete_eq | by rewrite lookup_delete_ne].
  - repeat split; done.
Qed.

(** The four counter operations of [BaseControlBlock]. *)
Lemma keeps_increase_weak_count (n : nat) (b : addr) :
  keeps n (details.increase_weak_count b).
Proof.
  intros st HI. unfold details.increase_weak_count. rewrite final_bind.
  unfold deref. destruct (blocks st !! b) as [blk|] eqn:Hb; [|done].
  msimpl. apply (Inv_store n n); [done | done | by eexists |].
  simpl_state. by apply (inv_counts n st HI).
Qed.

Lemma grows_increase_shared_count (n : nat) (b : addr) :
  (Z.of_nat n + 1 < size_max)%Z →
  grows n (details.increase_shared_count b).
Proof.
  intros Hn st HI. unfold details.increase_shared_count. rewrite final_bind.
  unfold deref. destruct (blocks st !! b) as [blk|] eqn:Hb.
  - msimpl. apply (Inv_store n (S n)); [lia | done | by eexists |].
    simpl_state. destruct (inv_counts n st HI b blk Hb) as [?|Hc];
      [by left | right].
    unfold wrap. rewrite Z.mod_small by lia. lia.
  - simpl. eapply Inv_mono; [|exact HI]. lia.
Qed.

Lemma keeps_decrease_shared_counter (n : nat) (b : addr) :
  (Z.of_nat n < size_max)%Z →
  keeps n (details.decrease_shared_counter inert b).
Proof.
  intros Hn st HI. unfold details.decrease_shared_counter.
  rewrite final_bind. unfold deref at 1.
  destruct (blocks st !! b) as [blk|] eqn:Hb; [|done].
  rewrite final_bind. unfold store at 1. cbv beta.
  destruct (Z.eqb_spec (wrap (shared_count blk - 1)) 0) as [Hz|Hz].
  - rewrite final_bind, release_shared_after_store, final_bind.
    pose proof (release_shared_at n b
      (details.with_shared_count (wrap (shared_count blk - 1)) blk) st HI
      (ltac:(by eexists))) as HI2.
    unfold deref. simpl_state. rewrite lookup_insert_eq. simpl_state.
    destruct (Z.eqb_spec (weak_count blk) 0) as [Hw|Hw]; [|done].
    eapply release_weak_at; [exact HI2 | | | |]; simpl_state.
    + apply lookup_insert_eq.
    + done.
    + done.
    + right. by left.
  - simpl. apply (Inv_store n n); [done | done | by eexists |].
    simpl_state. destruct (inv_counts n st HI b blk Hb) as [?|Hc];
      [by left | right].
    unfold wrap in *. rewrite Z.mod_small in * by lia. lia.
Qed.

Lemma keeps_decrease_weak_counter (n : nat) (b : addr) :
  keeps n (details.decrease_weak_counter b).
Proof.
  intros st HI. unfold details.decrease_weak_counter.
  rewrite final_bind. unfold deref at 1.
  destruct (blocks st !! b) as [blk|] eqn:Hb; [|done].
  rewrite final_bind. unfold store at 1. cbv beta.
  assert (HI2 : Inv n (set_blocks
    (insert b (details.with_weak_count (wrap (weak_count blk - 1)) blk)) st)).
  { apply (Inv_store n n); [done | done | by eexists |].
    simpl_state. by apply (inv_counts n st HI). }
  destruct (Z.eqb_spec (shared_count blk) 0) as [Hs|Hs];
    destruct (Z.eqb_spec (wrap (weak_count blk - 1)) 0) as [Hw|Hw];
    simpl; try done.
  eapply release_weak_at; [exact HI2 | | | |]; simpl_state.
  - apply lookup_insert_eq.
  - done.
  - done.
  - destruct (inv_counts n st HI b blk Hb) as [?|Hc]; [done | lia].
Qed.

(** Creating a block. *)
Lemma Inv_set_shared_ptrs (n : nat) f (st : state) :
  Inv n st → Inv n (set_shared_ptrs f st).
Proof. intros [H1 H2 H3 H4]. by split. Qed.

Lemma Inv_allocated (n : nat) f (st : state) :
  Inv n st →
  Inv n (log (EvAllocate (next_addr st))
          (set_next_addr (S (next_addr st)) (set_storage f st))).
Proof.
  intros [H1 H2 H3 H4]. split; simpl_state.
  - intros b blk Hb. destruct (H1 b blk Hb); [left; by right | by right].
  - intros b Hb. specialize (H2 b Hb). lia.
  - intros b sc wc [|Hin]; [done|].
    destruct (H3 b sc wc Hin). split; [done | lia].
  - done.
Qed.

Lemma Inv_new_block (n : nat) f (blk : block) (st : state) :
  shared_count blk = 1%Z →
  Inv n st →
  Inv (S n) (set_blocks (insert (next_addr st) blk)
              (log (EvAllocate (next_addr st))
                (set_next_addr (S (next_addr st)) (set_storage f st)))).
Proof.
  intros Hsc [H1 H2 H3 H4]. split; simpl_state.
  - intros b blk'. destruct (decide (next_addr st = b)) as [<-|Hne].
    + rewrite lookup_insert_eq. intros [= <-]. right. lia.
    + rewrite lookup_insert_ne by done. intros Hb.
      destruct (H1 b blk' Hb); [left; by right | right; lia].
  - intros b. destruct (decide (next_addr st = b)) as [<-|Hne]; [lia|].
    rewrite lookup_insert_ne by done. intros Hb. specialize (H2 b Hb). lia.
  - intros b sc wc [|Hin]; [done|].
    destruct (H3 b sc wc Hin) as [Hnone Hlt]. split; [|lia].
    rewrite lookup_insert_ne by lia. done.
  - done.
Qed.

Lemma Inv_deallocate_fresh (n : nat) f g (st : state) :
  Inv n st →
  Inv n (log (EvDeallocate (next_addr st))
          (set_storage g
            (set_blocks (delete (next_addr st))
              (log (EvAllocate (next_addr st))
                (set_next_addr (S (next_addr st)) (set_storage f st)))))).
Proof.
  intros HI. pose proof (Inv_allocated n f st HI) as [H1 H2 H3 H4].
  assert (Hnone : blocks st !! next_addr st = None).
  { destruct (blocks st !! next_addr st) eqn:Hb; [|done].
    pose proof (inv_fresh n st HI (next_addr st) (ltac:(by eexists))). lia. }
  split; simpl_state; rewrite ?delete_id by done.
  - intros b blk Hb. destruct (H1 b blk Hb); [left; by right | by right].
  - done.
  - intros b sc wc [|Hin]; [done|]. by eapply H3.
  - done.
Qed.

(** The cast in the converting overloads gives null whenever it returns. *)
Lemma keeps_dynamic_cast (n : nat) {A} (cb : option nat)
    (k : option nat → M A) :
  keeps n (k None) → keeps n (dynamic_cast cb ≫= k).
Proof.
  intros Hk st HI. rewrite final_bind. unfold dynamic_cast.
  destruct cb as [b|]; [|by apply Hk].
  unfold mbind, M_bind, bind, deref.
  destruct (blocks st !! b); [by apply Hk | done].
Qed.

Ltac keeps_auto :=
  repeat first
    [ apply keeps_ret
    | apply keeps_noexcept
    | apply keeps_dynamic_cast; cbv beta iota
    | apply keeps_shared_field
    | apply keeps_weak_field
    | apply keeps_set_shared_field
    | apply keeps_set_weak_field
    | apply keeps_new_shared
    | apply keeps_new_weak
    | apply keeps_end_shared
    | apply keeps_end_weak
    | apply keeps_undefined
    | apply keeps_deref
    | apply keeps_increase_weak_count
    | apply keeps_decrease_weak_counter
    | apply keeps_decrease_shared_counter; lia
    | apply keeps_bind; [|intros ?]
    | match goal with
      | |- keeps _ (match ?x with _ => _ end) => destruct x
      end ].

Lemma grows_raw_ctor n h ptr oom : grows n (SharedPtr.raw_ctor h ptr oom).
Proof.
  intros st HI. unfold SharedPtr.raw_ctor. destruct oom; msimpl.
  - eapply Inv_mono; [|exact HI]. lia.
  - destruct (shared_ptrs st !! h); simpl_state;
      try apply Inv_set_shared_ptrs; by apply Inv_new_block.
Qed.

Lemma grows_deleter_ctor n h ptr d f :
  grows n (SharedPtr.deleter_ctor h ptr d f).
Proof.
  intros st HI. unfold SharedPtr.deleter_ctor. destruct f; msimpl.
  - destruct (shared_ptrs st !! h); simpl_state;
      try apply Inv_set_shared_ptrs; by apply Inv_new_block.
  - eapply Inv_mono; [|exact HI]. lia.
  - eapply Inv_mono; [|by apply Inv_deallocate_fresh]. lia.
Qed.

Lemma grows_deleter_alloc_ctor n h ptr d f :
  grows n (SharedPtr.deleter_alloc_ctor inert h ptr d f).
Proof.
  intros st HI. unfold SharedPtr.deleter_alloc_ctor. destruct f; msimpl.
  - destruct (shared_ptrs st !! h); simpl_state;
      try apply Inv_set_shared_ptrs; by apply Inv_new_block.
  - eapply Inv_mono; [|exact HI]. lia.
  - eapply Inv_mono; [|apply Inv_log; [done | by apply Inv_allocated]]. lia.
Qed.

Lemma grows_AllocateShared n h f : grows n (AllocateShared h f).
Proof.
  intros st HI. unfold AllocateShared, SharedPtr.block_ctor.
  destruct f; msimpl.
  - destruct (shared_ptrs st !! h); simpl_state;
      try apply Inv_set_shared_ptrs; by apply Inv_new_block.
  - eapply Inv_mono; [|exact HI]. lia.
  - eapply Inv_mono; [|by apply Inv_allocated]. lia.
Qed.

Lemma grows_copy_ctor n h other :
  (Z.of_nat n + 1 < size_max)%Z → grows n (SharedPtr.copy_ctor h other).
Proof.
  intros Hn. unfold SharedPtr.copy_ctor.
  apply grows_bind_keeps; [keeps_auto | intros cb].
  apply grows_bind_keeps; [keeps_auto | intros _].
  destruct cb as [b|]; [|apply keeps_grows; keeps_auto].
  apply grows_bind_keeps; [keeps_auto | intros blk].
  destruct (pointer blk); [|apply keeps_grows; keeps_auto].
  apply grows_bind_grows; [by apply grows_increase_shared_count|].
  intros _. keeps_auto.
Qed.

Lemma grows_copy_assign n h other :
  (Z.of_nat n + 1 < size_max)%Z → grows n (SharedPtr.copy_assign inert h other).
Proof.
  intros Hn. unfold SharedPtr.copy_assign.
  apply grows_bind_keeps; [keeps_auto | intros cb].
  case_decide; [apply keeps_grows; keeps_auto|].
  apply grows_bind_keeps; [keeps_auto | intros _].
  apply grows_bind_keeps; [keeps_auto | intros cb_other].
  apply grows_bind_keeps; [keeps_auto | intros _].
  destruct cb_other as [b|]; [|apply keeps_grows; keeps_auto].
  apply grows_bind_grows; [by apply grows_increase_shared_count|].
  intros _. keeps_auto.
Qed.

(** Every public operation takes the invariant one level up. *)
Lemma grows_exec (n : nat) (o : op) :
  (Z.of_nat n + 1 < size_max)%Z → grows n (exec o).
Proof.
  intros Hn. destruct o; simpl;
    try (by apply grows_raw_ctor);
    try (by apply grows_deleter_ctor);
    try (by apply grows_deleter_alloc_ctor);
    try (by apply grows_AllocateShared);
    try (by apply grows_copy_ctor);
    try (by apply grows_copy_assign);
    apply keeps_grows;
    unfold SharedPtr.default_ctor, SharedPtr.nullptr_ctor, SharedPtr.move_ctor,
      SharedPtr.converting_copy_ctor, SharedPtr.converting_move_ctor,
      SharedPtr.converting_copy_assign, SharedPtr.converting_move_assign,
      SharedPtr.move_assign, SharedPtr.reset, SharedPtr.use_count,
      SharedPtr.get, SharedPtr.dtor, WeakPtr.default_ctor,
      WeakPtr.from_shared, WeakPtr.copy_ctor, WeakPtr.move_ctor,
      WeakPtr.copy_assign, WeakPtr.move_assign, WeakPtr.expired,
      WeakPtr.lock, WeakPtr.dtor, SharedPtr.default_ctor,
      SharedPtr.block_ctor;
    keeps_auto.
Qed.

Lemma run_Inv (ops : list op) :
  ∀ (n : nat) (st : state),
    (Z.of_nat (n + length ops) < size_max)%Z →
    Inv n st → Inv (n + length ops) (snd (run ops st)).
Proof.
  induction ops as [|o rest IH]; intros n st Hlen HI; simpl.
  - by rewrite Nat.add_0_r.
  - simpl in Hlen.
    assert (HS : Inv (S n) (final (exec o st))) by (apply grows_exec; [lia|done]).
    replace (n + S (length rest)) with (S n + length rest) by lia.
    destruct (exec o st) as [[] st'|st'|st'|st']; simpl in *.
    + apply (IH (S n)); [lia | done].
    + apply (IH (S n)); [lia | done].
    + eapply Inv_mono; [|exact HS]. lia.
    + eapply Inv_mono; [|exact HS]. lia.
Qed.

(** ** The program of main.cpp *)

(** main.cpp runs to its end; the deleter has run once, on the object it
    was given, and every allocation has been given back (the checks main.cpp
    prints). *)
Lemma main_program_balanced :
  fst (run main_program init) = Finished
  ∧ trace (after main_program)
    = [EvAllocate 1; EvAllocate 2;
       EvReleaseShared 1; EvDeleter 1 (CustomDeleter 0) obj7;
       EvReleaseWeak 1 0 0; EvDestroyBlock 1; EvDeallocate 1;
       EvReleaseShared 2; EvDestroyValue 2;
       EvReleaseWeak 2 0 0; EvDeallocate 2]
  ∧ storage (after main_program) = ∅
  ∧ blocks (after main_program) = ∅.
Proof. vm_compute. repeat split; reflexivity. Qed.

(** ** The claims *)

(** C1.  [lock] on a weak handle whose block has one strong owner returns a
    [SharedPtr] that shares the block, but the block's [shared_count] is 1
    before the call and still 1 after it: the private constructor that
    [lock] uses stores the pointer without [increase_shared_count].  Two
    strong handles then stand behind a count of one, and destroying the
    locked handle runs the deleter while the first handle still refers to
    the object. *)
Theorem lock_keeps_shared_count :
  count_of one_strong_one_weak 1 = Some 1%Z
  ∧ ∃ st', WeakPtr.lock 2 1 one_strong_one_weak = Ok tt st'
           ∧ shared_ptrs st' !! 1 = Some (Some 1)
           ∧ shared_ptrs st' !! 2 = Some (Some 1)
           ∧ count_of st' 1 = Some 1%Z
           ∧ trace (snd (run [SDestroy 2] st'))
             = [EvAllocate 1; EvReleaseShared 1;
                EvDeleter 1 DefaultDelete obj7].
Proof.
  split; [reflexivity|].
  exists (final (WeakPtr.lock 2 1 one_strong_one_weak)).
  vm_compute. repeat split; reflexivity.
Qed.

(** C2.  When [construct] throws in [SharedPtr(ptr, deleter, alloc)], the
    deleter runs once on [ptr] and the exception propagates with no handle
    and no control block in existence, but the storage obtained from
    [allocate] is never passed to [deallocate]: it is still allocated when
    the exception reaches the caller. *)
Theorem deleter_alloc_ctor_keeps_storage :
  ∃ st', SharedPtr.deleter_alloc_ctor inert 1 obj7 0 ConstructThrows init = Throw st'
         ∧ trace st' = [EvAllocate 1; EvDeleter 1 (CustomDeleter 0) obj7]
         ∧ storage st' = {[1]}
         ∧ blocks st' = ∅
         ∧ shared_ptrs st' = ∅.
Proof.
  eexists. split; [apply deleter_alloc_ctor_throwing|].
  vm_compute. repeat split; reflexivity.
Qed.

(** C3.  When the constructor of the managed object throws in
    [AllocateShared], the exception propagates with no handle and no
    control block in existence, but nothing calls [deallocate]: the storage
    of the block is still allocated when the exception reaches the caller.
    Without a fault the returned handle refers to a block whose
    [shared_count] is 1. *)
Theorem AllocateShared_keeps_storage :
  (∃ st', AllocateShared 1 ConstructThrows init = Throw st'
          ∧ trace st' = [EvAllocate 1]
          ∧ storage st' = {[1]}
          ∧ blocks st' = ∅
          ∧ shared_ptrs st' = ∅)
  ∧ (∃ st', AllocateShared 1 NoFault init = Ok tt st'
            ∧ shared_ptrs st' !! 1 = Some (Some 1)
            ∧ count_of st' 1 = Some 1%Z).
Proof.
  split.
  - eexists. split; [apply AllocateShared_throwing|].
    vm_compute. repeat split; reflexivity.
  - exists (final (AllocateShared 1 NoFault init)).
    vm_compute. repeat split; reflexivity.
Qed.

(** C4.  [WeakPtr] copy assignment is defaulted and move assignment copies
    the raw member.  With [w1] on block 1 and [w2] on block 2, [w1 = w2]
    makes [w1] refer to block 2 while [weak_count] stays 1 on block 1 (no
    decrement) and 1 on block 2 (no increment); [w1 = std::move(w2)] does
    the same and leaves [w2] referring to block 2 instead of null. *)
Theorem weak_assign_ignores_counts :
  weak_ptrs two_blocks !! 1 = Some (Some 1)
  ∧ weak_ptrs two_blocks !! 2 = Some (Some 2)
  ∧ weak_count_of two_blocks 1 = Some 1%Z
  ∧ weak_count_of two_blocks 2 = Some 1%Z
  ∧ (∃ st', WeakPtr.copy_assign 1 2 two_blocks = Ok tt st'
            ∧ weak_ptrs st' !! 1 = Some (Some 2)
            ∧ weak_count_of st' 1 = Some 1%Z
            ∧ weak_count_of st' 2 = Some 1%Z)
  ∧ (∃ st', WeakPtr.move_assign 1 2 two_blocks = Ok tt st'
            ∧ weak_ptrs st' !! 1 = Some (Some 2)
            ∧ weak_ptrs st' !! 2 = Some (Some 2)
            ∧ weak_count_of st' 1 = Some 1%Z
            ∧ weak_count_of st' 2 = Some 1%Z).
Proof.
  repeat split; try reflexivity.
  - exists (final (WeakPtr.copy_assign 1 2 two_blocks)).
    vm_compute. repeat split; reflexivity.
  - exists (final (WeakPtr.move_assign 1 2 two_blocks)).
    vm_compute. repeat split; reflexivity.
Qed.

(** C5.  [expired] on a default-constructed [WeakPtr] reads
    [control_block_->shared_count] through a null pointer: the call has
    undefined behaviour and returns no boolean. *)
Theorem expired_on_empty_is_undefined :
  weak_ptrs (after [WDefault 1]) !! 1 = Some None
  ∧ WeakPtr.expired 1 (after [WDefault 1]) = UB (after [WDefault 1]).
Proof. split; reflexivity. Qed.

(** C6.  The managed object holds the only [WeakPtr] on its own block (an
    object that observes itself, the back-pointer of a child to its
    parent), and the last [SharedPtr] on the block is destroyed:
    [decrease_shared_counter] brings [shared_count] to 0 and calls
    [release_shared], the deleter destroys the object and with it the
    [WeakPtr], whose destructor finds both counters at 0 and calls
    [release_weak].  So [release_weak] runs, and gives the block back,
    while [release_shared] has not returned; what [release_shared] does
    next, the write [this->pointer = nullptr], goes through a dangling
    [this], and neither [release_shared] nor the destructor of the
    [SharedPtr] completes.  [st0] is the state in which
    [decrease_shared_counter] calls [release_shared]; the log is given
    newest entry first. *)
Theorem release_weak_inside_release_shared (st : state) (h w : handle)
    (b : addr) (blk : block)
    (Hh : shared_ptrs st !! h = Some (Some b))
    (Hw : weak_ptrs st !! w = Some (Some b))
    (Hb : blocks st !! b = Some blk)
    (Hsc : shared_count blk = 1%Z)
    (Hwc : weak_count blk = 1%Z) :
  let st0 := set_blocks (insert b (details.with_shared_count 0 blk)) st in
  ∃ st',
    details.release_shared (WeakPtr.dtor w) b st0 = UB st'
    ∧ SharedPtr.dtor (WeakPtr.dtor w) h st = UB st'
    ∧ events st'
      = EvDeallocate b
        :: block_destroy b blk
        ++ [EvReleaseWeak b 0 0; object_release b blk; EvReleaseShared b]
        ++ events st
    ∧ blocks st' !! b = None
    ∧ shared_ptrs st' !! h = Some (Some b)
    ∧ weak_ptrs st' !! w = None.
Proof.
  intros st0. destruct blk as [k p sc wc]. simpl in Hsc, Hwc. subst sc wc.
  assert (Hrel : ∃ st',
    details.release_shared (WeakPtr.dtor w) b st0 = UB st'
    ∧ events st'
      = EvDeallocate b
        :: block_destroy b (Block k p 1 1)
        ++ [EvReleaseWeak b 0 0; object_release b (Block k p 1 1);
            EvReleaseShared b]
        ++ events st
    ∧ blocks st' !! b = None
    ∧ shared_ptrs st' = shared_ptrs st
    ∧ weak_ptrs st' !! w = None).
  { unfold details.release_shared, WeakPtr.dtor,
      details.decrease_weak_counter, details.release_weak, st0,
      block_destroy, object_release.
    msimpl. destruct k as [d|]; msimpl; rewrite Hw; msimpl;
      change (wrap (1 - 1)) with 0%Z; change (0 =? 0)%Z with true;
      cbn [andb]; msimpl;
      (eexists; split; [reflexivity|]); simpl_state;
      by rewrite ?lookup_delete_eq. }
  destruct Hrel as (st' & Hrs & Hev & Hgone & Hsp & Hwp).
  exists st'. split; [done|]. split; [|by rewrite Hsp].
  unfold SharedPtr.dtor, details.decrease_shared_counter.
  unfold noexcept, mbind, M_bind, bind, shared_field, deref, store.
  rewrite Hh, Hb. cbn [shared_count]. change (wrap (1 - 1)) with 0%Z.
  change (0 =? 0)%Z with true. cbv beta iota. fold st0.
  by rewrite Hrs.
Qed.

Lemma release_weak_inside_release_shared_witness :
  shared_ptrs one_strong_one_weak !! 1 = Some (Some 1)
  ∧ weak_ptrs one_strong_one_weak !! 1 = Some (Some 1)
  ∧ blocks one_strong_one_weak !! 1
    = Some (Block (KControlBlock DefaultDelete) obj7 1 1)
  ∧ ∃ st',
      details.release_shared (WeakPtr.dtor 1) 1
        (set_blocks
           (insert 1 (Block (KControlBlock DefaultDelete) obj7 0 1))
           one_strong_one_weak)
      = UB st'
      ∧ SharedPtr.dtor (WeakPtr.dtor 1) 1 one_strong_one_weak = UB st'
      ∧ events st'
        = [EvDeallocate 1; EvDestroyBlock 1; EvReleaseWeak 1 0 0;
           EvDeleter 1 DefaultDelete obj7; EvReleaseShared 1; EvAllocate 1]
      ∧ blocks st' !! 1 = None
      ∧ shared_ptrs st' !! 1 = Some (Some 1)
      ∧ weak_ptrs st' !! 1 = None.
Proof.
  split; [vm_compute; reflexivity|]. split; [vm_compute; reflexivity|].
  split; [vm_compute; reflexivity|].
  apply (release_weak_inside_release_shared one_strong_one_weak 1 1 1
           (Block (KControlBlock DefaultDelete) obj7 1 1));
    vm_compute; reflexivity.
Defined.

(** The same between two objects: a parent whose member [child] owns the
    child, a child whose member [parent] observes the parent.  The
    destructor of the last [SharedPtr] on the parent destroys the parent,
    its member [child], the child and the member [parent] of the child,
    which deallocates the block of the parent under [release_shared]. *)
Lemma parent_child_is_undefined :
  fst (run parent_child_program init) = Finished
  ∧ ∃ st',
      SharedPtr.dtor (SharedPtr.dtor (WeakPtr.dtor 1) 3) 1
        (after parent_child_program)
      = UB st'
      ∧ trace st'
        = [EvAllocate 1; EvAllocate 2;
           EvReleaseShared 1; EvDeleter 1 DefaultDelete obj7;
           EvReleaseShared 2; EvDeleter 2 DefaultDelete obj8;
           EvReleaseWeak 1 0 0; EvDestroyBlock 1; EvDeallocate 1;
           EvReleaseWeak 2 0 0; EvDestroyBlock 2; EvDeallocate 2]
      ∧ blocks st' = ∅
      ∧ shared_ptrs st' !! 1 = Some (Some 1).
Proof.
  split; [reflexivity|]. eexists. split; [vm_compute; reflexivity|].
  split; [reflexivity|]. split; reflexivity.
Qed.

(** C7.  Assigning a [SharedPtr] to itself, by copy or by move, returns
    with the program state exactly as it was: [use_count] and [get] give
    what they gave before, and the log has no new [release_shared] or
    [release_weak].  This holds whatever the managed object is: its
    destruction [del] is not run. *)
Theorem self_assignment_is_noop (del : M unit) (st : state) (h : nat)
    (cb : option nat)
    (Hlive : shared_ptrs st !! h = Some cb) :
  leaves_unchanged (SharedPtr.copy_assign del h h) h st
  ∧ leaves_unchanged (SharedPtr.move_assign del h h) h st.
Proof.
  assert (SharedPtr.copy_assign del h h st = Ok tt st
          ∧ SharedPtr.move_assign del h h st = Ok tt st) as [Hc Hm].
  { unfold SharedPtr.copy_assign, SharedPtr.move_assign; msimpl.
    repeat (rewrite Hlive; msimpl). by case_decide. }
  split; exists st; done.
Qed.

Lemma self_assignment_is_noop_witness :
  shared_ptrs two_strong !! 1 = Some (Some 1)
  ∧ leaves_unchanged (SharedPtr.copy_assign inert 1 1) 1 two_strong
  ∧ leaves_unchanged (SharedPtr.move_assign inert 1 1) 1 two_strong.
Proof.
  split; [reflexivity|].
  apply (self_assignment_is_noop inert two_strong 1 (Some 1)). reflexivity.
Defined.

(** C8.  A [SharedPtr] built from a null raw pointer with a custom deleter,
    then copy constructed: the copy constructor skips
    [increase_shared_count] because the block's [pointer] is null, so two
    handles stand behind a [shared_count] of 1.
    - With no weak handle, destroying the copy takes the count to 0, runs
      the deleter and frees the block while the first handle still refers
      to it; destroying the first handle then reads a freed block.
    - With a weak handle that keeps the block alive, destroying the copy
      runs the deleter, a copy assignment from the first handle takes the
      count back to 1, and destroying that handle runs the deleter a second
      time: every strong handle is destroyed in defined behaviour and the
      deleter has run twice. *)
Theorem null_pointer_copy_breaks_count :
  count_of (after [SDeleter 1 None 0 NoFault; SCopy 2 1]) 1 = Some 1%Z
  ∧ trace null_copy_destroyed
    = [EvAllocate 1; EvReleaseShared 1; EvDeleter 1 (CustomDeleter 0) None;
       EvReleaseWeak 1 0 0; EvDestroyBlock 1; EvDeallocate 1]
  ∧ shared_ptrs null_copy_destroyed !! 1 = Some (Some 1)
  ∧ blocks null_copy_destroyed !! 1 = None
  ∧ SharedPtr.dtor inert 1 null_copy_destroyed = UB null_copy_destroyed
  ∧ fst (run null_copy_program init) = Finished
  ∧ shared_ptrs (after null_copy_program) = ∅
  ∧ trace (after null_copy_program)
    = [EvAllocate 1;
       EvReleaseShared 1; EvDeleter 1 (CustomDeleter 0) None;
       EvReleaseShared 1; EvDeleter 1 (CustomDeleter 0) None].
Proof. vm_compute. repeat split; reflexivity. Qed.

(** C9, as stated, fails: with [a] and [b] two handles on one block whose
    [shared_count] is 2, [b = std::move(a)] first releases the block [b]
    held, which is the block [a] refers to, so its [shared_count] goes
    from 2 to 1. *)
Lemma move_assign_same_block_changes_count :
  shared_ptrs two_strong !! 1 = Some (Some 1)
  ∧ shared_ptrs two_strong !! 2 = Some (Some 1)
  ∧ count_of two_strong 1 = Some 2%Z
  ∧ ∃ st', SharedPtr.move_assign inert 2 1 two_strong = Ok tt st'
           ∧ count_of st' 1 = Some 1%Z
           ∧ count_of st' 1 ≠ count_of two_strong 1.
Proof.
  repeat split; try reflexivity.
  exists (final (SharedPtr.move_assign inert 2 1 two_strong)).
  vm_compute. repeat split; try reflexivity. discriminate.
Qed.

(** What [decrease_shared_counter] does on a live block when the
    destruction of the managed object, where it is run, leaves the block
    alone: it returns, the handles and the other blocks that the
    destruction leaves alone are as they were, and the [shared_count] of
    the block, where the block is still there, is one less. *)
Lemma decrease_shared_counter_spares (del : M unit) (hs : list handle)
    (cbs : list (option nat)) (y : addr) (st : state) (blk : block) :
  (wrap (shared_count blk - 1) = 0%Z →
   spares del (release_point y blk st) hs cbs) →
  In (Some y) cbs → blocks st !! y = Some blk →
  ∃ st', details.decrease_shared_counter del y st = Ok tt st'
         ∧ (∀ h, In h hs → shared_ptrs st' !! h = shared_ptrs st !! h)
         ∧ (∀ x, In (Some x) cbs → x ≠ y → blocks st' !! x = blocks st !! x)
         ∧ (∀ blk', blocks st' !! y = Some blk' →
                    shared_count blk' = wrap (shared_count blk - 1)).
Proof.
  intros Hdel Hy Hb. destruct blk as [k p sc wc].
  unfold details.decrease_shared_counter, details.release_shared,
    details.release_weak.
  msimpl. rewrite Hb. msimpl.
  destruct (Z.eqb_spec (wrap (sc - 1)) 0) as [H0|H0].
  - destruct (Hdel H0) as (s' & Hd & Hh & Hx).
    unfold release_point, object_release in Hd, Hh, Hx. simpl_state.
    rewrite H0.
    assert (Hy' : blocks s' !! y = Some (Block k p 0 wc)).
    { rewrite (Hx y Hy). apply lookup_insert_eq. }
    destruct k as [d|]; msimpl; rewrite Hd; msimpl; rewrite Hy'; msimpl;
      (destruct (wc =? 0)%Z; msimpl;
       (eexists; split; [reflexivity|]); simpl_state;
       (split; [intros h Hin; by rewrite (Hh h Hin)|]);
       (split;
        [intros x Hin Hne;
         rewrite ?lookup_delete_ne, ?lookup_insert_ne by done;
         rewrite (Hx x Hin); by rewrite lookup_insert_ne
        |intros blk'; rewrite ?lookup_delete_eq, ?lookup_insert_eq;
         by intros [= <-]])).
  - msimpl. eexists; split; [reflexivity|]. simpl_state.
    split; [done|]. split.
    + intros x _ Hne. by rewrite lookup_insert_ne.
    + intros blk'. rewrite lookup_insert_eq. by intros [= <-].
Qed.

Lemma inert_spares (st : state) (hs : list handle) (cbs : list (option nat)) :
  spares inert st hs cbs.
Proof. by exists st. Qed.

(** C9, amended.  After a move construction from [a], or a move assignment
    from [a] into another handle [b] that is empty or holds a live block,
    [a] is empty ([get] is null and [use_count] is 0), provided that the
    destruction of the object [b] gives up, where [b] was its last owner
    and in the state in which [release_shared] runs it, returns normally
    and leaves alone the two handles and the blocks they hold.  A move
    construction writes no block at all.  A move assignment leaves the
    block [a] referred to as it was whenever [b] did not refer to that same
    block; when it did, [b] gives up its own reference first and the
    [shared_count] of that block is one less. *)
Theorem move_leaves_source_empty (del : M unit) (st : state) (a b : nat)
    (cb_a : option nat)
    (Ha : shared_ptrs st !! a = Some cb_a) (Hab : a ≠ b) :
  (shared_ptrs st !! b = None → move_ctor_spec st a b)
  ∧ (∀ cb_b, shared_ptrs st !! b = Some cb_b → null_or_live st cb_b →
             (∀ y blk, cb_b = Some y → blocks st !! y = Some blk →
                       wrap (shared_count blk - 1) = 0%Z →
                       spares del (release_point y blk st) [a; b]
                         [cb_a; cb_b]) →
             move_assign_spec del st a b cb_a cb_b).
Proof.
  split.
  - intros Hb. unfold move_ctor_spec, SharedPtr.move_ctor. msimpl.
    rewrite Ha. msimpl.
    rewrite Hb. msimpl. rewrite lookup_insert_ne by done. rewrite Ha.
    eexists; split; [reflexivity|]. split; [|done].
    unfold source_empty, SharedPtr.get, SharedPtr.use_count. msimpl. done.
  - intros cb_b Hb Hlive Hdel.
    assert (∃ st1, (match cb_b with
                    | None => mret tt
                    | Some y => details.decrease_shared_counter del y
                    end) st = Ok tt st1
                   ∧ shared_ptrs st1 !! a = Some cb_a
                   ∧ shared_ptrs st1 !! b = Some cb_b
                   ∧ (∀ x, cb_a = Some x → cb_b ≠ Some x →
                           blocks st1 !! x = blocks st !! x)
                   ∧ (∀ x blk blk', cb_b = Some x →
                        blocks st !! x = Some blk →
                        blocks st1 !! x = Some blk' →
                        shared_count blk' = wrap (shared_count blk - 1)))
      as (st1 & Hdec & Ha1 & Hb1 & Hblk & Hcnt).
    { destruct cb_b as [y|].
      - destruct Hlive as [blk Hy].
        destruct (decrease_shared_counter_spares del [a; b]
                    [cb_a; Some y] y st blk) as (st1 & -> & Hh & Hx & Hc);
          [by apply Hdel | by right; left | done |].
        exists st1. split; [done|].
        split; [rewrite Hh, Ha; [done | by left]|].
        split; [rewrite Hh, Hb; [done | by right; left]|]. split.
        + intros x -> Hne. apply Hx; [by left | congruence].
        + intros x blk0 blk' [= <-] Hx0 Hx'. rewrite Hy in Hx0.
          injection Hx0 as <-. by apply Hc.
      - exists st. done. }
    unfold move_assign_spec, SharedPtr.move_assign. msimpl.
    rewrite Hb. rewrite decide_False by congruence.
    unfold mbind, M_bind, bind, mret, M_ret, ret in Hdec. rewrite Hdec.
    rewrite Ha1, Hb1. msimpl. rewrite lookup_insert_ne by congruence.
    rewrite Ha1. eexists; split; [reflexivity|]. split.
    + unfold source_empty, SharedPtr.get, SharedPtr.use_count. msimpl. done.
    + destruct cb_a as [x|]; [|done]. simpl_state. case_decide.
      * intros blk blk'. by apply Hcnt.
      * by apply Hblk.
Qed.

Lemma move_leaves_source_empty_witness :
  (shared_ptrs (after object_and_node_program) !! 1 = Some (Some 1)
   ∧ 1 ≠ 2
   ∧ shared_ptrs (after object_and_node_program) !! 2 = Some (Some 2)
   ∧ null_or_live (after object_and_node_program) (Some 2)
   ∧ (∀ y blk, Some 2 = Some y →
               blocks (after object_and_node_program) !! y = Some blk →
               wrap (shared_count blk - 1) = 0%Z →
               spares (SharedPtr.dtor inert 3)
                 (release_point y blk (after object_and_node_program))
                 [1; 2] [Some 1; Some 2])
   ∧ move_assign_spec (SharedPtr.dtor inert 3)
       (after object_and_node_program) 1 2 (Some 1) (Some 2))
  ∧ (1 ≠ 3
     ∧ shared_ptrs two_blocks !! 1 = Some (Some 1)
     ∧ shared_ptrs two_blocks !! 3 = None
     ∧ move_ctor_spec two_blocks 1 3).
Proof.
  assert (Ha : shared_ptrs (after object_and_node_program) !! 1
               = Some (Some 1)) by reflexivity.
  assert (H12 : 1 ≠ 2) by lia.
  assert (H13 : 1 ≠ 3) by lia.
  assert (Hb : shared_ptrs (after object_and_node_program) !! 2
               = Some (Some 2)) by reflexivity.
  assert (Hl : null_or_live (after object_and_node_program) (Some 2))
    by (vm_compute; eauto).
  assert (Hd : ∀ y blk, Some 2 = Some y →
                 blocks (after object_and_node_program) !! y = Some blk →
                 wrap (shared_count blk - 1) = 0%Z →
                 spares (SharedPtr.dtor inert 3)
                   (release_point y blk (after object_and_node_program))
                   [1; 2] [Some 1; Some 2]).
  { intros y blk [= <-] Hblk _.
    assert (Hk : blocks (after object_and_node_program) !! 2
                 = Some (Block (KControlBlock DefaultDelete) obj8 1 0))
      by (vm_compute; reflexivity).
    rewrite Hk in Hblk. injection Hblk as <-.
    eexists. split; [vm_compute; reflexivity|]. split.
    - intros h [<-|[<-|[]]]; vm_compute; reflexivity.
    - intros x [[= <-]|[[= <-]|[]]]; vm_compute; reflexivity. }
  assert (Ha' : shared_ptrs two_blocks !! 1 = Some (Some 1)) by reflexivity.
  assert (Hf : shared_ptrs two_blocks !! 3 = None) by reflexivity.
  repeat split; try done.
  - exact (proj2 (move_leaves_source_empty (SharedPtr.dtor inert 3)
                    (after object_and_node_program) 1 2 (Some 1) Ha H12)
             (Some 2) Hb Hl Hd).
  - exact (proj1 (move_leaves_source_empty inert two_blocks 1 3 (Some 1)
                    Ha' H13) Hf).
Defined.

(** C10.  [SharedPtr(Y* ptr)] with a null [ptr] allocates a control block:
    the handle has [get() == nullptr] and [use_count() == 1].  A
    default-constructed handle and one constructed from [nullptr] have no
    block: [get() == nullptr] and [use_count() == 0]. *)
Theorem null_raw_pointer_gets_block (st : state) (h : nat)
    (Hfresh : shared_ptrs st !! h = None) :
  (∃ st', SharedPtr.raw_ctor h None false st = Ok tt st'
          ∧ (∃ b, shared_ptrs st' !! h = Some (Some b)
                  ∧ is_Some (blocks st' !! b)
                  ∧ b ∈ storage st')
          ∧ observes h st' None 1)
  ∧ (∃ st', SharedPtr.default_ctor h st = Ok tt st'
            ∧ shared_ptrs st' !! h = Some None
            ∧ observes h st' None 0)
  ∧ (∃ st', SharedPtr.nullptr_ctor h st = Ok tt st'
            ∧ shared_ptrs st' !! h = Some None
            ∧ observes h st' None 0).
Proof.
  unfold observes, SharedPtr.raw_ctor, SharedPtr.default_ctor,
    SharedPtr.nullptr_ctor, SharedPtr.get, SharedPtr.use_count.
  msimpl. rewrite Hfresh.
  repeat split; (eexists; split; [reflexivity|]); msimpl; try done.
  split; [|done]. eexists; split; [done|]. msimpl. split; [by eexists|].
  set_solver.
Qed.

Lemma null_raw_pointer_gets_block_witness :
  shared_ptrs init !! 1 = None
  ∧ (∃ st', SharedPtr.raw_ctor 1 None false init = Ok tt st'
            ∧ (∃ b, shared_ptrs st' !! 1 = Some (Some b)
                    ∧ is_Some (blocks st' !! b)
                    ∧ b ∈ storage st')
            ∧ observes 1 st' None 1)
  ∧ (∃ st', SharedPtr.default_ctor 1 init = Ok tt st'
            ∧ shared_ptrs st' !! 1 = Some None
            ∧ observes 1 st' None 0)
  ∧ (∃ st', SharedPtr.nullptr_ctor 1 init = Ok tt st'
            ∧ shared_ptrs st' !! 1 = Some None
            ∧ observes 1 st' None 0).
Proof.
  split; [reflexivity|].
  apply (null_raw_pointer_gets_block init 1). reflexivity.
Defined.

(** ** Counting handles *)

Lemma refs_delete (m : gmap nat (option nat)) (h : nat) (cb : option nat)
    (b : addr) :
  m !! h = Some cb → refs m b = refs (delete h m) b + ref_of cb b.
Proof.
  intros Hh. unfold refs, ref_of. rewrite map_filter_delete.
  case_decide as Hcb.
  - rewrite map_size_delete_Some.
    + assert (size (filter (λ kv : nat * option nat, kv.2 = Some b) m) ≠ 0);
        [|lia].
      apply map_size_ne_0_lookup_2 with h.
      exists cb. by apply map_lookup_filter_Some.
    + exists cb. by apply map_lookup_filter_Some.
  - rewrite map_size_delete_None; [lia|].
    apply map_lookup_filter_None. right. intros x Hx. simpl. congruence.
Qed.

Lemma refs_insert (m : gmap nat (option nat)) (h : nat) (cb : option nat)
    (b : addr) :
  refs (<[h:=cb]> m) b = refs (delete h m) b + ref_of cb b.
Proof.
  rewrite (refs_delete (<[h:=cb]> m) h cb b) by apply lookup_insert_eq.
  by rewrite delete_insert_eq.
Qed.

Lemma refs_fresh (m : gmap nat (option nat)) (h : nat) (b : addr) :
  m !! h = None → refs (delete h m) b = refs m b.
Proof. intros Hh. by rewrite delete_id. Qed.

Lemma refs_pos (m : gmap nat (option nat)) (h : nat) (b : addr) :
  m !! h = Some (Some b) → refs m b ≠ 0.
Proof.
  intros Hh. rewrite (refs_delete m h (Some b) b Hh). unfold ref_of.
  rewrite decide_True by done. lia.
Qed.

Lemma refs_zero (m : gmap nat (option nat)) (b : addr) :
  refs m b = 0 ↔ ∀ h, m !! h ≠ Some (Some b).
Proof.
  split.
  - intros Hz h Hh. by apply (refs_pos m h b Hh).
  - intros Hno. unfold refs. apply map_size_empty_iff, map_empty_filter_2.
    intros h cb Hh. simpl. intros ->. by apply (Hno h).
Qed.

Lemma refs_empty (b : addr) : refs ∅ b = 0.
Proof. unfold refs. by rewrite map_filter_empty, map_size_empty. Qed.

Lemma refs_le_size (m : gmap nat (option nat)) (b : addr) : refs m b ≤ size m.
Proof. apply map_subseteq_size, map_filter_subseteq. Qed.

Lemma ref_of_None (b : addr) : ref_of None b = 0.
Proof. done. Qed.

Lemma ref_of_same (b : addr) : ref_of (Some b) b = 1.
Proof. unfold ref_of. by rewrite decide_True. Qed.

Lemma ref_of_other (b x : addr) : x ≠ b → ref_of (Some b) x = 0.
Proof. intros. unfold ref_of. rewrite decide_False; [done | congruence]. Qed.

(** ** The invariant of sound programs *)

Lemma Safe_mono (n m : nat) (st : state) : n ≤ m → Safe n st → Safe m st.
Proof.
  intros Hnm [H1 H2 H3 H4 H5 H6 [H7 H7'] H8]. split; try done. split; lia.
Qed.

Lemma Safe_init : Safe 0 init.
Proof.
  split; simpl.
  - intros b blk Hb. by rewrite lookup_empty in Hb.
  - intros b _. unfold srefs, wrefs. simpl. by rewrite refs_empty.
  - intros b. split; [set_solver | intros [x Hx]; by rewrite lookup_empty in Hx].
  - intros b [x Hx]. by rewrite lookup_empty in Hx.
  - done.
  - done.
  - done.
  - done.
Qed.

(** A handle that holds a block pointer holds the pointer of a live
    block. *)
Lemma Safe_shared_live (n : nat) (st : state) (h b : nat) :
  Safe n st → shared_ptrs st !! h = Some (Some b) →
  ∃ blk, blocks st !! b = Some blk ∧ srefs st b ≠ 0.
Proof.
  intros HS Hh. pose proof (refs_pos _ _ _ Hh) as Hr.
  destruct (blocks st !! b) as [blk|] eqn:Hb; [by exists blk|].
  by destruct (safe_dead n st HS b Hb).
Qed.

Lemma Safe_weak_live (n : nat) (st : state) (w b : nat) :
  Safe n st → weak_ptrs st !! w = Some (Some b) →
  ∃ blk, blocks st !! b = Some blk ∧ wrefs st b ≠ 0.
Proof.
  intros HS Hw. pose proof (refs_pos _ _ _ Hw) as Hr.
  destruct (blocks st !! b) as [blk|] eqn:Hb; [by exists blk|].
  by destruct (safe_dead n st HS b Hb).
Qed.

(** The handle stores change and every count stays. *)
Lemma Safe_handles (n n' : nat) (st : state) (ms mw : gmap nat (option nat)) :
  Safe n st →
  (∀ b, refs ms b = srefs st b) → (∀ b, refs mw b = wrefs st b) →
  size ms ≤ n' → size mw ≤ n' →
  Safe n' (State (blocks st) (storage st) (next_addr st) ms mw (events st)).
Proof.
  intros [H1 H2 H3 H4 H5 H6 H7 H8] Hs Hw Hsz Hwz.
  split; unfold srefs, wrefs in *; simpl; try done.
  - intros b blk Hb. rewrite Hs, Hw. by apply H1.
  - intros b Hb. rewrite Hs, Hw. by apply H2.
Qed.


(** The block at [b] is rewritten, the counts for [b] may change, and the
    log may grow by entries about [b]. *)
Lemma Safe_update (n n' : nat) (st : state) (b : addr) (newblk : block)
    (ms mw : gmap nat (option nat)) (evs : list event) :
  Safe n st → is_Some (blocks st !! b) →
  (∀ x, x ≠ b → refs ms x = srefs st x) →
  (∀ x, x ≠ b → refs mw x = wrefs st x) →
  size ms ≤ n' → size mw ≤ n' →
  block_ok (refs ms b) (refs mw b)
    (In (EvReleaseShared b) (evs ++ events st)) newblk →
  about b evs →
  (∀ e, In e evs → releases_object b e →
        In (EvReleaseShared b) (evs ++ events st)) →
  once_log (evs ++ events st) →
  Safe n' (State (<[b:=newblk]> (blocks st)) (storage st) (next_addr st)
             ms mw (evs ++ events st)).
Proof.
  intros [H1 H2 H3 H4 H5 H6 H7 H8] Hb Hs Hw Hsz Hwz Hok Habout Hobj Hlog.
  assert (Hin : ∀ x, x ≠ b →
            In (EvReleaseShared x) (evs ++ events st)
            ↔ In (EvReleaseShared x) (events st)).
  { intros x Hx. rewrite in_app_iff. split; [|by right].
    intros [Hin|Hin]; [|done].
    destruct (Habout _ Hin) as [Hrs _]. by destruct Hx, (Hrs x). }
  split; unfold srefs, wrefs in *; simpl.
  - intros x blk. destruct (decide (b = x)) as [<-|Hne].
    + rewrite lookup_insert_eq. by intros [= <-].
    + rewrite lookup_insert_ne by done. intros Hx.
      rewrite Hs, Hw by done. specialize (H1 x blk Hx).
      unfold block_ok in *. rewrite Hin by done. exact H1.
  - intros x. destruct (decide (b = x)) as [<-|Hne].
    + by rewrite lookup_insert_eq.
    + rewrite lookup_insert_ne by done. intros Hx. rewrite Hs, Hw by done.
      by apply H2.
  - intros x. rewrite H3. destruct (decide (b = x)) as [<-|Hne].
    + rewrite lookup_insert_eq. split; [by eexists | done].
    + by rewrite lookup_insert_ne.
  - intros x. destruct (decide (b = x)) as [<-|Hne].
    + intros _. by apply H4.
    + rewrite lookup_insert_ne by done. apply H4.
  - intros x Hx. destruct (decide (x = b)) as [->|Hne]; [by apply H4|].
    apply H5. by apply Hin.
  - intros e x Hin' Hrel. apply in_app_iff in Hin' as [Hin'|Hin'].
    + destruct (Habout _ Hin') as [_ Hro]. pose proof (Hro x Hrel) as ->.
      by apply Hobj with e.
    + apply in_app_iff. right. by apply H6 with e.
  - done.
  - done.
Qed.

(** The block at [b] has lost its last handle and is released. *)
Lemma Safe_free (n : nat) (st : state) (b : addr)
    (ms mw : gmap nat (option nat)) (evs : list event) :
  Safe n st → is_Some (blocks st !! b) →
  (∀ x, x ≠ b → refs ms x = srefs st x) →
  (∀ x, x ≠ b → refs mw x = wrefs st x) →
  refs ms b = 0 → refs mw b = 0 →
  size ms ≤ n → size mw ≤ n →
  about b evs →
  (∀ e, In e evs → releases_object b e →
        In (EvReleaseShared b) (evs ++ events st)) →
  once_log (evs ++ events st) →
  Safe n (State (delete b (blocks st)) (storage st ∖ {[b]}) (next_addr st)
            ms mw (evs ++ events st)).
Proof.
  intros [H1 H2 H3 H4 H5 H6 H7 H8] Hb Hs Hw Hs0 Hw0 Hsz Hwz Habout Hobj Hlog.
  assert (Hin : ∀ x, x ≠ b →
            In (EvReleaseShared x) (evs ++ events st)
            ↔ In (EvReleaseShared x) (events st)).
  { intros x Hx. rewrite in_app_iff. split; [|by right].
    intros [Hin|Hin]; [|done].
    destruct (Habout _ Hin) as [Hrs _]. by destruct Hx, (Hrs x). }
  split; unfold srefs, wrefs in *; simpl.
  - intros x blk. destruct (decide (b = x)) as [<-|Hne].
    + by rewrite lookup_delete_eq.
    + rewrite lookup_delete_ne by done. intros Hx.
      rewrite Hs, Hw by done. specialize (H1 x blk Hx).
      unfold block_ok in *. rewrite Hin by done. exact H1.
  - intros x. destruct (decide (b = x)) as [<-|Hne]; [done|].
    rewrite lookup_delete_ne by done. intros Hx. rewrite Hs, Hw by done.
    by apply H2.
  - intros x. rewrite elem_of_difference, elem_of_singleton, H3.
    destruct (decide (b = x)) as [<-|Hne].
    + rewrite lookup_delete_eq. split; [by intros [_ []] | by intros []].
    + rewrite lookup_delete_ne by done. intuition congruence.
  - intros x. destruct (decide (b = x)) as [<-|Hne].
    + intros _. by apply H4.
    + rewrite lookup_delete_ne by done. apply H4.
  - intros x Hx. destruct (decide (x = b)) as [->|Hne]; [by apply H4|].
    apply H5. by apply Hin.
  - intros e x Hin' Hrel. apply in_app_iff in Hin' as [Hin'|Hin'].
    + destruct (Habout _ Hin') as [_ Hro]. pose proof (Hro x Hrel) as ->.
      by apply Hobj with e.
    + apply in_app_iff. right. by apply H6 with e.
  - done.
  - done.
Qed.

(** A block is created at the next free address for a new handle [h]. *)
Lemma Safe_create (n : nat) (st : state) (h : nat) (newblk : block) :
  Safe n st → shared_ptrs st !! h = None →
  shared_count newblk = 1%Z → weak_count newblk = 0%Z →
  pointer newblk ≠ None →
  Safe (S n)
    (State (<[next_addr st:=newblk]> (blocks st))
       ({[next_addr st]} ∪ storage st) (S (next_addr st))
       (<[h:=Some (next_addr st)]> (shared_ptrs st)) (weak_ptrs st)
       (EvAllocate (next_addr st) :: events st)).
Proof.
  intros HS Hh Hsc Hwc Hp.
  assert (Hnone : blocks st !! next_addr st = None).
  { destruct (blocks st !! next_addr st) eqn:Hb; [|done].
    pose proof (safe_fresh n st HS (next_addr st) (ltac:(by eexists))). lia. }
  destruct (safe_dead n st HS _ Hnone) as [Hs0 Hw0].
  destruct HS as [H1 H2 H3 H4 H5 H6 [H7 H7'] H8].
  assert (Hrefs : ∀ x, refs (<[h:=Some (next_addr st)]> (shared_ptrs st)) x
                       = srefs st x + ref_of (Some (next_addr st)) x).
  { intros x. by rewrite refs_insert, refs_fresh. }
  split; unfold srefs, wrefs in *; simpl.
  - intros x blk. destruct (decide (next_addr st = x)) as [<-|Hne].
    + rewrite lookup_insert_eq. intros [= <-]. rewrite Hrefs, ref_of_same.
      rewrite Hs0, Hw0. repeat split; try done.
      intros [|Hin]; [done|]. specialize (H5 _ Hin). lia.
    + rewrite lookup_insert_ne by done. intros Hx.
      rewrite Hrefs, ref_of_other, Nat.add_0_r by done.
      specialize (H1 x blk Hx). unfold block_ok in *.
      assert (In (EvReleaseShared x) (EvAllocate (next_addr st) :: events st)
              ↔ In (EvReleaseShared x) (events st)) as ->; [|done].
      split; [by intros [|] | by right].
  - intros x. destruct (decide (next_addr st = x)) as [<-|Hne].
    + by rewrite lookup_insert_eq.
    + rewrite lookup_insert_ne by done. intros Hx.
      rewrite Hrefs, ref_of_other, Nat.add_0_r by done. by apply H2.
  - intros x. rewrite elem_of_union, elem_of_singleton, H3.
    destruct (decide (next_addr st = x)) as [<-|Hne].
    + rewrite lookup_insert_eq. split; [by eexists | by left].
    + rewrite lookup_insert_ne by done. intuition congruence.
  - intros x. destruct (decide (next_addr st = x)) as [<-|Hne]; [lia|].
    rewrite lookup_insert_ne by done. intros Hx. specialize (H4 x Hx). lia.
  - intros x [|Hin]; [done|]. specialize (H5 x Hin). lia.
  - intros e x [<-|Hin] Hrel; [done|]. right. by apply H6 with e.
  - rewrite map_size_insert_None by done. lia.
  - done.
Qed.

(** Storage is obtained and given back at once; nothing else changes. *)
Lemma Safe_alloc_dealloc (n : nat) (st : state) :
  Safe n st →
  Safe n
    (State (delete (next_addr st) (blocks st))
       (({[next_addr st]} ∪ storage st) ∖ {[next_addr st]})
       (S (next_addr st)) (shared_ptrs st) (weak_ptrs st)
       (EvDeallocate (next_addr st) :: EvAllocate (next_addr st) :: events st)).
Proof.
  intros HS.
  assert (Hnone : blocks st !! next_addr st = None).
  { destruct (blocks st !! next_addr st) eqn:Hb; [|done].
    pose proof (safe_fresh n st HS (next_addr st) (ltac:(by eexists))). lia. }
  destruct HS as [H1 H2 H3 H4 H5 H6 H7 H8].
  rewrite delete_id by done.
  split; unfold srefs, wrefs in *; simpl; try done.
  - intros x blk Hx. specialize (H1 x blk Hx). unfold block_ok in *.
    assert (In (EvReleaseShared x)
              (EvDeallocate (next_addr st) :: EvAllocate (next_addr st)
               :: events st)
            ↔ In (EvReleaseShared x) (events st)) as ->; [|done].
    split; [by intros [|[|]] | by right; right].
  - intros x. rewrite elem_of_difference, elem_of_union, elem_of_singleton.
    rewrite <- H3. split; [intuition congruence|]. intros Hx. split; [by right|].
    intros ->. apply H3 in Hx. rewrite Hnone in Hx. by destruct Hx.
  - intros x Hx. specialize (H4 x Hx). lia.
  - intros x [|[|Hin]]; try done. specialize (H5 x Hin). lia.
  - intros e x [<-|[<-|Hin]] Hrel; try done. right; right. by apply H6 with e.
Qed.

(** ** What the counter operations do to a live block *)


Lemma state_ext (s1 s2 : state) :
  blocks s1 = blocks s2 → storage s1 = storage s2 →
  next_addr s1 = next_addr s2 → shared_ptrs s1 = shared_ptrs s2 →
  weak_ptrs s1 = weak_ptrs s2 → events s1 = events s2 → s1 = s2.
Proof. destruct s1, s2. simpl. by intros -> -> -> -> -> ->. Qed.

Lemma increase_shared_count_live (b : addr) (st : state) (blk : block) :
  blocks st !! b = Some blk →
  details.increase_shared_count b st
  = Ok (wrap (shared_count blk + 1))
      (set_blocks
         (insert b (details.with_shared_count (wrap (shared_count blk + 1)) blk))
         st).
Proof. intros Hb. unfold details.increase_shared_count. msimpl. by rewrite Hb. Qed.

Lemma increase_weak_count_live (b : addr) (st : state) (blk : block) :
  blocks st !! b = Some blk →
  details.increase_weak_count b st
  = Ok (wrap (weak_count blk + 1))
      (set_blocks
         (insert b (details.with_weak_count (wrap (weak_count blk + 1)) blk))
         st).
Proof. intros Hb. unfold details.increase_weak_count. msimpl. by rewrite Hb. Qed.

(** A strong handle goes and others stay. *)
Lemma decrease_shared_counter_keep (b : addr) (st : state) (blk : block) :
  blocks st !! b = Some blk → wrap (shared_count blk - 1) ≠ 0%Z →
  details.decrease_shared_counter inert b st
  = Ok tt
      (set_blocks
         (insert b (details.with_shared_count (wrap (shared_count blk - 1)) blk))
         st).
Proof.
  intros Hb Hn. unfold details.decrease_shared_counter. msimpl. rewrite Hb.
  msimpl. by destruct (Z.eqb_spec (wrap (shared_count blk - 1)) 0).
Qed.

(** The last strong handle goes and weak handles stay: the object is
    destroyed, the block is kept. *)
Lemma decrease_shared_counter_release (b : addr) (st : state) (blk : block) :
  blocks st !! b = Some blk → wrap (shared_count blk - 1) = 0%Z →
  weak_count blk ≠ 0%Z →
  details.decrease_shared_counter inert b st
  = Ok tt
      (State
         (<[b:=details.with_pointer None (details.with_shared_count 0 blk)]>
            (blocks st))
         (storage st) (next_addr st) (shared_ptrs st) (weak_ptrs st)
         ([object_release b blk; EvReleaseShared b] ++ events st)).
Proof.
  intros Hb Hn Hw. destruct blk as [k p sc wc]. cbn [shared_count weak_count] in *.
  unfold details.decrease_shared_counter, details.release_shared,
    object_release.
  msimpl. rewrite Hb. msimpl. rewrite Hn. change (0 =? 0)%Z with true.
  destruct k; msimpl; (destruct (Z.eqb_spec wc 0); [done|]);
    f_equal; apply state_ext; simpl_state; by rewrite ?insert_insert_eq.
Qed.

(** The last strong handle goes and there is no weak handle: the object is
    destroyed and the block is released. *)
Lemma decrease_shared_counter_free (b : addr) (st : state) (blk : block) :
  blocks st !! b = Some blk → wrap (shared_count blk - 1) = 0%Z →
  weak_count blk = 0%Z →
  details.decrease_shared_counter inert b st
  = Ok tt
      (State (delete b (blocks st)) (storage st ∖ {[b]}) (next_addr st)
         (shared_ptrs st) (weak_ptrs st)
         (last_strong_events b blk ++ events st)).
Proof.
  intros Hb Hn Hw. destruct blk as [k p sc wc]. cbn [shared_count weak_count] in *. subst wc.
  unfold details.decrease_shared_counter, details.release_shared,
    details.release_weak, last_strong_events, block_destroy, object_release.
  msimpl. rewrite Hb. msimpl. rewrite Hn.
  destruct k; repeat (progress (msimpl; change (0 =? 0)%Z with true));
    f_equal; apply state_ext; simpl_state; by rewrite ?delete_insert_eq.
Qed.

(** A weak handle goes and the block stays. *)
Lemma decrease_weak_counter_keep (b : addr) (st : state) (blk : block) :
  blocks st !! b = Some blk →
  ¬ (shared_count blk = 0%Z ∧ wrap (weak_count blk - 1) = 0%Z) →
  details.decrease_weak_counter b st
  = Ok tt
      (set_blocks
         (insert b (details.with_weak_count (wrap (weak_count blk - 1)) blk))
         st).
Proof.
  intros Hb Hn. unfold details.decrease_weak_counter. msimpl. rewrite Hb.
  msimpl.
  destruct (Z.eqb_spec (shared_count blk) 0),
    (Z.eqb_spec (wrap (weak_count blk - 1)) 0); simpl; try done.
  by destruct Hn.
Qed.

(** The last weak handle goes after the last strong one: the block is
    released. *)
Lemma decrease_weak_counter_free (b : addr) (st : state) (blk : block) :
  blocks st !! b = Some blk →
  shared_count blk = 0%Z → wrap (weak_count blk - 1) = 0%Z →
  details.decrease_weak_counter b st
  = Ok tt
      (State (delete b (blocks st)) (storage st ∖ {[b]}) (next_addr st)
         (shared_ptrs st) (weak_ptrs st)
         (last_weak_events b blk ++ events st)).
Proof.
  intros Hb Hs Hn. destruct blk as [k p sc wc]. cbn [shared_count weak_count] in *. subst sc.
  unfold details.decrease_weak_counter, details.release_weak,
    last_weak_events, block_destroy.
  msimpl. rewrite Hb. msimpl. rewrite Hn.
  destruct k; repeat (progress (msimpl; change (0 =? 0)%Z with true; cbn [andb]));
    f_equal; apply state_ext; simpl_state; by rewrite ?delete_insert_eq.
Qed.

(** ** Taking a handle off a block, putting a handle on a block *)

Lemma wrap_small (z : Z) : (0 ≤ z < size_max)%Z → wrap z = z.
Proof. intros. unfold wrap. by apply Z.mod_small. Qed.

Lemma object_release_spec (b x : addr) (blk : block) :
  releases_object x (object_release b blk) ↔ x = b.
Proof.
  unfold object_release, releases_object. destruct (kind blk); split; auto.
Qed.

Lemma about_release (b : addr) (blk : block) :
  about b [object_release b blk; EvReleaseShared b].
Proof.
  intros e [<-|[<-|[]]]; split; intros x.
  - unfold object_release. by destruct (kind blk).
  - intros Hx. symmetry. by apply object_release_spec in Hx.
  - by intros [= ->].
  - done.
Qed.

Lemma about_last_strong (b : addr) (blk : block) :
  about b (last_strong_events b blk).
Proof.
  intros e He. unfold last_strong_events, block_destroy in He.
  destruct (kind blk) eqn:Hk; simpl in He;
    repeat (destruct He as [<-|He]); try done;
    try (split; intros x; [by intros [= ->] | done]);
    (split; intros x;
     [unfold object_release; by rewrite Hk
     |intros Hx; symmetry; by apply object_release_spec in Hx]).
Qed.

Lemma about_last_weak (b : addr) (blk : block) :
  about b (last_weak_events b blk).
Proof.
  intros e He. unfold last_weak_events, block_destroy in He.
  destruct (kind blk); simpl in He;
    repeat (destruct He as [<-|He]); try done.
Qed.

Lemma once_log_release (n : nat) (st : state) (b : addr) (blk : block) :
  Safe n st → pointer blk ≠ None →
  ¬ In (EvReleaseShared b) (events st) →
  once_log (object_release b blk :: EvReleaseShared b :: events st).
Proof.
  intros HS Hp Hrel.
  assert (Hnone : ∀ e', In e' (EvReleaseShared b :: events st) →
                        ¬ releases_object b e').
  { intros e' [<-|Hin] Hro; [done|].
    by apply Hrel, (safe_object n st HS e' b). }
  simpl. split; [|split; [done | by apply (safe_log n st HS)]].
  unfold object_release. by destruct (kind blk).
Qed.

Lemma once_log_last_strong (n : nat) (st : state) (b : addr) (blk : block) :
  Safe n st → pointer blk ≠ None →
  ¬ In (EvReleaseShared b) (events st) →
  once_log (last_strong_events b blk ++ events st).
Proof.
  intros HS Hp Hrel. pose proof (once_log_release n st b blk HS Hp Hrel).
  unfold last_strong_events, block_destroy. by destruct (kind blk).
Qed.

Lemma once_log_last_weak (n : nat) (st : state) (b : addr) (blk : block) :
  Safe n st → once_log (last_weak_events b blk ++ events st).
Proof.
  intros HS. pose proof (safe_log n st HS).
  unfold last_weak_events, block_destroy. by destruct (kind blk).
Qed.

Lemma In_release_last_strong (b : addr) (blk : block) (l : list event) :
  In (EvReleaseShared b) (last_strong_events b blk ++ l).
Proof.
  unfold last_strong_events, block_destroy. apply in_app_iff. left.
  destruct (kind blk); simpl; auto 10.
Qed.

(** The handle [h] gives up the block at [b]: [decrease_shared_counter]
    returns, and the state is sound again once the handle store no longer
    counts [h] for [b]. *)
Lemma drop_strong (n : nat) (st : state) (h b : nat) :
  Safe n st → (Z.of_nat n < size_max)%Z →
  shared_ptrs st !! h = Some (Some b) →
  ∃ st1, details.decrease_shared_counter inert b st = Ok tt st1
         ∧ shared_ptrs st1 = shared_ptrs st
         ∧ weak_ptrs st1 = weak_ptrs st
         ∧ ∀ ms, (∀ x, refs ms x + ref_of (Some b) x = srefs st x) →
                 size ms ≤ n →
                 Safe n (set_shared_ptrs (fun _ => ms) st1).
Proof.
  intros HS Hn Hh.
  destruct (Safe_shared_live n st h b HS Hh) as (blk & Hb & Hsr).
  destruct (safe_live n st HS b blk Hb) as (Hsc & Hwc & _ & Hlive).
  destruct (Hlive Hsr) as [Hp Hrel].
  pose proof (refs_le_size (shared_ptrs st) b) as Hle.
  destruct (safe_size n st HS) as [Hsz Hwz]. unfold srefs in *.
  assert (Hwrap : wrap (shared_count blk - 1)
                  = (Z.of_nat (refs (shared_ptrs st) b) - 1)%Z).
  { rewrite Hsc. apply wrap_small. lia. }
  assert (Hothers : ∀ ms,
            (∀ x, refs ms x + ref_of (Some b) x = refs (shared_ptrs st) x) →
            (∀ x, x ≠ b → refs ms x = refs (shared_ptrs st) x)
            ∧ refs ms b + 1 = refs (shared_ptrs st) b).
  { intros ms Hms. split.
    - intros x Hx. specialize (Hms x). rewrite ref_of_other in Hms by done.
      lia.
    - specialize (Hms b). by rewrite ref_of_same in Hms. }
  destruct (decide (refs (shared_ptrs st) b = 1)) as [Hone|Hmore].
  - destruct (decide (weak_count blk = 0%Z)) as [Hw0|Hw0].
    + rewrite (decrease_shared_counter_free b st blk Hb) by (done || lia).
      eexists. split; [done|]. split; [done|]. split; [done|].
      intros ms Hms Hsize. destruct (Hothers ms Hms) as [Hoth Hb1].
      apply (Safe_free n st b ms (weak_ptrs st) (last_strong_events b blk) HS).
      * by eexists.
      * done.
      * done.
      * lia.
      * unfold wrefs in *. lia.
      * done.
      * done.
      * apply about_last_strong.
      * intros. apply In_release_last_strong.
      * by apply (once_log_last_strong n).
    + rewrite (decrease_shared_counter_release b st blk Hb) by (done || lia).
      eexists. split; [done|]. split; [done|]. split; [done|].
      intros ms Hms Hsize. destruct (Hothers ms Hms) as [Hoth Hb1].
      apply (Safe_update n n st b _ ms (weak_ptrs st)
               [object_release b blk; EvReleaseShared b] HS).
      * by eexists.
      * done.
      * done.
      * done.
      * done.
      * replace (refs ms b) with 0 by lia. unfold wrefs in *.
        split; [done|]. split; [done|]. split; [|done].
        intros _. split; [lia|]. split; [done|]. right. by left.
      * apply about_release.
      * intros. right. by left.
      * by apply (once_log_release n).
  - rewrite (decrease_shared_counter_keep b st blk Hb) by lia.
    eexists. split; [done|]. split; [done|]. split; [done|].
    intros ms Hms Hsize. destruct (Hothers ms Hms) as [Hoth Hb1].
    apply (Safe_update n n st b _ ms (weak_ptrs st) [] HS).
    + by eexists.
    + done.
    + done.
    + done.
    + done.
    + unfold wrefs in *. split; [simpl; lia|]. split; [done|].
      split; [lia|done].
    + by intros e [].
    + by intros e [].
    + by apply (safe_log n st).
Qed.

Lemma last_weak_keeps_object (b x : addr) (blk : block) (e : event) :
  In e (last_weak_events b blk) → ¬ releases_object x e.
Proof.
  unfold last_weak_events, block_destroy. intros He.
  destruct (kind blk); simpl in He; repeat (destruct He as [<-|He]);
    simpl; tauto.
Qed.

(** The weak handle [w] gives up the block at [b]. *)
Lemma drop_weak (n : nat) (st : state) (w b : nat) :
  Safe n st → (Z.of_nat n < size_max)%Z →
  weak_ptrs st !! w = Some (Some b) →
  ∃ st1, details.decrease_weak_counter b st = Ok tt st1
         ∧ shared_ptrs st1 = shared_ptrs st
         ∧ weak_ptrs st1 = weak_ptrs st
         ∧ ∀ mw, (∀ x, refs mw x + ref_of (Some b) x = wrefs st x) →
                 size mw ≤ n →
                 Safe n (set_weak_ptrs (fun _ => mw) st1).
Proof.
  intros HS Hn Hw.
  destruct (Safe_weak_live n st w b HS Hw) as (blk & Hb & Hwr).
  destruct (safe_live n st HS b blk Hb) as (Hsc & Hwc & Hdead & Hlive).
  pose proof (refs_le_size (weak_ptrs st) b) as Hle.
  destruct (safe_size n st HS) as [Hsz Hwz]. unfold srefs, wrefs in *.
  assert (Hwrap : wrap (weak_count blk - 1)
                  = (Z.of_nat (refs (weak_ptrs st) b) - 1)%Z).
  { rewrite Hwc. apply wrap_small. lia. }
  assert (Hothers : ∀ mw,
            (∀ x, refs mw x + ref_of (Some b) x = refs (weak_ptrs st) x) →
            (∀ x, x ≠ b → refs mw x = refs (weak_ptrs st) x)
            ∧ refs mw b + 1 = refs (weak_ptrs st) b).
  { intros mw Hmw. split.
    - intros x Hx. specialize (Hmw x). rewrite ref_of_other in Hmw by done.
      lia.
    - specialize (Hmw b). by rewrite ref_of_same in Hmw. }
  destruct (decide (refs (shared_ptrs st) b = 0
                    ∧ refs (weak_ptrs st) b = 1)) as [[Hs0 Hw1]|Hkeep].
  - rewrite (decrease_weak_counter_free b st blk Hb) by lia.
    eexists. split; [done|]. split; [done|]. split; [done|].
    intros mw Hmw Hsize. destruct (Hothers mw Hmw) as [Hoth Hb1].
    apply (Safe_free n st b (shared_ptrs st) mw (last_weak_events b blk) HS).
    + by eexists.
    + done.
    + done.
    + done.
    + lia.
    + done.
    + done.
    + apply about_last_weak.
    + intros e He Hro. by destruct (last_weak_keeps_object b b blk e He).
    + by apply (once_log_last_weak n).
  - rewrite (decrease_weak_counter_keep b st blk Hb) by lia.
    eexists. split; [done|]. split; [done|]. split; [done|].
    intros mw Hmw Hsize. destruct (Hothers mw Hmw) as [Hoth Hb1].
    apply (Safe_update n n st b _ (shared_ptrs st) mw [] HS).
    + by eexists.
    + done.
    + done.
    + done.
    + done.
    + split; [done|]. split; [simpl; lia|]. split; [|done].
      intros Hs0. destruct (Hdead Hs0) as (_ & Hp & Hrel).
      split; [lia|done].
    + by intros e [].
    + by intros e [].
    + by apply (safe_log n st).
Qed.

(** A handle is put on the block at [b], which has a strong handle
    already: [increase_shared_count] returns and the state is sound. *)
Lemma attach_strong (n n' : nat) (st : state) (b : addr)
    (ms : gmap nat (option nat)) :
  Safe n st → n ≤ n' → (Z.of_nat n' < size_max)%Z →
  srefs st b ≠ 0 →
  (∀ x, refs ms x = srefs st x + ref_of (Some b) x) →
  size ms ≤ n' →
  ∃ c st2, details.increase_shared_count b (set_shared_ptrs (fun _ => ms) st)
           = Ok c st2
           ∧ Safe n' st2.
Proof.
  intros HS Hnn Hn Hsr Hms Hsize.
  destruct (blocks st !! b) as [blk|] eqn:Hb;
    [|by destruct (safe_dead n st HS b Hb)].
  destruct (safe_live n st HS b blk Hb) as (Hsc & Hwc & _ & Hlive).
  destruct (Hlive Hsr) as [Hp Hrel].
  destruct (safe_size n st HS) as [Hsz Hwz]. unfold srefs, wrefs in *.
  pose proof (refs_le_size ms b) as Hle.
  pose proof (Hms b) as Hmb. rewrite ref_of_same in Hmb.
  rewrite (increase_shared_count_live b _ blk) by done.
  eexists _, _. split; [done|].
  apply (Safe_update n n' st b _ ms (weak_ptrs st) [] HS).
  - by eexists.
  - intros x Hx. rewrite Hms, ref_of_other by done. unfold srefs. lia.
  - done.
  - done.
  - lia.
  - rewrite Hmb. split; [simpl; rewrite wrap_small; lia|]. split; [done|].
    split; [lia|done].
  - by intros e [].
  - by intros e [].
  - by apply (safe_log n st).
Qed.

(** A weak handle is put on the live block at [b]. *)
Lemma attach_weak (n n' : nat) (st : state) (b : addr)
    (mw : gmap nat (option nat)) :
  Safe n st → n ≤ n' → (Z.of_nat n' < size_max)%Z →
  is_Some (blocks st !! b) →
  (∀ x, refs mw x = wrefs st x + ref_of (Some b) x) →
  size mw ≤ n' →
  ∃ c st2, details.increase_weak_count b (set_weak_ptrs (fun _ => mw) st)
           = Ok c st2
           ∧ Safe n' st2.
Proof.
  intros HS Hnn Hn [blk Hb] Hmw Hsize.
  destruct (safe_live n st HS b blk Hb) as (Hsc & Hwc & Hdead & Hlive).
  destruct (safe_size n st HS) as [Hsz Hwz]. unfold srefs, wrefs in *.
  pose proof (refs_le_size mw b) as Hle.
  pose proof (Hmw b) as Hmb. rewrite ref_of_same in Hmb.
  rewrite (increase_weak_count_live b _ blk) by done.
  eexists _, _. split; [done|].
  apply (Safe_update n n' st b _ (shared_ptrs st) mw [] HS).
  - by eexists.
  - done.
  - intros x Hx. rewrite Hmw, ref_of_other by done. unfold wrefs. lia.
  - lia.
  - done.
  - rewrite Hmb. split; [done|]. split; [simpl; rewrite wrap_small; lia|].
    split; [|done].
    intros Hs0. destruct (Hdead Hs0) as (_ & Hp & Hrel). split; [lia|done].
  - by intros e [].
  - by intros e [].
  - by apply (safe_log n st).
Qed.

(** ** Every sound operation keeps the state sound *)


Lemma is_free_spec {A} (m : gmap nat A) (h : nat) :
  is_free m h = true → m !! h = None.
Proof. unfold is_free. by intros ?%bool_decide_eq_true. Qed.

Lemma is_live_spec {A} (m : gmap nat A) (h : nat) :
  is_live m h = true → ∃ x, m !! h = Some x.
Proof. unfold is_live. by intros ?%bool_decide_eq_true. Qed.

Lemma is_bound_spec (m : gmap nat (option nat)) (h : nat) :
  is_bound m h = true → ∃ b, m !! h = Some (Some b).
Proof.
  unfold is_bound. destruct (m !! h) as [[b|]|]; try done. by exists b.
Qed.

Lemma refs_insert_fresh (m : gmap nat (option nat)) (h : nat)
    (cb : option nat) (x : addr) :
  m !! h = None → refs (<[h:=cb]> m) x = refs m x + ref_of cb x.
Proof. intros Hh. by rewrite refs_insert, refs_fresh. Qed.

Lemma refs_insert_over (m : gmap nat (option nat)) (h : nat)
    (cb0 cb : option nat) (x : addr) :
  m !! h = Some cb0 →
  refs (<[h:=cb]> m) x + ref_of cb0 x = refs m x + ref_of cb x.
Proof.
  intros Hh. rewrite refs_insert, (refs_delete m h cb0 x Hh). lia.
Qed.

Lemma refs_delete_over (m : gmap nat (option nat)) (h : nat)
    (cb0 : option nat) (x : addr) :
  m !! h = Some cb0 → refs (delete h m) x + ref_of cb0 x = refs m x.
Proof. intros Hh. by rewrite (refs_delete m h cb0 x Hh). Qed.

(** A new empty handle. *)
Lemma Safe_new_shared_null (n : nat) (st : state) (h : nat) :
  Safe n st → shared_ptrs st !! h = None →
  Safe (S n) (set_shared_ptrs (insert h None) st).
Proof.
  intros HS Hh. destruct (safe_size n st HS) as [Hsz Hwz].
  apply (Safe_handles n (S n) st _ (weak_ptrs st) HS).
  - intros b. by rewrite refs_insert_fresh, ref_of_None, Nat.add_0_r.
  - done.
  - rewrite map_size_insert_None by done. lia.
  - lia.
Qed.

Lemma Safe_new_weak_null (n : nat) (st : state) (w : nat) :
  Safe n st → weak_ptrs st !! w = None →
  Safe (S n) (set_weak_ptrs (insert w None) st).
Proof.
  intros HS Hw. destruct (safe_size n st HS) as [Hsz Hwz].
  apply (Safe_handles n (S n) st (shared_ptrs st) _ HS).
  - done.
  - intros b. by rewrite refs_insert_fresh, ref_of_None, Nat.add_0_r.
  - lia.
  - rewrite map_size_insert_None by done. lia.
Qed.

(** An empty handle goes. *)
Lemma Safe_end_shared_null (n : nat) (st : state) (h : nat) :
  Safe n st → shared_ptrs st !! h = Some None →
  Safe n (set_shared_ptrs (delete h) st).
Proof.
  intros HS Hh. destruct (safe_size n st HS) as [Hsz Hwz].
  apply (Safe_handles n n st _ (weak_ptrs st) HS).
  - intros b. pose proof (refs_delete_over _ _ _ b Hh) as Hr.
    rewrite ref_of_None in Hr. unfold srefs. lia.
  - done.
  - rewrite map_size_delete_Some by (by eexists). lia.
  - lia.
Qed.

Lemma Safe_end_weak_null (n : nat) (st : state) (w : nat) :
  Safe n st → weak_ptrs st !! w = Some None →
  Safe n (set_weak_ptrs (delete w) st).
Proof.
  intros HS Hw. destruct (safe_size n st HS) as [Hsz Hwz].
  apply (Safe_handles n n st (shared_ptrs st) _ HS).
  - done.
  - intros b. pose proof (refs_delete_over _ _ _ b Hw) as Hr.
    rewrite ref_of_None in Hr. unfold wrefs. lia.
  - lia.
  - rewrite map_size_delete_Some by (by eexists). lia.
Qed.

Lemma step_default_ctor (n : nat) (st : state) (h : nat) :
  Safe n st → shared_ptrs st !! h = None →
  steps_to (S n) (SharedPtr.default_ctor h) st.
Proof.
  intros HS Hh. eexists. split.
  - left. unfold SharedPtr.default_ctor. msimpl. by rewrite Hh.
  - by apply Safe_new_shared_null.
Qed.

Lemma step_weak_default_ctor (n : nat) (st : state) (w : nat) :
  Safe n st → weak_ptrs st !! w = None →
  steps_to (S n) (WeakPtr.default_ctor w) st.
Proof.
  intros HS Hw. eexists. split.
  - left. unfold WeakPtr.default_ctor. msimpl. by rewrite Hw.
  - by apply Safe_new_weak_null.
Qed.

(** The constructors that create a control block. *)
Lemma step_raw_ctor (n : nat) (st : state) (h : nat) (o : object)
    (oom : bool) :
  Safe n st → shared_ptrs st !! h = None →
  steps_to (S n) (SharedPtr.raw_ctor h (Some o) oom) st.
Proof.
  intros HS Hh. unfold SharedPtr.raw_ctor. destruct oom.
  - exists st. split; [by right|]. eapply Safe_mono; [|done]. lia.
  - eexists. split.
    + left. msimpl. by rewrite Hh.
    + by apply (Safe_create n st h).
Qed.

Lemma step_deleter_ctor (n : nat) (st : state) (h : nat) (o : object)
    (d : nat) (f : fault) :
  Safe n st → shared_ptrs st !! h = None →
  steps_to (S n) (SharedPtr.deleter_ctor h (Some o) d f) st.
Proof.
  intros HS Hh. unfold SharedPtr.deleter_ctor. destruct f.
  - eexists. split.
    + left. msimpl. by rewrite Hh.
    + by apply (Safe_create n st h).
  - exists st. split; [by right|]. eapply Safe_mono; [|done]. lia.
  - eexists. split.
    + right. by msimpl.
    + eapply Safe_mono; [|by apply (Safe_alloc_dealloc n st)]. lia.
Qed.

Lemma step_deleter_alloc_ctor (n : nat) (st : state) (h : nat) (o : object)
    (d : nat) (f : fault) :
  Safe n st → shared_ptrs st !! h = None → construct_throws f = false →
  steps_to (S n) (SharedPtr.deleter_alloc_ctor inert h (Some o) d f) st.
Proof.
  intros HS Hh Hf. unfold SharedPtr.deleter_alloc_ctor. destruct f; [| |done].
  - eexists. split.
    + left. msimpl. by rewrite Hh.
    + by apply (Safe_create n st h).
  - exists st. split; [by right|]. eapply Safe_mono; [|done]. lia.
Qed.

Lemma step_AllocateShared (n : nat) (st : state) (h : nat) (f : fault) :
  Safe n st → shared_ptrs st !! h = None → construct_throws f = false →
  steps_to (S n) (AllocateShared h f) st.
Proof.
  intros HS Hh Hf. unfold AllocateShared, SharedPtr.block_ctor.
  destruct f; [| |done].
  - eexists. split.
    + left. msimpl. by rewrite Hh.
    + by apply (Safe_create n st h).
  - exists st. split; [by right|]. eapply Safe_mono; [|done]. lia.
Qed.

(** Copy and move construction. *)
Lemma step_copy_ctor (n : nat) (st : state) (h other : nat)
    (cb : option nat) :
  Safe n st → (Z.of_nat n + 1 < size_max)%Z →
  shared_ptrs st !! h = None → shared_ptrs st !! other = Some cb →
  steps_to (S n) (SharedPtr.copy_ctor h other) st.
Proof.
  intros HS Hn Hh Ho. unfold steps_to, SharedPtr.copy_ctor. msimpl. rewrite Ho.
  msimpl. rewrite Hh. destruct cb as [b|].
  - destruct (Safe_shared_live n st other b HS Ho) as (blk & Hb & Hsr).
    destruct (safe_live n st HS b blk Hb) as (_ & _ & _ & Hlive).
    destruct (Hlive Hsr) as [Hp _].
    destruct (safe_size n st HS) as [Hsz _].
    assert (Hrefs : ∀ x, refs (<[h:=Some b]> (shared_ptrs st)) x
                         = srefs st x + ref_of (Some b) x).
    { intros x. by rewrite refs_insert_fresh. }
    assert (Hsize : size (<[h:=Some b]> (shared_ptrs st)) ≤ S n).
    { rewrite map_size_insert_None by done. lia. }
    destruct (attach_strong n (S n) st b (<[h:=Some b]> (shared_ptrs st)) HS
                ltac:(lia) ltac:(lia) Hsr Hrefs Hsize)
      as (c & st2 & Hinc & HS2).
    exists st2. split; [|done]. left. msimpl. rewrite Hb.
    destruct (pointer blk); [|done]. msimpl.
    change (set_shared_ptrs (λ _, <[h:=Some b]> (shared_ptrs st)) st)
      with (set_shared_ptrs <[h:=Some b]> st) in Hinc.
    by rewrite Hinc.
  - eexists. split; [by left|]. by apply Safe_new_shared_null.
Qed.

Lemma step_move_ctor (n : nat) (st : state) (h other : nat)
    (cb : option nat) :
  Safe n st →
  shared_ptrs st !! h = None → shared_ptrs st !! other = Some cb →
  steps_to (S n) (SharedPtr.move_ctor h other) st.
Proof.
  intros HS Hh Ho. unfold steps_to, SharedPtr.move_ctor. msimpl. rewrite Ho.
  msimpl. rewrite Hh. msimpl.
  assert (Hne : h ≠ other) by congruence.
  rewrite lookup_insert_ne, Ho by done.
  eexists. split; [by left|].
  destruct (safe_size n st HS) as [Hsz Hwz].
  apply (Safe_handles n (S n) st
           (<[other:=None]> (<[h:=cb]> (shared_ptrs st))) (weak_ptrs st) HS).
  - intros x.
    pose proof (refs_insert_over (<[h:=cb]> (shared_ptrs st)) other cb None x)
      as Hr.
    rewrite lookup_insert_ne in Hr by done. specialize (Hr Ho).
    rewrite (refs_insert_fresh (shared_ptrs st) h cb x Hh), ref_of_None in Hr.
    unfold srefs. lia.
  - done.
  - rewrite map_size_insert_Some, map_size_insert_None; [lia | done |].
    rewrite lookup_insert_ne by done. by eexists.
  - lia.
Qed.

(** [reset], and the first half of every assignment: the handle lets go
    of what it holds. *)
Lemma let_go (n : nat) (st : state) (h : nat) (cb : option nat) :
  Safe n st → (Z.of_nat n < size_max)%Z →
  shared_ptrs st !! h = Some cb →
  ∃ st1,
    (match cb with
     | None => mret tt
     | Some b => details.decrease_shared_counter inert b
     end) st = Ok tt st1
    ∧ shared_ptrs st1 = shared_ptrs st
    ∧ Safe n (set_shared_ptrs (insert h None) st1)
    ∧ Safe n (set_shared_ptrs (delete h) st1).
Proof.
  intros HS Hn Hh. destruct (safe_size n st HS) as [Hsz Hwz].
  destruct cb as [b|].
  - destruct (drop_strong n st h b HS Hn Hh) as (st1 & Hdec & Hsp & Hwp & Hsafe).
    exists st1. split; [done|]. split; [done|]. split.
    + replace (set_shared_ptrs <[h:=None]> st1)
        with (set_shared_ptrs (λ _, <[h:=None]> (shared_ptrs st)) st1)
        by (unfold set_shared_ptrs; by rewrite Hsp).
      apply Hsafe.
      * intros x. pose proof (refs_insert_over _ h _ None x Hh) as Hr.
        rewrite ref_of_None in Hr. unfold srefs. lia.
      * rewrite map_size_insert_Some by (by eexists). lia.
    + replace (set_shared_ptrs (delete h) st1)
        with (set_shared_ptrs (λ _, delete h (shared_ptrs st)) st1)
        by (unfold set_shared_ptrs; by rewrite Hsp).
      apply Hsafe.
      * intros x. apply (refs_delete_over _ h _ x Hh).
      * rewrite map_size_delete_Some by (by eexists). lia.
  - exists st. split; [done|]. split; [done|]. split.
    + apply (Safe_handles n n st _ (weak_ptrs st) HS); try done.
      * intros x. pose proof (refs_insert_over _ h _ None x Hh) as Hr.
        unfold srefs. lia.
      * rewrite map_size_insert_Some by (by eexists). lia.
    + by apply Safe_end_shared_null.
Qed.

Lemma step_reset (n : nat) (st : state) (h : nat) (cb : option nat) :
  Safe n st → (Z.of_nat n < size_max)%Z →
  shared_ptrs st !! h = Some cb →
  steps_to n (SharedPtr.reset inert h) st.
Proof.
  intros HS Hn Hh.
  destruct (let_go n st h cb HS Hn Hh) as (st1 & Hdec & Hsp & HS1 & _).
  unfold steps_to, SharedPtr.reset. msimpl. rewrite Hh. destruct cb as [b|].
  - unfold inert, mbind, M_bind, bind, ret in Hdec. rewrite Hdec. rewrite Hsp, Hh.
    eexists. split; [by left|done].
  - exists st. split; [by left|done].
Qed.

Lemma step_dtor (n : nat) (st : state) (h : nat) (cb : option nat) :
  Safe n st → (Z.of_nat n < size_max)%Z →
  shared_ptrs st !! h = Some cb →
  steps_to n (SharedPtr.dtor inert h) st.
Proof.
  intros HS Hn Hh.
  destruct (let_go n st h cb HS Hn Hh) as (st1 & Hdec & Hsp & _ & HS1).
  unfold steps_to, SharedPtr.dtor. msimpl. rewrite Hh.
  unfold inert, mret, M_ret, ret in Hdec. rewrite Hdec.
  eexists. split; [by left|done].
Qed.

Lemma step_copy_assign (n : nat) (st : state) (h other : nat)
    (cb cb_other : option nat) :
  Safe n st → (Z.of_nat n + 1 < size_max)%Z →
  shared_ptrs st !! h = Some cb → shared_ptrs st !! other = Some cb_other →
  steps_to n (SharedPtr.copy_assign inert h other) st.
Proof.
  intros HS Hn Hh Ho. unfold steps_to, SharedPtr.copy_assign. msimpl.
  rewrite Hh. case_decide as Heq.
  { exists st. split; [by left|done]. }
  destruct (let_go n st h cb HS ltac:(lia) Hh)
    as (st1 & Hdec & Hsp & HS1 & _).
  unfold inert, mret, M_ret, ret in Hdec. rewrite Hdec. rewrite Hsp, Ho.
  msimpl. rewrite ?Hsp, Hh.
  destruct cb_other as [b|].
  - assert (Ho1 : shared_ptrs (set_shared_ptrs <[h:=None]> st1) !! other
                  = Some (Some b)).
    { simpl_state. by rewrite lookup_insert_ne, Hsp. }
    destruct (Safe_shared_live n _ other b HS1 Ho1) as (blk & Hb & Hsr).
    destruct (safe_size n _ HS1) as [Hsz _].
    assert (Hrefs : ∀ x, refs (<[h:=Some b]> (shared_ptrs st1)) x
               = srefs (set_shared_ptrs <[h:=None]> st1) x
                 + ref_of (Some b) x).
    { intros x. unfold srefs. simpl_state.
      pose proof (refs_insert_over (<[h:=None]> (shared_ptrs st1)) h None
                    (Some b) x (lookup_insert_eq _ _ _)) as Hr.
      rewrite insert_insert_eq, ref_of_None in Hr. lia. }
    assert (Hsize : size (<[h:=Some b]> (shared_ptrs st1)) ≤ n).
    { simpl_state. rewrite map_size_insert_Some in *;
        try (rewrite Hsp; by eexists). done. }
    destruct (attach_strong n n (set_shared_ptrs <[h:=None]> st1) b
                (<[h:=Some b]> (shared_ptrs st1)) HS1
                ltac:(lia) ltac:(lia) Hsr Hrefs Hsize)
      as (c & st2 & Hinc & HS2).
    exists st2. split; [|done]. left.
    change (set_shared_ptrs (λ _, <[h:=Some b]> (shared_ptrs st1))
              (set_shared_ptrs <[h:=None]> st1))
      with (set_shared_ptrs <[h:=Some b]> st1) in Hinc.
    msimpl. by rewrite Hinc.
  - eexists. split; [by left|done].
Qed.

Lemma step_move_assign (n : nat) (st : state) (h other : nat)
    (cb cb_other : option nat) :
  Safe n st → (Z.of_nat n < size_max)%Z →
  shared_ptrs st !! h = Some cb → shared_ptrs st !! other = Some cb_other →
  steps_to n (SharedPtr.move_assign inert h other) st.
Proof.
  intros HS Hn Hh Ho. unfold steps_to, SharedPtr.move_assign. msimpl.
  rewrite Hh. case_decide as Heq.
  { exists st. split; [by left|done]. }
  destruct (let_go n st h cb HS Hn Hh) as (st1 & Hdec & Hsp & HS1 & _).
  unfold inert, mret, M_ret, ret in Hdec. rewrite Hdec. rewrite Hsp, Ho.
  msimpl. rewrite ?Hsp, Hh.
  msimpl. rewrite lookup_insert_ne, Hsp, Ho by done.
  eexists. split; [by left|].
  destruct (safe_size n _ HS1) as [Hsz Hwz]. simpl_state.
  apply (Safe_handles n n (set_shared_ptrs <[h:=None]> st1)
           (<[other:=None]> (<[h:=cb_other]> (shared_ptrs st1)))
           (weak_ptrs st1) HS1).
  - intros x. unfold srefs. simpl_state.
    assert (Ho1 : shared_ptrs st1 !! other = Some cb_other) by (by rewrite Hsp).
    pose proof (refs_insert_over (<[h:=cb_other]> (shared_ptrs st1)) other
                  cb_other None x) as Hr1.
    rewrite lookup_insert_ne in Hr1 by done. specialize (Hr1 Ho1).
    pose proof (refs_insert_over (<[h:=None]> (shared_ptrs st1)) h None
                  cb_other x (lookup_insert_eq _ _ _)) as Hr2.
    rewrite insert_insert_eq, !ref_of_None in *. lia.
  - done.
  - rewrite map_size_insert_Some in *;
      try (rewrite ?lookup_insert_ne, Hsp by done; by eexists).
    rewrite map_size_insert_Some in *; try (rewrite Hsp; by eexists). done.
  - done.
Qed.

(** The observers leave the state as it is. *)
Lemma step_use_count (n : nat) (st : state) (h : nat) (cb : option nat) :
  Safe n st → shared_ptrs st !! h = Some cb →
  steps_to n (SharedPtr.use_count h;; ret tt) st.
Proof.
  intros HS Hh. unfold steps_to, SharedPtr.use_count. msimpl. rewrite Hh.
  exists st. split; [|done]. left. destruct cb as [b|]; [|done].
  destruct (Safe_shared_live n st h b HS Hh) as (blk & Hb & _).
  msimpl. by rewrite Hb.
Qed.

Lemma step_get (n : nat) (st : state) (h : nat) (cb : option nat) :
  Safe n st → shared_ptrs st !! h = Some cb →
  steps_to n (SharedPtr.get h;; ret tt) st.
Proof.
  intros HS Hh. unfold steps_to, SharedPtr.get. msimpl. rewrite Hh.
  exists st. split; [|done]. left. destruct cb as [b|]; [|done].
  destruct (Safe_shared_live n st h b HS Hh) as (blk & Hb & _).
  msimpl. by rewrite Hb.
Qed.

Lemma step_expired (n : nat) (st : state) (w : nat) (b : addr) :
  Safe n st → weak_ptrs st !! w = Some (Some b) →
  steps_to n (WeakPtr.expired w;; ret tt) st.
Proof.
  intros HS Hw. unfold steps_to, WeakPtr.expired. msimpl. rewrite Hw.
  exists st. split; [|done]. left.
  destruct (Safe_weak_live n st w b HS Hw) as (blk & Hb & _).
  msimpl. by rewrite Hb.
Qed.

(** Construction of a [WeakPtr]. *)
Lemma step_weak_attach (n : nat) (st : state) (w : nat) (b : addr) :
  Safe n st → (Z.of_nat n + 1 < size_max)%Z →
  weak_ptrs st !! w = None → is_Some (blocks st !! b) →
  ∃ c st2, details.increase_weak_count b (set_weak_ptrs <[w:=Some b]> st)
           = Ok c st2
           ∧ Safe (S n) st2.
Proof.
  intros HS Hn Hw Hb. destruct (safe_size n st HS) as [_ Hwz].
  assert (Hrefs : ∀ x, refs (<[w:=Some b]> (weak_ptrs st)) x
                       = wrefs st x + ref_of (Some b) x).
  { intros x. by rewrite refs_insert_fresh. }
  assert (Hsize : size (<[w:=Some b]> (weak_ptrs st)) ≤ S n).
  { rewrite map_size_insert_None by done. lia. }
  apply (attach_weak n (S n) st b (<[w:=Some b]> (weak_ptrs st)) HS
           ltac:(lia) ltac:(lia) Hb Hrefs Hsize).
Qed.

Lemma step_from_shared (n : nat) (st : state) (w other : nat)
    (cb : option nat) :
  Safe n st → (Z.of_nat n + 1 < size_max)%Z →
  weak_ptrs st !! w = None → shared_ptrs st !! other = Some cb →
  steps_to (S n) (WeakPtr.from_shared w other) st.
Proof.
  intros HS Hn Hw Ho. unfold steps_to, WeakPtr.from_shared. msimpl.
  rewrite Ho. msimpl. rewrite Hw. destruct cb as [b|].
  - destruct (Safe_shared_live n st other b HS Ho) as (blk & Hb & _).
    destruct (step_weak_attach n st w b HS Hn Hw ltac:(by eexists))
      as (c & st2 & Hinc & HS2).
    exists st2. split; [|done]. left. msimpl. by rewrite Hinc.
  - eexists. split; [by left|]. by apply Safe_new_weak_null.
Qed.

Lemma step_weak_copy_ctor (n : nat) (st : state) (w other : nat) (b : addr) :
  Safe n st → (Z.of_nat n + 1 < size_max)%Z →
  weak_ptrs st !! w = None → weak_ptrs st !! other = Some (Some b) →
  steps_to (S n) (WeakPtr.copy_ctor w other) st.
Proof.
  intros HS Hn Hw Ho. unfold steps_to, WeakPtr.copy_ctor. msimpl.
  rewrite Ho. msimpl. rewrite Hw.
  destruct (Safe_weak_live n st other b HS Ho) as (blk & Hb & _).
  destruct (step_weak_attach n st w b HS Hn Hw ltac:(by eexists))
    as (c & st2 & Hinc & HS2).
  exists st2. split; [|done]. left. msimpl. by rewrite Hinc.
Qed.

Lemma step_weak_move_ctor (n : nat) (st : state) (w other : nat)
    (cb : option nat) :
  Safe n st →
  weak_ptrs st !! w = None → weak_ptrs st !! other = Some cb →
  steps_to (S n) (WeakPtr.move_ctor w other) st.
Proof.
  intros HS Hw Ho. unfold steps_to, WeakPtr.move_ctor. msimpl. rewrite Ho.
  msimpl. rewrite Hw. msimpl.
  assert (Hne : w ≠ other) by congruence.
  rewrite lookup_insert_ne, Ho by done.
  eexists. split; [by left|].
  destruct (safe_size n st HS) as [Hsz Hwz].
  apply (Safe_handles n (S n) st (shared_ptrs st)
           (<[other:=None]> (<[w:=cb]> (weak_ptrs st))) HS).
  - done.
  - intros x.
    pose proof (refs_insert_over (<[w:=cb]> (weak_ptrs st)) other cb None x)
      as Hr.
    rewrite lookup_insert_ne in Hr by done. specialize (Hr Ho).
    rewrite (refs_insert_fresh (weak_ptrs st) w cb x Hw), ref_of_None in Hr.
    unfold wrefs. lia.
  - lia.
  - rewrite map_size_insert_Some, map_size_insert_None; [lia | done |].
    rewrite lookup_insert_ne by done. by eexists.
Qed.

Lemma step_weak_dtor (n : nat) (st : state) (w : nat) (cb : option nat) :
  Safe n st → (Z.of_nat n < size_max)%Z →
  weak_ptrs st !! w = Some cb →
  steps_to n (WeakPtr.dtor w) st.
Proof.
  intros HS Hn Hw. unfold steps_to, WeakPtr.dtor. msimpl. rewrite Hw.
  destruct cb as [b|].
  - destruct (drop_weak n st w b HS Hn Hw) as (st1 & Hdec & Hsp & Hwp & Hsafe).
    rewrite Hdec. eexists. split; [by left|].
    replace (set_weak_ptrs (delete w) st1)
      with (set_weak_ptrs (λ _, delete w (weak_ptrs st)) st1)
      by (unfold set_weak_ptrs; by rewrite Hwp).
    destruct (safe_size n st HS) as [_ Hwz].
    apply Hsafe.
    + intros x. apply (refs_delete_over _ w _ x Hw).
    + rewrite map_size_delete_Some by (by eexists). lia.
  - eexists. split; [by left|]. by apply Safe_end_weak_null.
Qed.

(** One operation of a sound program. *)
Lemma sound_step (n : nat) (st : state) (o : op) :
  Safe n st → (Z.of_nat n + 1 < size_max)%Z →
  sound_op o = true → well_used o st = true →
  steps_to (S n) (exec o) st.
Proof.
  intros HS Hn Ho Hu.
  assert (Hup : ∀ m, steps_to n m st → steps_to (S n) m st).
  { intros m (st' & Hm & HS'). exists st'. split; [done|].
    eapply Safe_mono; [|done]. lia. }
  destruct o as [h|h|h [p|] oom|h [p|] d f|h [p|] d f|h f|h f
                 |h o|h o|h o|h o|h o|h o|h o|h o|h|h|h|h
                 |w|w o|w o|w o|w o|w o|w|h w|w];
    try discriminate Ho; cbn [exec well_used sound_op] in *;
    repeat match goal with
           | H : _ && _ = true |- _ => apply andb_prop in H as [? ?]
           | H : negb _ = true |- _ => apply negb_true_iff in H
           | H : is_free _ _ = true |- _ => apply is_free_spec in H
           | H : is_live _ _ = true |- _ => apply is_live_spec in H as [? ?]
           | H : is_bound _ _ = true |- _ => apply is_bound_spec in H as [? ?]
           end.
  - by apply step_default_ctor.
  - by apply step_default_ctor.
  - by apply step_raw_ctor.
  - by apply step_deleter_ctor.
  - by apply step_deleter_alloc_ctor.
  - by apply step_AllocateShared.
  - by apply step_AllocateShared.
  - by eapply step_copy_ctor.
  - by eapply step_move_ctor.
  - apply Hup. eapply step_copy_assign; [done|lia|done|done].
  - apply Hup. eapply step_move_assign; [done|lia|done|done].
  - apply Hup. eapply step_reset; [done|lia|done].
  - apply Hup. by eapply step_use_count.
  - apply Hup. by eapply step_get.
  - apply Hup. eapply step_dtor; [done|lia|done].
  - by apply step_weak_default_ctor.
  - by eapply step_from_shared.
  - by eapply step_weak_copy_ctor.
  - by eapply step_weak_move_ctor.
  - apply Hup. by eapply step_expired.
  - apply Hup. eapply step_weak_dtor; [done|lia|done].
Qed.

(** A sound program never runs into undefined behaviour, and every state
    it passes through is sound. *)
Lemma sound_run (ops : list op) (n : nat) (st : state) :
  Safe n st → (Z.of_nat (n + length ops) < size_max)%Z →
  sound_program ops st = true →
  fst (run ops st) = Finished ∧ Safe (n + length ops) (snd (run ops st)).
Proof.
  revert n st. induction ops as [|o rest IH]; intros n st HS Hn Hp.
  - simpl. split; [done|]. by rewrite Nat.add_0_r.
  - cbn [sound_program] in Hp.
    apply andb_prop in Hp as [Hp Hrest]. apply andb_prop in Hp as [Ho Hu].
    cbn [length] in *.
    destruct (sound_step n st o HS ltac:(lia) Ho Hu) as (st' & Hex & HS').
    cbn [run].
    replace (n + S (length rest)) with (S n + length rest) by lia.
    destruct Hex as [Hex|Hex]; rewrite Hex in *; cbn [final] in Hrest;
      apply IH; try done; lia.
Qed.

(** ** Sound programs *)

Lemma sound_program_Safe (ops : list op) :
  sound_program ops init = true → (Z.of_nat (length ops) < size_max)%Z →
  fst (run ops init) = Finished ∧ Safe (length ops) (after ops).
Proof. intros Hs Hl. by apply (sound_run ops 0 init Safe_init). Qed.

Lemma to_int_small (z : Z) : (0 ≤ z < 2 ^ 31)%Z → to_int z = z.
Proof.
  intros Hz. unfold to_int. rewrite Z.mod_small by lia.
  destruct (Z.ltb_spec z (2 ^ 31)); [done | lia].
Qed.

Lemma once_log_unique (l1 l2 : list event) (e1 : event) (b : addr) :
  once_log (l1 ++ e1 :: l2) → releases_object b e1 →
  ∀ e2, In e2 (l1 ++ l2) → ¬ releases_object b e2.
Proof.
  induction l1 as [|e l1 IH]; simpl; intros [Hok Hlog] Hrel e2 Hin Hrel2.
  - destruct e1; try done; simpl in Hrel; subst.
    + by apply (Hok e2 Hin).
    + destruct Hok as [_ Hok]. by apply (Hok e2 Hin).
  - destruct Hin as [<-|Hin]; [|by apply (IH Hlog Hrel e2 Hin)].
    assert (Hin1 : In e1 (l1 ++ e1 :: l2)).
    { apply in_app_iff. right. by left. }
    destruct e; try done; simpl in Hrel2; subst.
    + by apply (Hok e1 Hin1).
    + destruct Hok as [_ Hok]. by apply (Hok e1 Hin1).
Qed.

Lemma once_log_deleter (l : list event) (b : addr) (d : deleter)
    (p : option object) :
  once_log l → In (EvDeleter b d p) l → p ≠ None.
Proof.
  induction l as [|e l IH]; simpl; [done|]. intros [Hok Hlog] [->|Hin].
  - by destruct Hok.
  - by apply IH.
Qed.

(** X2.  After a sound program of fewer than 2^64 operations the counters
    of every control block are exact: [shared_count] is the number of
    [SharedPtr] objects that hold the block and [weak_count] the number of
    [WeakPtr] objects that do. *)
Theorem counters_count_handles (ops : list op) (b : addr) (blk : block)
    (Hsound : sound_program ops init = true)
    (Hlen : (Z.of_nat (length ops) < size_max)%Z)
    (Hb : blocks (after ops) !! b = Some blk) :
  shared_count blk = Z.of_nat (srefs (after ops) b)
  ∧ weak_count blk = Z.of_nat (wrefs (after ops) b).
Proof.
  destruct (sound_program_Safe ops Hsound Hlen) as [_ HS].
  destruct (safe_live _ _ HS b blk Hb) as (Hs & Hw & _). done.
Qed.

Lemma counters_count_handles_witness :
  sound_program shared_and_observed init = true
  ∧ (Z.of_nat (length shared_and_observed) < size_max)%Z
  ∧ blocks (after shared_and_observed) !! 1
    = Some (Block KBlockVault (Some (ValueOf 1)) 1 2)
  ∧ 1%Z = Z.of_nat (srefs (after shared_and_observed) 1)
  ∧ 2%Z = Z.of_nat (wrefs (after shared_and_observed) 1).
Proof.
  split; [vm_compute; reflexivity|]. split; [reflexivity|].
  split; [vm_compute; reflexivity|].
  apply (counters_count_handles shared_and_observed 1
           (Block KBlockVault (Some (ValueOf 1)) 1 2));
    [vm_compute; reflexivity | reflexivity | vm_compute; reflexivity].
Defined.

(** X3.  After a sound program of fewer than 2^31 operations, [use_count]
    returns the number of [SharedPtr] objects that share the block of the
    handle it is called on, which is at least 1, and 0 on an empty
    handle; the state is left as it is. *)
Theorem use_count_is_number_of_owners (ops : list op) (h : handle)
    (cb : option nat)
    (Hsound : sound_program ops init = true)
    (Hlen : (Z.of_nat (length ops) < 2 ^ 31)%Z)
    (Hh : shared_ptrs (after ops) !! h = Some cb) :
  SharedPtr.use_count h (after ops)
  = Ok (match cb with
        | Some b => Z.of_nat (srefs (after ops) b)
        | None => 0%Z
        end) (after ops)
  ∧ ∀ b, cb = Some b → 1 ≤ srefs (after ops) b.
Proof.
  assert (Hlen' : (Z.of_nat (length ops) < size_max)%Z).
  { unfold size_max. lia. }
  destruct (sound_program_Safe ops Hsound Hlen') as [_ HS].
  unfold SharedPtr.use_count. msimpl. rewrite Hh. destruct cb as [b|].
  - destruct (Safe_shared_live _ _ h b HS Hh) as (blk & Hb & Hsr).
    destruct (safe_live _ _ HS b blk Hb) as (Hs & _).
    destruct (safe_size _ _ HS) as [Hsz _].
    pose proof (refs_le_size (shared_ptrs (after ops)) b) as Hle.
    unfold srefs in *. split.
    + msimpl. rewrite Hb, Hs, to_int_small; [done | lia].
    + intros ? [= <-]. lia.
  - split; [done|]. by intros.
Qed.

Lemma use_count_is_number_of_owners_witness :
  sound_program shared_and_observed init = true
  ∧ (Z.of_nat (length shared_and_observed) < 2 ^ 31)%Z
  ∧ shared_ptrs (after shared_and_observed) !! 3 = Some (Some 1)
  ∧ SharedPtr.use_count 3 (after shared_and_observed)
    = Ok (Z.of_nat (srefs (after shared_and_observed) 1))
        (after shared_and_observed)
  ∧ ∀ b, Some 1 = Some b → 1 ≤ srefs (after shared_and_observed) b.
Proof.
  split; [vm_compute; reflexivity|]. split; [reflexivity|].
  split; [vm_compute; reflexivity|].
  apply (use_count_is_number_of_owners shared_and_observed 3 (Some 1));
    [vm_compute; reflexivity | reflexivity | vm_compute; reflexivity].
Defined.

(** X4.  After a sound program of fewer than 2^64 operations, the object
    behind a non-empty [SharedPtr] is alive: [get] returns a non-null
    pointer, and neither the deleter nor the destructor of the value has
    run for its block. *)
Theorem owned_object_is_alive (ops : list op) (h : handle) (b : addr)
    (Hsound : sound_program ops init = true)
    (Hlen : (Z.of_nat (length ops) < size_max)%Z)
    (Hh : shared_ptrs (after ops) !! h = Some (Some b)) :
  (∃ o, SharedPtr.get h (after ops) = Ok (Some o) (after ops))
  ∧ ∀ e, In e (events (after ops)) → ¬ releases_object b e.
Proof.
  destruct (sound_program_Safe ops Hsound Hlen) as [_ HS].
  destruct (Safe_shared_live _ _ h b HS Hh) as (blk & Hb & Hsr).
  destruct (safe_live _ _ HS b blk Hb) as (_ & _ & _ & Hlive).
  destruct (Hlive Hsr) as [Hp Hrel]. split.
  - unfold SharedPtr.get. msimpl. rewrite Hh. msimpl. rewrite Hb.
    destruct (pointer blk) as [o|]; [by exists o | done].
  - intros e He Hro. apply Hrel. by apply (safe_object _ _ HS e b).
Qed.

Lemma owned_object_is_alive_witness :
  sound_program shared_and_observed init = true
  ∧ (Z.of_nat (length shared_and_observed) < size_max)%Z
  ∧ shared_ptrs (after shared_and_observed) !! 3 = Some (Some 1)
  ∧ (∃ o, SharedPtr.get 3 (after shared_and_observed)
          = Ok (Some o) (after shared_and_observed))
  ∧ ∀ e, In e (events (after shared_and_observed)) → ¬ releases_object 1 e.
Proof.
  split; [vm_compute; reflexivity|]. split; [reflexivity|].
  split; [vm_compute; reflexivity|].
  apply (owned_object_is_alive shared_and_observed 3 1);
    [vm_compute; reflexivity | reflexivity | vm_compute; reflexivity].
Defined.

(** X5.  After a sound program of fewer than 2^64 operations, [expired] on
    a [WeakPtr] that holds a block returns [true] exactly when no
    [SharedPtr] object holds that block, and in that case
    [release_shared] has run for the block. *)
Theorem expired_iff_no_owner (ops : list op) (w : handle) (b : addr)
    (Hsound : sound_program ops init = true)
    (Hlen : (Z.of_nat (length ops) < size_max)%Z)
    (Hw : weak_ptrs (after ops) !! w = Some (Some b)) :
  WeakPtr.expired w (after ops)
  = Ok (bool_decide (srefs (after ops) b = 0)) (after ops)
  ∧ (srefs (after ops) b = 0 → In (EvReleaseShared b) (events (after ops))).
Proof.
  destruct (sound_program_Safe ops Hsound Hlen) as [_ HS].
  destruct (Safe_weak_live _ _ w b HS Hw) as (blk & Hb & Hwr).
  destruct (safe_live _ _ HS b blk Hb) as (Hs & _ & Hdead & _). split.
  - unfold WeakPtr.expired. msimpl. rewrite Hw. msimpl. rewrite Hb, Hs.
    f_equal. destruct (Z.eqb_spec (Z.of_nat (srefs (after ops) b)) 0).
    + rewrite bool_decide_eq_true_2; [done | lia].
    + rewrite bool_decide_eq_false_2; [done | lia].
  - intros H0. by destruct (Hdead H0) as (_ & _ & Hrel).
Qed.

Lemma expired_iff_no_owner_witness :
  sound_program observed_after_owner init = true
  ∧ (Z.of_nat (length observed_after_owner) < size_max)%Z
  ∧ weak_ptrs (after observed_after_owner) !! 1 = Some (Some 1)
  ∧ WeakPtr.expired 1 (after observed_after_owner)
    = Ok (bool_decide (srefs (after observed_after_owner) 1 = 0))
        (after observed_after_owner)
  ∧ (srefs (after observed_after_owner) 1 = 0
     → In (EvReleaseShared 1) (events (after observed_after_owner))).
Proof.
  split; [vm_compute; reflexivity|]. split; [reflexivity|].
  split; [vm_compute; reflexivity|].
  apply (expired_iff_no_owner observed_after_owner 1 1);
    [vm_compute; reflexivity | reflexivity | vm_compute; reflexivity].
Defined.

(** X6.  In the log of a sound program of fewer than 2^64 operations the
    managed object of a block is destroyed at most once (one call of the
    deleter, or one destruction of the value of a [BlockVault]), and the
    deleter is never given a null pointer. *)
Theorem object_destroyed_at_most_once (ops : list op)
    (Hsound : sound_program ops init = true)
    (Hlen : (Z.of_nat (length ops) < size_max)%Z) :
  (∀ (b : addr) (pre post : list event) (e : event),
     events (after ops) = pre ++ e :: post → releases_object b e →
     ∀ e', In e' (pre ++ post) → ¬ releases_object b e')
  ∧ ∀ b d p, In (EvDeleter b d p) (events (after ops)) → p ≠ None.
Proof.
  destruct (sound_program_Safe ops Hsound Hlen) as [_ HS].
  pose proof (safe_log _ _ HS) as Hlog. split.
  - intros b pre post e Hev Hrel. rewrite Hev in Hlog.
    by apply (once_log_unique pre post e b).
  - intros b d p. by apply once_log_deleter.
Qed.

Lemma object_destroyed_at_most_once_witness :
  sound_program main_program init = true
  ∧ (Z.of_nat (length main_program) < size_max)%Z
  ∧ (∀ (b : addr) (pre post : list event) (e : event),
       events (after main_program) = pre ++ e :: post →
       releases_object b e →
       ∀ e', In e' (pre ++ post) → ¬ releases_object b e')
  ∧ ∀ b d p, In (EvDeleter b d p) (events (after main_program)) →
             p ≠ None.
Proof.
  split; [vm_compute; reflexivity|]. split; [reflexivity|].
  apply (object_destroyed_at_most_once main_program);
    [vm_compute; reflexivity | reflexivity].
Defined.

(** X7.  At the end of a sound program of fewer than 2^64 operations, over
    managed objects that hold no handle and whose destruction does not
    throw, the storage of a control block is held exactly if some
    [SharedPtr] or [WeakPtr] object holds the block: no block is left
    without a handle, and no handle is left on a block that has been given
    back. *)
Theorem storage_held_iff_referenced (ops : list op) (b : addr)
    (Hsound : sound_program ops init = true)
    (Hlen : (Z.of_nat (length ops) < size_max)%Z) :
  (b ∈ storage (after ops)
   ↔ srefs (after ops) b ≠ 0 ∨ wrefs (after ops) b ≠ 0)
  ∧ (is_Some (blocks (after ops) !! b)
     ↔ srefs (after ops) b ≠ 0 ∨ wrefs (after ops) b ≠ 0).
Proof.
  destruct (sound_program_Safe ops Hsound Hlen) as [_ HS].
  assert (Hblk : is_Some (blocks (after ops) !! b)
                 ↔ srefs (after ops) b ≠ 0 ∨ wrefs (after ops) b ≠ 0).
  { split.
    - intros [blk Hb].
      destruct (safe_live _ _ HS b blk Hb) as (_ & _ & Hdead & _).
      destruct (decide (srefs (after ops) b = 0)) as [H0|H0]; [|by left].
      right. by destruct (Hdead H0).
    - intros Hrefs. destruct (blocks (after ops) !! b) eqn:Hb; [by eexists|].
      destruct (safe_dead _ _ HS b Hb) as [Hs Hw]. lia. }
  split; [|done]. by rewrite (safe_storage _ _ HS).
Qed.

Lemma storage_held_iff_referenced_witness :
  sound_program main_program init = true
  ∧ (Z.of_nat (length main_program) < size_max)%Z
  ∧ (1 ∈ storage (after main_program)
     ↔ srefs (after main_program) 1 ≠ 0
       ∨ wrefs (after main_program) 1 ≠ 0)
  ∧ (is_Some (blocks (after main_program) !! 1)
     ↔ srefs (after main_program) 1 ≠ 0
       ∨ wrefs (after main_program) 1 ≠ 0).
Proof.
  split; [vm_compute; reflexivity|]. split; [reflexivity|].
  apply (storage_held_iff_referenced main_program 1);
    [vm_compute; reflexivity | reflexivity].
Defined.

(** ** Round trips *)

Lemma with_shared_count_id (blk : block) :
  details.with_shared_count (shared_count blk) blk = blk.
Proof. by destruct blk. Qed.

Lemma with_weak_count_id (blk : block) :
  details.with_weak_count (weak_count blk) blk = blk.
Proof. by destruct blk. Qed.

Lemma wrap_succ_pred (z : Z) :
  (0 ≤ z < size_max - 1)%Z → wrap (wrap (z + 1) - 1) = z.
Proof.
  intros Hz. rewrite (wrap_small (z + 1)) by lia.
  replace (z + 1 - 1)%Z with z by lia. apply wrap_small. lia.
Qed.

Lemma decrease_shared_counter_shared (del : M unit) (b : addr) (st : state)
    (blk : block) :
  blocks st !! b = Some blk → wrap (shared_count blk - 1) ≠ 0%Z →
  details.decrease_shared_counter del b st
  = Ok tt
      (set_blocks
         (insert b (details.with_shared_count (wrap (shared_count blk - 1)) blk))
         st).
Proof.
  intros Hb Hn. unfold details.decrease_shared_counter. msimpl. rewrite Hb.
  msimpl. by destruct (Z.eqb_spec (wrap (shared_count blk - 1)) 0).
Qed.

(** X8.  Copy construction followed by the destruction of the copy leaves
    the whole program state as it was: the count goes up and comes back,
    and nothing is released.  This holds whatever the managed object is:
    its destruction [del] is not run. *)
Theorem copy_then_destroy_restores (del : M unit) (st : state)
    (h other : handle) (b : addr) (blk : block)
    (Hh : shared_ptrs st !! h = None)
    (Ho : shared_ptrs st !! other = Some (Some b))
    (Hb : blocks st !! b = Some blk)
    (Hp : pointer blk ≠ None)
    (Hc : (0 < shared_count blk < size_max - 1)%Z) :
  (SharedPtr.copy_ctor h other;; SharedPtr.dtor del h) st = Ok tt st.
Proof.
  unfold SharedPtr.copy_ctor, SharedPtr.dtor. msimpl. rewrite Ho. msimpl.
  rewrite Hh. msimpl. rewrite Hb. destruct (pointer blk) as [o|]; [|done].
  msimpl.
  rewrite (increase_shared_count_live b _ blk) by done.
  msimpl.
  rewrite (decrease_shared_counter_shared del b _
             (details.with_shared_count (wrap (shared_count blk + 1)) blk));
    [| by msimpl | cbn [shared_count details.with_shared_count];
                   rewrite wrap_succ_pred; lia].
  f_equal. cbn [shared_count details.with_shared_count].
  rewrite wrap_succ_pred by lia.
  destruct st as [bs sg na sp wp ev]. unfold set_blocks, set_shared_ptrs.
  simpl in *. f_equal.
  - rewrite insert_insert_eq. destruct blk as [k p sc wc]. simpl.
    by apply insert_id.
  - by apply delete_insert_id.
Qed.

Lemma copy_then_destroy_restores_witness :
  shared_ptrs two_strong !! 3 = None
  ∧ shared_ptrs two_strong !! 1 = Some (Some 1)
  ∧ blocks two_strong !! 1
    = Some (Block (KControlBlock DefaultDelete) obj7 2 0)
  ∧ (SharedPtr.copy_ctor 3 1;; SharedPtr.dtor inert 3) two_strong = Ok tt two_strong.
Proof.
  split; [vm_compute; reflexivity|]. split; [vm_compute; reflexivity|].
  split; [vm_compute; reflexivity|].
  apply (copy_then_destroy_restores inert two_strong 3 1 1
           (Block (KControlBlock DefaultDelete) obj7 2 0));
    [vm_compute; reflexivity | vm_compute; reflexivity
    | vm_compute; reflexivity | done | done].
Defined.

(** X9.  A [WeakPtr] made from a [SharedPtr] and then destroyed leaves the
    whole program state as it was: observing a live object and forgetting
    it again releases nothing. *)
Theorem observe_then_forget_restores (st : state) (w other : handle)
    (b : addr) (blk : block)
    (Hw : weak_ptrs st !! w = None)
    (Ho : shared_ptrs st !! other = Some (Some b))
    (Hb : blocks st !! b = Some blk)
    (Hs : shared_count blk ≠ 0%Z)
    (Hc : (0 ≤ weak_count blk < size_max - 1)%Z) :
  (WeakPtr.from_shared w other;; WeakPtr.dtor w) st = Ok tt st.
Proof.
  unfold WeakPtr.from_shared, WeakPtr.dtor. msimpl. rewrite Ho. msimpl.
  rewrite Hw. msimpl.
  rewrite (increase_weak_count_live b _ blk) by done.
  msimpl.
  rewrite (decrease_weak_counter_keep b _
             (details.with_weak_count (wrap (weak_count blk + 1)) blk));
    [| by msimpl | cbn [shared_count weak_count details.with_weak_count];
                   by intros [? _]].
  f_equal. cbn [weak_count details.with_weak_count].
  rewrite wrap_succ_pred by lia.
  destruct st as [bs sg na sp wp ev]. unfold set_blocks, set_weak_ptrs.
  simpl in *. f_equal.
  - rewrite insert_insert_eq. destruct blk as [k p sc wc]. simpl.
    by apply insert_id.
  - by apply delete_insert_id.
Qed.

Lemma observe_then_forget_restores_witness :
  weak_ptrs two_strong !! 1 = None
  ∧ shared_ptrs two_strong !! 2 = Some (Some 1)
  ∧ blocks two_strong !! 1
    = Some (Block (KControlBlock DefaultDelete) obj7 2 0)
  ∧ (WeakPtr.from_shared 1 2;; WeakPtr.dtor 1) two_strong = Ok tt two_strong.
Proof.
  split; [vm_compute; reflexivity|]. split; [vm_compute; reflexivity|].
  split; [vm_compute; reflexivity|].
  apply (observe_then_forget_restores two_strong 1 2 1
           (Block (KControlBlock DefaultDelete) obj7 2 0));
    [vm_compute; reflexivity | vm_compute; reflexivity
    | vm_compute; reflexivity | done | done].
Defined.

(** ** The last handle on a block *)

Lemma decrease_shared_counter_lets_go (n : nat) (st : state) (h b : nat)
    (blk : block) :
  Safe n st → (Z.of_nat n < size_max)%Z →
  shared_ptrs st !! h = Some (Some b) → blocks st !! b = Some blk →
  ∃ st1, details.decrease_shared_counter inert b st = Ok tt st1
         ∧ shared_ptrs st1 = shared_ptrs st
         ∧ lets_go st st1 b blk.
Proof.
  intros HS Hn Hh Hb.
  pose proof (refs_pos _ _ _ Hh) as Hsr.
  destruct (safe_live n st HS b blk Hb) as (Hsc & Hwc & _ & Hlive).
  destruct (Hlive Hsr) as [Hp Hrel].
  pose proof (refs_le_size (shared_ptrs st) b) as Hle.
  destruct (safe_size n st HS) as [Hsz Hwz]. unfold lets_go, srefs, wrefs in *.
  assert (Hwrap : wrap (shared_count blk - 1)
                  = (Z.of_nat (refs (shared_ptrs st) b) - 1)%Z).
  { rewrite Hsc. apply wrap_small. lia. }
  assert (Hnew : ¬ In (object_release b blk) (events st)).
  { intros Hin. apply Hrel. apply (safe_object n st HS _ b Hin).
    by apply object_release_spec. }
  destruct (decide (refs (shared_ptrs st) b = 1)) as [Hone|Hmore].
  - destruct (decide (weak_count blk = 0%Z)) as [Hw0|Hw0].
    + rewrite (decrease_shared_counter_free b st blk Hb) by (done || lia).
      eexists. split; [done|]. split; [done|]. split; [|done].
      intros _. cbn [events storage]. split.
      * apply in_app_iff. left. unfold last_strong_events.
        right. apply in_app_iff. right. right. by left.
      * split; [done|].
        split; [rewrite elem_of_difference, elem_of_singleton; tauto | lia].
    + rewrite (decrease_shared_counter_release b st blk Hb) by (done || lia).
      eexists. split; [done|]. split; [done|]. split; [|done].
      intros _. cbn [events storage]. split; [by left|]. split; [done|].
      split; [lia|]. intros _. apply (safe_storage n st HS). by eexists.
  - rewrite (decrease_shared_counter_keep b st blk Hb) by lia.
    eexists. split; [done|]. split; [done|]. split; [done|].
    intros _. split; [done|]. split; [done|].
    unfold count_of. simpl_state. rewrite lookup_insert_eq. simpl.
    f_equal. rewrite Hwrap. lia.
Qed.

Lemma decrease_weak_counter_forgets (n : nat) (st : state) (w b : nat)
    (blk : block) :
  Safe n st → (Z.of_nat n < size_max)%Z →
  weak_ptrs st !! w = Some (Some b) → blocks st !! b = Some blk →
  ∃ st1, details.decrease_weak_counter b st = Ok tt st1
         ∧ weak_ptrs st1 = weak_ptrs st
         ∧ forgets st st1 b blk.
Proof.
  intros HS Hn Hw Hb.
  pose proof (refs_pos _ _ _ Hw) as Hwr.
  destruct (safe_live n st HS b blk Hb) as (Hsc & Hwc & _ & _).
  pose proof (refs_le_size (weak_ptrs st) b) as Hle.
  destruct (safe_size n st HS) as [Hsz Hwz]. unfold forgets, srefs, wrefs in *.
  assert (Hwrap : wrap (weak_count blk - 1)
                  = (Z.of_nat (refs (weak_ptrs st) b) - 1)%Z).
  { rewrite Hwc. apply wrap_small. lia. }
  destruct (decide (refs (shared_ptrs st) b = 0
                    ∧ refs (weak_ptrs st) b = 1)) as [[Hs0 Hw1]|Hkeep].
  - rewrite (decrease_weak_counter_free b st blk Hb) by lia.
    eexists. split; [done|]. split; [done|]. split; [|by intros []].
    intros _. cbn [events storage blocks].
    split; [rewrite elem_of_difference, elem_of_singleton; tauto|].
    split; [by rewrite lookup_delete_eq|]. split.
    + apply in_app_iff. left. by left.
    + intros e [He|He]%in_app_iff Hro; [|done].
      by destruct (last_weak_keeps_object b b blk e He).
  - rewrite (decrease_weak_counter_keep b st blk Hb) by lia.
    eexists. split; [done|]. split; [done|]. split; [done|].
    intros _. split; [done|]. split; [done|].
    unfold weak_count_of. simpl_state. rewrite lookup_insert_eq. simpl.
    f_equal. rewrite Hwrap. lia.
Qed.

(** X10.  After a sound program of fewer than 2^64 operations, a
    [SharedPtr] that holds a block whose managed object holds no handle
    and does not throw when destroyed ([inert]) lets go of the block in
    the destructor and in [reset] alike: the last owner has the managed
    object destroyed there and then, and the storage of the block is given
    back unless a [WeakPtr] still holds it; an owner that is not the last
    changes nothing but the count. *)
Theorem last_owner_destroys_object (ops : list op) (h : handle) (b : addr)
    (blk : block)
    (Hsound : sound_program ops init = true)
    (Hlen : (Z.of_nat (length ops) < size_max)%Z)
    (Hh : shared_ptrs (after ops) !! h = Some (Some b))
    (Hb : blocks (after ops) !! b = Some blk) :
  (∃ st', SharedPtr.dtor inert h (after ops) = Ok tt st'
          ∧ shared_ptrs st' !! h = None
          ∧ lets_go (after ops) st' b blk)
  ∧ (∃ st', SharedPtr.reset inert h (after ops) = Ok tt st'
            ∧ shared_ptrs st' !! h = Some None
            ∧ lets_go (after ops) st' b blk).
Proof.
  destruct (sound_program_Safe ops Hsound Hlen) as [_ HS].
  destruct (decrease_shared_counter_lets_go _ _ h b blk HS Hlen Hh Hb)
    as (st1 & Hdec & Hsp & Hgo).
  split.
  - unfold SharedPtr.dtor. msimpl. rewrite Hh, Hdec.
    eexists. split; [done|]. split; [by simpl_state; rewrite lookup_delete_eq|].
    exact Hgo.
  - unfold SharedPtr.reset. msimpl. rewrite Hh. msimpl. rewrite Hdec, Hsp, Hh.
    eexists. split; [done|]. split; [by simpl_state; rewrite lookup_insert_eq|].
    exact Hgo.
Qed.

Lemma last_owner_destroys_object_witness :
  sound_program shared_and_observed init = true
  ∧ (Z.of_nat (length shared_and_observed) < size_max)%Z
  ∧ shared_ptrs (after shared_and_observed) !! 3 = Some (Some 1)
  ∧ blocks (after shared_and_observed) !! 1
    = Some (Block KBlockVault (Some (ValueOf 1)) 1 2)
  ∧ (∃ st', SharedPtr.dtor inert 3 (after shared_and_observed) = Ok tt st'
            ∧ shared_ptrs st' !! 3 = None
            ∧ lets_go (after shared_and_observed) st' 1
                (Block KBlockVault (Some (ValueOf 1)) 1 2))
  ∧ (∃ st', SharedPtr.reset inert 3 (after shared_and_observed) = Ok tt st'
            ∧ shared_ptrs st' !! 3 = Some None
            ∧ lets_go (after shared_and_observed) st' 1
                (Block KBlockVault (Some (ValueOf 1)) 1 2)).
Proof.
  split; [vm_compute; reflexivity|]. split; [reflexivity|].
  split; [vm_compute; reflexivity|]. split; [vm_compute; reflexivity|].
  apply (last_owner_destroys_object shared_and_observed 3 1
           (Block KBlockVault (Some (ValueOf 1)) 1 2));
    [vm_compute; reflexivity | reflexivity
    | vm_compute; reflexivity | vm_compute; reflexivity].
Defined.

(** X11.  After a sound program of fewer than 2^64 operations, the
    destructor of a [WeakPtr] that holds a block gives the storage of the
    block back exactly when it is the last observer and no owner is left,
    and it never touches the managed object; otherwise it changes nothing
    but the count. *)
Theorem last_observer_frees_block (ops : list op) (w : handle) (b : addr)
    (blk : block)
    (Hsound : sound_program ops init = true)
    (Hlen : (Z.of_nat (length ops) < size_max)%Z)
    (Hw : weak_ptrs (after ops) !! w = Some (Some b))
    (Hb : blocks (after ops) !! b = Some blk) :
  ∃ st', WeakPtr.dtor w (after ops) = Ok tt st'
         ∧ weak_ptrs st' !! w = None
         ∧ forgets (after ops) st' b blk.
Proof.
  destruct (sound_program_Safe ops Hsound Hlen) as [_ HS].
  destruct (decrease_weak_counter_forgets _ _ w b blk HS Hlen Hw Hb)
    as (st1 & Hdec & Hwp & Hgo).
  unfold WeakPtr.dtor. msimpl. rewrite Hw, Hdec.
  eexists. split; [done|]. split; [by simpl_state; rewrite lookup_delete_eq|].
  exact Hgo.
Qed.

Lemma last_observer_frees_block_witness :
  sound_program observed_after_owner init = true
  ∧ (Z.of_nat (length observed_after_owner) < size_max)%Z
  ∧ weak_ptrs (after observed_after_owner) !! 1 = Some (Some 1)
  ∧ blocks (after observed_after_owner) !! 1
    = Some (Block (KControlBlock (CustomDeleter 0)) None 0 1)
  ∧ ∃ st', WeakPtr.dtor 1 (after observed_after_owner) = Ok tt st'
           ∧ weak_ptrs st' !! 1 = None
           ∧ forgets (after observed_after_owner) st' 1
               (Block (KControlBlock (CustomDeleter 0)) None 0 1).
Proof.
  split; [vm_compute; reflexivity|]. split; [reflexivity|].
  split; [vm_compute; reflexivity|]. split; [vm_compute; reflexivity|].
  apply (last_observer_frees_block observed_after_owner 1 1
           (Block (KControlBlock (CustomDeleter 0)) None 0 1));
    [vm_compute; reflexivity | reflexivity
    | vm_compute; reflexivity | vm_compute; reflexivity].
Defined.

(** ** Assignment *)

Lemma assign_as_destroy_construct (n : nat) (st : state) (h other : nat)
    (cb cb_other : option nat) :
  Safe n st → (Z.of_nat n < size_max)%Z → h ≠ other →
  shared_ptrs st !! h = Some cb → shared_ptrs st !! other = Some cb_other →
  SharedPtr.copy_assign inert h other st
  = (SharedPtr.dtor inert h;; SharedPtr.copy_ctor h other) st
  ∧ SharedPtr.move_assign inert h other st
    = (SharedPtr.dtor inert h;; SharedPtr.move_ctor h other) st.
Proof.
  intros HS Hn Hne Hh Ho.
  destruct (let_go n st h cb HS Hn Hh) as (st1 & Hdec & Hsp & _ & HS1).
  unfold inert, mret, M_ret, ret in Hdec.
  assert (Ho1 : shared_ptrs (set_shared_ptrs (delete h) st1) !! other
                = Some cb_other).
  { simpl_state. by rewrite lookup_delete_ne, Hsp. }
  assert (Ho2 : delete h (shared_ptrs st) !! other = Some cb_other).
  { by rewrite lookup_delete_ne. }
  assert (Hins : ∀ x, set_shared_ptrs <[h:=x]> (set_shared_ptrs (delete h) st1)
                      = set_shared_ptrs <[h:=x]> st1).
  { intros x. apply state_ext; simpl_state; try done. apply insert_delete_eq. }
  split.
  - unfold SharedPtr.copy_assign, SharedPtr.dtor, SharedPtr.copy_ctor.
    msimpl. rewrite Hh. msimpl. case_decide; [done|].
    rewrite Hdec. rewrite Hsp, Ho. msimpl. rewrite ?Hsp, Hh. msimpl.
    rewrite Ho2. msimpl. rewrite Hins.
    destruct cb_other as [bo|]; [|done].
    destruct (Safe_shared_live n _ other bo HS1 Ho1) as (blk & Hb & Hsr).
    destruct (safe_live n _ HS1 bo blk Hb) as (_ & _ & _ & Hlive).
    destruct (Hlive Hsr) as [Hp _]. simpl_state. rewrite Hb.
    by destruct (pointer blk).
  - unfold SharedPtr.move_assign, SharedPtr.dtor, SharedPtr.move_ctor.
    msimpl. rewrite Hh. msimpl. case_decide; [done|].
    rewrite Hdec. rewrite Hsp, Ho. msimpl. rewrite ?Hsp, Hh. msimpl.
    rewrite Ho2. msimpl.
    rewrite Hins, insert_delete_eq, lookup_insert_ne, Hsp, Ho by done.
    done.
Qed.

(** X12.  After a sound program of fewer than 2^64 operations, assigning to
    a [SharedPtr] from another object is the destruction of the target
    followed by the construction of a new object in its place from the same
    source: copy assignment is destructor then copy constructor, move
    assignment is destructor then move constructor, result and state alike. *)
Theorem assignment_is_destroy_then_construct (ops : list op)
    (h other : handle) (cb cb_other : option nat)
    (Hsound : sound_program ops init = true)
    (Hlen : (Z.of_nat (length ops) < size_max)%Z)
    (Hne : h ≠ other)
    (Hh : shared_ptrs (after ops) !! h = Some cb)
    (Ho : shared_ptrs (after ops) !! other = Some cb_other) :
  SharedPtr.copy_assign inert h other (after ops)
  = (SharedPtr.dtor inert h;; SharedPtr.copy_ctor h other) (after ops)
  ∧ SharedPtr.move_assign inert h other (after ops)
    = (SharedPtr.dtor inert h;; SharedPtr.move_ctor h other) (after ops).
Proof.
  destruct (sound_program_Safe ops Hsound Hlen) as [_ HS].
  by apply (assign_as_destroy_construct _ _ h other cb cb_other HS).
Qed.

Lemma assignment_is_destroy_then_construct_witness :
  sound_program shared_and_observed init = true
  ∧ (Z.of_nat (length shared_and_observed) < size_max)%Z
  ∧ 2 ≠ 3
  ∧ shared_ptrs (after shared_and_observed) !! 2 = Some None
  ∧ shared_ptrs (after shared_and_observed) !! 3 = Some (Some 1)
  ∧ SharedPtr.copy_assign inert 2 3 (after shared_and_observed)
    = (SharedPtr.dtor inert 2;; SharedPtr.copy_ctor 2 3) (after shared_and_observed)
  ∧ SharedPtr.move_assign inert 2 3 (after shared_and_observed)
    = (SharedPtr.dtor inert 2;; SharedPtr.move_ctor 2 3) (after shared_and_observed).
Proof.
  split; [vm_compute; reflexivity|]. split; [reflexivity|].
  split; [lia|].
  split; [vm_compute; reflexivity|]. split; [vm_compute; reflexivity|].
  apply (assignment_is_destroy_then_construct shared_and_observed 2 3
           None (Some 1));
    [vm_compute; reflexivity | reflexivity | lia
    | vm_compute; reflexivity | vm_compute; reflexivity].
Defined.

(** ** Invariants of every client program *)

Lemma holds_bind (P : state → Prop) {A B} (m : M A) (k : A → M B) :
  holds P m → (∀ a, holds P (k a)) → holds P (m ≫= k).
Proof.
  intros Hm Hk st HI. rewrite final_bind. specialize (Hm st HI).
  destruct (m st); try done. by apply Hk.
Qed.

Lemma holds_noexcept (P : state → Prop) {A} (m : M A) :
  holds P m → holds P (noexcept m).
Proof. intros H st HI. rewrite final_noexcept. by apply H. Qed.

Lemma holds_ret (P : state → Prop) {A} (a : A) : holds P (mret a).
Proof. by intros st HI. Qed.

Lemma holds_undefined (P : state → Prop) {A} : holds P (@undefined A).
Proof. by intros st HI. Qed.

Lemma holds_throw (P : state → Prop) {A} : holds P (@throw A).
Proof. by intros st HI. Qed.

Lemma holds_deref (P : state → Prop) (b : addr) : holds P (deref b).
Proof. intros st HI. unfold deref. by destruct (_ !! _). Qed.

Lemma holds_try_catch (P : state → Prop) {A} (body handler : M A) :
  holds P body → holds P handler → holds P (try_catch body handler).
Proof.
  intros Hb Hh st HI. unfold try_catch. specialize (Hb st HI).
  destruct (body st); try done. by apply Hh.
Qed.

(** An invariant that does not depend on the handle objects, and that the
    counter operations and the allocating constructors keep, is kept by
    every operation and so by every program. *)
Section invariant_pass.
Context (P : state → Prop).
Hypothesis P_handles : ∀ st ms mw,
  P st → P (State (blocks st) (storage st) (next_addr st) ms mw (events st)).
Hypothesis P_increase_shared_count :
  ∀ b, holds P (details.increase_shared_count b).
Hypothesis P_increase_weak_count :
  ∀ b, holds P (details.increase_weak_count b).
Hypothesis P_decrease_shared_counter :
  ∀ b, holds P (details.decrease_shared_counter inert b).
Hypothesis P_decrease_weak_counter :
  ∀ b, holds P (details.decrease_weak_counter b).
Hypothesis P_raw_ctor : ∀ h ptr oom, holds P (SharedPtr.raw_ctor h ptr oom).
Hypothesis P_deleter_ctor :
  ∀ h ptr d f, holds P (SharedPtr.deleter_ctor h ptr d f).
Hypothesis P_deleter_alloc_ctor :
  ∀ h ptr d f, holds P (SharedPtr.deleter_alloc_ctor inert h ptr d f).
Hypothesis P_AllocateShared : ∀ h f, holds P (AllocateShared h f).

Lemma holds_shared_field (h : handle) : holds P (shared_field h).
Proof. intros st HI. unfold shared_field. by destruct (_ !! _). Qed.

Lemma holds_weak_field (w : handle) : holds P (weak_field w).
Proof. intros st HI. unfold weak_field. by destruct (_ !! _). Qed.

Lemma holds_set_shared_field (h : handle) (cb : option nat) :
  holds P (set_shared_field h cb).
Proof.
  intros st HI. unfold set_shared_field.
  destruct (_ !! _); [by apply P_handles | done].
Qed.

Lemma holds_set_weak_field (w : handle) (cb : option nat) :
  holds P (set_weak_field w cb).
Proof.
  intros st HI. unfold set_weak_field.
  destruct (_ !! _); [by apply P_handles | done].
Qed.

Lemma holds_new_shared (h : handle) (cb : option nat) :
  holds P (new_shared h cb).
Proof.
  intros st HI. unfold new_shared.
  destruct (_ !! _); [done | by apply P_handles].
Qed.

Lemma holds_new_weak (w : handle) (cb : option nat) :
  holds P (new_weak w cb).
Proof.
  intros st HI. unfold new_weak.
  destruct (_ !! _); [done | by apply P_handles].
Qed.

Lemma holds_end_shared (h : handle) : holds P (end_shared h).
Proof. intros st HI. by apply P_handles. Qed.

Lemma holds_end_weak (w : handle) : holds P (end_weak w).
Proof. intros st HI. by apply P_handles. Qed.

Ltac holds_auto :=
  repeat first
    [ apply holds_ret
    | apply holds_noexcept
    | apply holds_undefined
    | apply holds_deref
    | apply holds_shared_field
    | apply holds_weak_field
    | apply holds_set_shared_field
    | apply holds_set_weak_field
    | apply holds_new_shared
    | apply holds_new_weak
    | apply holds_end_shared
    | apply holds_end_weak
    | apply P_increase_shared_count
    | apply P_increase_weak_count
    | apply P_decrease_shared_counter
    | apply P_decrease_weak_counter
    | apply holds_bind; [|intros ?]
    | match goal with
      | |- holds _ (match ?x with _ => _ end) => destruct x
      | |- holds _ (if ?x then _ else _) => destruct x
      end ].

Lemma holds_exec_rest (o : op) : allocates o = false → holds P (exec o).
Proof.
  intros Ho. destruct o; try discriminate; simpl;
    unfold SharedPtr.default_ctor, SharedPtr.nullptr_ctor,
      SharedPtr.copy_ctor, SharedPtr.move_ctor, SharedPtr.copy_assign,
      SharedPtr.converting_copy_ctor, SharedPtr.converting_move_ctor,
      SharedPtr.converting_copy_assign, SharedPtr.converting_move_assign,
      dynamic_cast, SharedPtr.move_assign, SharedPtr.reset, SharedPtr.use_count,
      SharedPtr.get, SharedPtr.dtor, WeakPtr.default_ctor,
      WeakPtr.from_shared, WeakPtr.copy_ctor, WeakPtr.move_ctor,
      WeakPtr.copy_assign, WeakPtr.move_assign, WeakPtr.expired,
      WeakPtr.lock, WeakPtr.dtor, SharedPtr.default_ctor,
      SharedPtr.block_ctor;
    holds_auto.
Qed.

Lemma holds_exec (o : op) : holds P (exec o).
Proof.
  destruct o; simpl;
    try (by apply P_raw_ctor);
    try (by apply P_deleter_ctor);
    try (by apply P_deleter_alloc_ctor);
    try (by apply P_AllocateShared);
    unfold SharedPtr.default_ctor, SharedPtr.nullptr_ctor,
      SharedPtr.copy_ctor, SharedPtr.move_ctor, SharedPtr.copy_assign,
      SharedPtr.converting_copy_ctor, SharedPtr.converting_move_ctor,
      SharedPtr.converting_copy_assign, SharedPtr.converting_move_assign,
      dynamic_cast, SharedPtr.move_assign, SharedPtr.reset, SharedPtr.use_count,
      SharedPtr.get, SharedPtr.dtor, WeakPtr.default_ctor,
      WeakPtr.from_shared, WeakPtr.copy_ctor, WeakPtr.move_ctor,
      WeakPtr.copy_assign, WeakPtr.move_assign, WeakPtr.expired,
      WeakPtr.lock, WeakPtr.dtor, SharedPtr.default_ctor,
      SharedPtr.block_ctor;
    holds_auto.
Qed.

Lemma run_holds (ops : list op) (st : state) : P st → P (snd (run ops st)).
Proof.
  revert st. induction ops as [|o rest IH]; intros st HI; [done|].
  pose proof (holds_exec o st HI) as HI'. cbn [run].
  destruct (exec o st); simpl in HI'; try done; by apply IH.
Qed.

End invariant_pass.

(** ** Access to the managed object *)

(** X16.  After a sound program of fewer than 2^64 operations, [operator*]
    and [operator->] on a non-empty [SharedPtr] are defined and give the
    object that [get] gives, through a pointer that is not null; none of
    the three changes the state. *)
Theorem dereference_agrees_with_get (ops : list op) (h : handle) (b : addr)
    (Hsound : sound_program ops init = true)
    (Hlen : (Z.of_nat (length ops) < size_max)%Z)
    (Hh : shared_ptrs (after ops) !! h = Some (Some b)) :
  ∃ o, operator_star h (after ops) = Ok o (after ops)
       ∧ operator_arrow h (after ops) = Ok (Some o) (after ops)
       ∧ SharedPtr.get h (after ops) = Ok (Some o) (after ops).
Proof.
  destruct (sound_program_Safe ops Hsound Hlen) as [_ HS].
  destruct (Safe_shared_live _ _ h b HS Hh) as (blk & Hb & Hsr).
  destruct (safe_live _ _ HS b blk Hb) as (_ & _ & _ & Hlive).
  destruct (Hlive Hsr) as [Hp _].
  unfold operator_star, operator_arrow, SharedPtr.get. msimpl.
  rewrite Hh. msimpl. rewrite Hb.
  destruct (pointer blk) as [o|]; [by exists o | done].
Qed.

Lemma dereference_agrees_with_get_witness :
  sound_program shared_and_observed init = true
  ∧ (Z.of_nat (length shared_and_observed) < size_max)%Z
  ∧ shared_ptrs (after shared_and_observed) !! 3 = Some (Some 1)
  ∧ ∃ o, operator_star 3 (after shared_and_observed)
         = Ok o (after shared_and_observed)
         ∧ operator_arrow 3 (after shared_and_observed)
           = Ok (Some o) (after shared_and_observed)
         ∧ SharedPtr.get 3 (after shared_and_observed)
           = Ok (Some o) (after shared_and_observed).
Proof.
  split; [vm_compute; reflexivity|]. split; [reflexivity|].
  split; [vm_compute; reflexivity|].
  apply (dereference_agrees_with_get shared_and_observed 3 1);
    [vm_compute; reflexivity | reflexivity | vm_compute; reflexivity].
Defined.

(** X17.  On an empty [SharedPtr] (default constructed, built from
    [nullptr], moved from or reset), in any state: [get] returns null,
    [use_count] returns 0 and [reset] does nothing, but [operator*] and
    [operator->] read through the null control-block pointer, which is
    undefined. *)
Theorem empty_handle_access (del : M unit) (st : state) (h : handle)
    (Hh : shared_ptrs st !! h = Some None) :
  SharedPtr.get h st = Ok None st
  ∧ SharedPtr.use_count h st = Ok 0%Z st
  ∧ SharedPtr.reset del h st = Ok tt st
  ∧ operator_arrow h st = UB st
  ∧ operator_star h st = UB st.
Proof.
  unfold SharedPtr.get, SharedPtr.use_count, SharedPtr.reset, operator_arrow,
    operator_star.
  msimpl. by rewrite Hh.
Qed.

Lemma empty_handle_access_witness :
  shared_ptrs (after shared_and_observed) !! 2 = Some None
  ∧ SharedPtr.get 2 (after shared_and_observed)
    = Ok None (after shared_and_observed)
  ∧ SharedPtr.use_count 2 (after shared_and_observed)
    = Ok 0%Z (after shared_and_observed)
  ∧ SharedPtr.reset inert 2 (after shared_and_observed)
    = Ok tt (after shared_and_observed)
  ∧ operator_arrow 2 (after shared_and_observed)
    = UB (after shared_and_observed)
  ∧ operator_star 2 (after shared_and_observed)
    = UB (after shared_and_observed).
Proof.
  split; [vm_compute; reflexivity|].
  apply (empty_handle_access inert (after shared_and_observed) 2).
  vm_compute. reflexivity.
Defined.

(** ** Every release destroys the object *)

Lemma Released_init : Released init.
Proof. by intros b []. Qed.

Lemma Released_handles (st : state) (ms mw : gmap nat (option nat)) :
  Released st →
  Released (State (blocks st) (storage st) (next_addr st) ms mw (events st)).
Proof. done. Qed.

Lemma rel_emit (e : event) :
  (∀ b, e ≠ EvReleaseShared b) → holds Released (emit e).
Proof.
  intros He st HI b [Heq|Hin].
  - by destruct (He b).
  - destruct (HI b Hin) as (e' & Hin' & Hrel). exists e'. split; [by right|done].
Qed.

Lemma rel_store (b : addr) (blk : block) : holds Released (store b blk).
Proof. by intros st HI. Qed.

Lemma rel_deallocate (b : addr) : holds Released (deallocate b).
Proof.
  intros st HI x [|Hin]; [done|].
  destruct (HI x Hin) as (e' & Hin' & Hrel). exists e'. split; [by right|done].
Qed.

Lemma rel_allocate (oom : bool) : holds Released (allocate oom).
Proof.
  intros st HI. unfold allocate. destruct oom; [done|].
  intros x [|Hin]; [done|].
  destruct (HI x Hin) as (e' & Hin' & Hrel). exists e'. split; [by right|done].
Qed.

Lemma rel_release_shared (b : addr) :
  holds Released (details.release_shared inert b).
Proof.
  intros st HI. unfold details.release_shared. rewrite final_bind.
  unfold deref. destruct (blocks st !! b) as [blk|] eqn:Hb; [|done].
  assert (Hgoal : ∀ e, releases_object b e →
            Released (log e (log (EvReleaseShared b) st))).
  { intros e He x [Heq|[[= <-]|Hin]].
    - by subst e.
    - exists e. split; [by left | done].
    - destruct (HI x Hin) as (e' & Hin' & Hrel).
      exists e'. split; [by right; right | done]. }
  destruct (kind blk); msimpl; rewrite Hb; by apply Hgoal.
Qed.

Ltac rel_auto :=
  repeat first
    [ apply holds_ret
    | apply holds_undefined
    | apply holds_throw
    | apply holds_deref
    | apply rel_store
    | apply rel_deallocate
    | apply rel_allocate
    | apply rel_release_shared
    | apply rel_emit; by intros ?
    | apply holds_try_catch
    | apply (holds_new_shared Released Released_handles)
    | apply holds_bind; [|intros ?]
    | progress cbv zeta
    | progress unfold construct
    | match goal with
      | |- holds _ (match ?x with _ => _ end) => destruct x
      | |- holds _ (if ?x then _ else _) => destruct x
      end ].

Lemma rel_release_weak (b : addr) : holds Released (details.release_weak b).
Proof. unfold details.release_weak. rel_auto. Qed.

Lemma Released_run (ops : list op) (st : state) :
  Released st → Released (snd (run ops st)).
Proof.
  apply run_holds.
  - intros st' ms mw. apply Released_handles.
  - intros b. unfold details.increase_shared_count. rel_auto.
  - intros b. unfold details.increase_weak_count. rel_auto.
  - intros b. unfold details.decrease_shared_counter.
    repeat first [apply rel_release_weak | progress rel_auto].
  - intros b. unfold details.decrease_weak_counter.
    repeat first [apply rel_release_weak | progress rel_auto].
  - intros h ptr oom. unfold SharedPtr.raw_ctor. rel_auto.
  - intros h ptr d f. unfold SharedPtr.deleter_ctor. rel_auto.
  - intros h ptr d f. unfold SharedPtr.deleter_alloc_ctor. rel_auto.
  - intros h f. unfold AllocateShared, SharedPtr.block_ctor. rel_auto.
Qed.

Lemma log_ok_released (l : list event) (b : addr) (sc wc : Z) :
  log_ok l → In (EvReleaseWeak b sc wc) l → In (EvReleaseShared b) l.
Proof.
  induction l as [|e l IH]; simpl; [done|]. intros [Hok Hlog] [->|Hin].
  - right. by destruct Hok as (_ & _ & Hrel & _).
  - right. by apply IH.
Qed.

(** X20.  After a sound program of fewer than 2^64 operations, the managed
    object of every control block that has existed (the block is still
    there, or [release_weak] has run for it) and that no [SharedPtr] object
    holds any more has been destroyed exactly once: the log has one call of
    the deleter, or one destruction of the value of a [BlockVault], for
    that block. *)
Theorem object_destroyed_exactly_once (ops : list op) (b : addr)
    (Hsound : sound_program ops init = true)
    (Hlen : (Z.of_nat (length ops) < size_max)%Z)
    (Hgone : srefs (after ops) b = 0)
    (Hwas : is_Some (blocks (after ops) !! b)
            ∨ ∃ sc wc, In (EvReleaseWeak b sc wc) (events (after ops))) :
  ∃ pre e post,
    events (after ops) = pre ++ e :: post
    ∧ releases_object b e
    ∧ ∀ e', In e' (pre ++ post) → ¬ releases_object b e'.
Proof.
  destruct (sound_program_Safe ops Hsound Hlen) as [_ HS].
  assert (Hrel : In (EvReleaseShared b) (events (after ops))).
  { destruct Hwas as [[blk Hb]|(sc & wc & Hin)].
    - destruct (safe_live _ _ HS b blk Hb) as (_ & _ & Hdead & _).
      by destruct (Hdead Hgone) as (_ & _ & Hrel).
    - apply (log_ok_released _ b sc wc); [|done].
      apply (inv_log (0 + length ops)). apply run_Inv; [done | apply Inv_init]. }
  destruct (Released_run ops init Released_init b Hrel) as (e & Hin & Hobj).
  destruct (in_split _ _ Hin) as (pre & post & Hev).
  exists pre, e, post. split; [done|]. split; [done|].
  apply (once_log_unique pre post e b); [|done].
  rewrite <- Hev. apply (safe_log _ _ HS).
Qed.

Lemma object_destroyed_exactly_once_witness :
  sound_program main_program init = true
  ∧ (Z.of_nat (length main_program) < size_max)%Z
  ∧ srefs (after main_program) 1 = 0
  ∧ In (EvReleaseWeak 1 0 0) (events (after main_program))
  ∧ ∃ pre e post,
      events (after main_program) = pre ++ e :: post
      ∧ releases_object 1 e
      ∧ ∀ e', In e' (pre ++ post) → ¬ releases_object 1 e'.
Proof.
  assert (Hin : In (EvReleaseWeak 1 0 0) (events (after main_program))).
  { vm_compute. tauto. }
  split; [vm_compute; reflexivity|]. split; [reflexivity|].
  split; [vm_compute; reflexivity|]. split; [exact Hin|].
  apply (object_destroyed_exactly_once main_program 1);
    [vm_compute; reflexivity | reflexivity | vm_compute; reflexivity |].
  right. exists 0%Z, 0%Z. exact Hin.
Defined.

(** ** Managed objects that hold handles, deleters that throw *)

(** X21.  An assignment to a [SharedPtr] that is the only owner of its
    object, from an empty [SharedPtr] that is a member of that object
    ([head = std::move(head->next)] at the last node of a list,
    [p = p->child] without a child): the target gives up its block first,
    which destroys the object and the member with it, and the member is
    read afterwards.  Both assignments are undefined; by then the deleter
    has run and the target still holds the pointer to its old block. *)
Theorem assign_from_member_is_undefined (st : state) (h other : handle)
    (b : addr) (blk : block)
    (Hne : h ≠ other)
    (Hh : shared_ptrs st !! h = Some (Some b))
    (Hb : blocks st !! b = Some blk)
    (Hsc : shared_count blk = 1%Z)
    (Ho : shared_ptrs st !! other = Some None) :
  ∃ st',
    SharedPtr.move_assign (SharedPtr.dtor inert other) h other st = UB st'
    ∧ SharedPtr.copy_assign (SharedPtr.dtor inert other) h other st = UB st'
    ∧ In (object_release b blk) (events st')
    ∧ shared_ptrs st' !! other = None
    ∧ shared_ptrs st' !! h = Some (Some b).
Proof.
  destruct blk as [k p sc wc]. simpl in Hsc. subst sc.
  unfold SharedPtr.move_assign, SharedPtr.copy_assign, SharedPtr.dtor,
    details.decrease_shared_counter, details.release_shared,
    details.release_weak, object_release.
  msimpl. rewrite Hh. rewrite !decide_False by done. rewrite Hb. msimpl.
  change (wrap (1 - 1)) with 0%Z. change (0 =? 0)%Z with true. cbv iota.
  destruct k as [d|]; msimpl; rewrite Ho; msimpl;
    (destruct (wc =? 0)%Z; msimpl;
     (eexists; split; [reflexivity|]); (split; [reflexivity|]);
     simpl_state;
     (split; [simpl; tauto|]);
     (split; [apply lookup_delete_eq | by rewrite lookup_delete_ne])).
Qed.

Lemma assign_from_member_is_undefined_witness :
  1 ≠ 3
  ∧ shared_ptrs (after one_node_program) !! 1 = Some (Some 1)
  ∧ blocks (after one_node_program) !! 1
    = Some (Block (KControlBlock DefaultDelete) obj7 1 0)
  ∧ shared_ptrs (after one_node_program) !! 3 = Some None
  ∧ ∃ st',
      SharedPtr.move_assign (SharedPtr.dtor inert 3) 1 3
        (after one_node_program) = UB st'
      ∧ SharedPtr.copy_assign (SharedPtr.dtor inert 3) 1 3
          (after one_node_program) = UB st'
      ∧ In (EvDeleter 1 DefaultDelete obj7) (events st')
      ∧ shared_ptrs st' !! 3 = None
      ∧ shared_ptrs st' !! 1 = Some (Some 1).
Proof.
  split; [lia|]. split; [vm_compute; reflexivity|].
  split; [vm_compute; reflexivity|]. split; [vm_compute; reflexivity|].
  apply (assign_from_member_is_undefined (after one_node_program) 1 3 1
           (Block (KControlBlock DefaultDelete) obj7 1 0));
    [lia | vm_compute; reflexivity | vm_compute; reflexivity | reflexivity
    | vm_compute; reflexivity].
Defined.

(** The same on a list of two nodes: [head = std::move(head->next)]
    destroys the first node, its member [next], the second node and the
    block of the second node, and then reads the member [next]. *)
Lemma list_pop_is_undefined :
  fst (run two_nodes_program init) = Finished
  ∧ ∃ st',
      SharedPtr.move_assign (SharedPtr.dtor (SharedPtr.dtor inert 4) 3) 1 3
        (after two_nodes_program)
      = UB st'
      ∧ trace st'
        = [EvAllocate 1; EvAllocate 2;
           EvReleaseShared 1; EvDeleter 1 DefaultDelete obj7;
           EvReleaseShared 2; EvDeleter 2 DefaultDelete obj8;
           EvReleaseWeak 2 0 0; EvDestroyBlock 2; EvDeallocate 2;
           EvReleaseWeak 1 0 0; EvDestroyBlock 1; EvDeallocate 1]
      ∧ blocks st' = ∅
      ∧ shared_ptrs st' !! 3 = None
      ∧ shared_ptrs st' !! 1 = Some (Some 1).
Proof.
  split; [reflexivity|]. eexists. split; [vm_compute; reflexivity|].
  repeat split; reflexivity.
Qed.

Lemma decrease_shared_counter_throwing (b : addr) (st : state) (blk : block) :
  blocks st !! b = Some blk → shared_count blk = 1%Z →
  details.decrease_shared_counter throw b st
  = Throw (log (object_release b blk)
            (log (EvReleaseShared b)
               (set_blocks (insert b (details.with_shared_count 0 blk)) st))).
Proof.
  intros Hb Hsc. destruct blk as [k p sc wc]. simpl in Hsc. subst sc.
  unfold details.decrease_shared_counter, details.release_shared,
    object_release.
  msimpl. rewrite Hb. msimpl.
  change (wrap (1 - 1)) with 0%Z. change (0 =? 0)%Z with true. cbv iota.
  msimpl. by destruct k.
Qed.

(** X13.  The deleter, or the destructor of the managed object, throws
    while the last [SharedPtr] on a block gives the block up.  The
    exception leaves [reset] and the copy assignment, and ends the program
    in the destructor and in the move assignment.  By then [shared_count]
    is 0, the pointer to the object is still in the block, the handle still
    refers to the block and neither [release_weak] nor the rest of the
    assignment has run: [use_count] gives 0 where [get] gives the pointer
    that was handed to the deleter.  The destructor of the handle, run
    afterwards, takes [shared_count] from 0 to 2^64-1, so it releases
    nothing and the storage of the block stays allocated. *)
Theorem deleter_exception_strands_block (st : state) (h : handle) (b : addr)
    (blk : block)
    (Hh : shared_ptrs st !! h = Some (Some b))
    (Hb : blocks st !! b = Some blk)
    (Hsc : shared_count blk = 1%Z) :
  ∃ st1,
    SharedPtr.reset throw h st = Throw st1
    ∧ (∀ other, h ≠ other →
         SharedPtr.copy_assign throw h other st = Throw st1)
    ∧ SharedPtr.dtor throw h st = Terminate st1
    ∧ (∀ other, h ≠ other →
         SharedPtr.move_assign throw h other st = Terminate st1)
    ∧ shared_ptrs st1 = shared_ptrs st
    ∧ blocks st1 !! b = Some (details.with_shared_count 0 blk)
    ∧ events st1 = object_release b blk :: EvReleaseShared b :: events st
    ∧ SharedPtr.use_count h st1 = Ok 0%Z st1
    ∧ SharedPtr.get h st1 = Ok (pointer blk) st1
    ∧ ∀ del, ∃ st2,
        SharedPtr.dtor del h st1 = Ok tt st2
        ∧ blocks st2 !! b
          = Some (details.with_shared_count (size_max - 1) blk)
        ∧ events st2 = events st1
        ∧ storage st2 = storage st.
Proof.
  pose proof (decrease_shared_counter_throwing b st blk Hb Hsc) as Hdec.
  eexists. split.
  { unfold SharedPtr.reset, mbind, M_bind, bind, shared_field.
    rewrite Hh, Hdec. reflexivity. }
  split.
  { intros other Hne.
    unfold SharedPtr.copy_assign, mbind, M_bind, bind, shared_field.
    rewrite Hh, decide_False by done. by rewrite Hdec. }
  split.
  { unfold SharedPtr.dtor, noexcept, mbind, M_bind, bind, shared_field.
    by rewrite Hh, Hdec. }
  split.
  { intros other Hne.
    unfold SharedPtr.move_assign, noexcept, mbind, M_bind, bind, shared_field.
    rewrite Hh, decide_False by done. by rewrite Hdec. }
  split; [done|]. split; [apply lookup_insert_eq|]. split; [done|].
  unfold SharedPtr.use_count, SharedPtr.get, SharedPtr.dtor,
    details.decrease_shared_counter.
  msimpl. rewrite Hh. msimpl.
  split; [done|]. split; [done|].
  intros del.
  change (wrap (0 - 1)) with (size_max - 1)%Z.
  change (size_max - 1 =? 0)%Z with false. cbv iota.
  eexists. split; [reflexivity|]. simpl_state.
  by rewrite lookup_insert_eq.
Qed.

Lemma deleter_exception_strands_block_witness :
  shared_ptrs one_strong_one_weak !! 1 = Some (Some 1)
  ∧ blocks one_strong_one_weak !! 1
    = Some (Block (KControlBlock DefaultDelete) obj7 1 1)
  ∧ ∃ st1,
      SharedPtr.reset throw 1 one_strong_one_weak = Throw st1
      ∧ (∀ other, 1 ≠ other →
           SharedPtr.copy_assign throw 1 other one_strong_one_weak
           = Throw st1)
      ∧ SharedPtr.dtor throw 1 one_strong_one_weak = Terminate st1
      ∧ (∀ other, 1 ≠ other →
           SharedPtr.move_assign throw 1 other one_strong_one_weak
           = Terminate st1)
      ∧ shared_ptrs st1 = shared_ptrs one_strong_one_weak
      ∧ blocks st1 !! 1
        = Some (Block (KControlBlock DefaultDelete) obj7 0 1)
      ∧ events st1
        = EvDeleter 1 DefaultDelete obj7 :: EvReleaseShared 1
          :: events one_strong_one_weak
      ∧ SharedPtr.use_count 1 st1 = Ok 0%Z st1
      ∧ SharedPtr.get 1 st1 = Ok obj7 st1
      ∧ ∀ del, ∃ st2,
          SharedPtr.dtor del 1 st1 = Ok tt st2
          ∧ blocks st2 !! 1
            = Some (Block (KControlBlock DefaultDelete) obj7
                      (size_max - 1) 1)
          ∧ events st2 = events st1
          ∧ storage st2 = storage one_strong_one_weak.
Proof.
  split; [vm_compute; reflexivity|]. split; [vm_compute; reflexivity|].
  apply (deleter_exception_strands_block one_strong_one_weak 1 1
           (Block (KControlBlock DefaultDelete) obj7 1 1));
    [vm_compute; reflexivity | vm_compute; reflexivity | reflexivity].
Defined.

(** X22.  The last owner of a block gives the block up, and the
    destruction of the managed object returns and leaves the control block
    of the object as it is (the object holds no handle, or handles on
    other blocks): [decrease_shared_counter] returns, [release_shared] has
    set the pointer to the object to null, and [release_weak] has run,
    after that and once, exactly if [weak_count] is 0.  The handles and the
    other blocks are as the destruction of the object left them. *)
Theorem release_protocol_when_block_is_spared (del : M unit) (st st2 : state)
    (b : addr) (blk : block)
    (Hb : blocks st !! b = Some blk)
    (Hsc : shared_count blk = 1%Z)
    (Hdel : del (release_point b blk st) = Ok tt st2)
    (Hkept : blocks st2 !! b = Some (details.with_shared_count 0 blk)) :
  ∃ st',
    details.decrease_shared_counter del b st = Ok tt st'
    ∧ shared_ptrs st' = shared_ptrs st2
    ∧ weak_ptrs st' = weak_ptrs st2
    ∧ (∀ x, x ≠ b → blocks st' !! x = blocks st2 !! x)
    ∧ if (weak_count blk =? 0)%Z
      then blocks st' !! b = None
           ∧ events st'
             = EvDeallocate b
               :: block_destroy b blk ++ EvReleaseWeak b 0 0 :: events st2
      else blocks st' !! b
           = Some (details.with_pointer None
                     (details.with_shared_count 0 blk))
           ∧ events st' = events st2.
Proof.
  destruct blk as [k p sc wc]. simpl in Hsc. subst sc.
  unfold release_point, object_release in Hdel.
  unfold details.decrease_shared_counter, details.release_shared,
    details.release_weak, block_destroy.
  msimpl. rewrite Hb. msimpl.
  change (wrap (1 - 1)) with 0%Z. change (0 =? 0)%Z with true. cbv iota.
  destruct k as [d|]; msimpl; rewrite Hdel, Hkept; msimpl;
    (destruct (Z.eqb_spec wc 0) as [->|Hwc]; msimpl;
     (eexists; split; [reflexivity|]); simpl_state;
     (split; [done|]); (split; [done|]);
     (split;
      [intros x Hx; by rewrite ?lookup_delete_ne, ?lookup_insert_ne|]);
     by rewrite ?lookup_delete_eq, ?lookup_insert_eq).
Qed.

Lemma release_protocol_when_block_is_spared_witness :
  blocks (after two_nodes_program) !! 1
  = Some (Block (KControlBlock DefaultDelete) obj7 1 0)
  ∧ ∃ st2,
      SharedPtr.dtor (SharedPtr.dtor inert 4) 3
        (release_point 1 (Block (KControlBlock DefaultDelete) obj7 1 0)
           (after two_nodes_program))
      = Ok tt st2
      ∧ blocks st2 !! 1 = Some (Block (KControlBlock DefaultDelete) obj7 0 0)
      ∧ ∃ st',
          details.decrease_shared_counter
            (SharedPtr.dtor (SharedPtr.dtor inert 4) 3) 1
            (after two_nodes_program)
          = Ok tt st'
          ∧ shared_ptrs st' = shared_ptrs st2
          ∧ weak_ptrs st' = weak_ptrs st2
          ∧ (∀ x, x ≠ 1 → blocks st' !! x = blocks st2 !! x)
          ∧ blocks st' !! 1 = None
          ∧ events st'
            = [EvDeallocate 1; EvDestroyBlock 1; EvReleaseWeak 1 0 0]
              ++ events st2.
Proof.
  split; [vm_compute; reflexivity|].
  eexists. split; [vm_compute; reflexivity|].
  split; [vm_compute; reflexivity|].
  apply (release_protocol_when_block_is_spared
           (SharedPtr.dtor (SharedPtr.dtor inert 4) 3)
           (after two_nodes_program) _ 1
           (Block (KControlBlock DefaultDelete) obj7 1 0));
    vm_compute; reflexivity.
Defined.

(** ** No object is handed to a deleter twice *)

Ltac quiet_entries :=
  let H := fresh in
  intros ? ? H; simpl in H;
  repeat (destruct H as [<-|H]; [by intros []|]);
  destruct H.

Lemma deleted_once_quiet (evs l : list event) :
  (∀ e x, In e evs → ¬ deletes x e) → deleted_once l →
  deleted_once (evs ++ l).
Proof.
  intros Hq Hl. induction evs as [|e evs IH]; simpl; [done|].
  split.
  - intros x Hd. destruct (Hq e x); [by left | done].
  - apply IH. intros e' x Hin. apply Hq. by right.
Qed.

Lemma Apart_mono (G G' : list object) (st : state) :
  (∀ x, In x G → In x G') → Apart G st → Apart G' st.
Proof.
  intros Hsub [H1 H2 H3 H4 H5]. split; try done.
  - intros b blk x Hb Hp.
    destruct (H1 b blk x Hb Hp) as [?|[? ?]]; [by left | right; auto].
  - intros e x He Hd. destruct (H4 e x He Hd). auto.
Qed.

Lemma Apart_init : Apart [] init.
Proof. split; simpl; try done; intros *; by rewrite lookup_empty. Qed.

(** Blocks go away and entries that are no deleter call come: the
    objects stay apart. *)
Lemma Apart_quiet (G : list object) (st st' : state) (evs : list event) :
  (∀ b blk, blocks st' !! b = Some blk → blocks st !! b = Some blk) →
  events st' = evs ++ events st →
  (∀ e x, In e evs → ¬ deletes x e) →
  Apart G st → Apart G st'.
Proof.
  intros Hb He Hq [H1 H2 H3 H4 H5]. split.
  - intros b blk x Hx Hp. apply (H1 b blk x); [by apply Hb | done].
  - intros b blk x e Hx Hp Hin. rewrite He in Hin.
    apply in_app_iff in Hin as [Hin|Hin]; [by apply Hq|].
    apply (H2 b blk x e); [by apply Hb | done | done].
  - intros b1 b2 blk1 blk2 x Hb1 Hb2. apply H3; by apply Hb.
  - intros e x Hin Hd. rewrite He in Hin.
    apply in_app_iff in Hin as [Hin|Hin]; [by destruct (Hq e x Hin)|].
    by apply (H4 e x).
  - rewrite He. by apply deleted_once_quiet.
Qed.

Lemma Apart_handles (G : list object) (st : state)
    (ms mw : gmap nat (option nat)) :
  Apart G st →
  Apart G (State (blocks st) (storage st) (next_addr st) ms mw (events st)).
Proof. by apply (Apart_quiet G st _ []). Qed.

Lemma Apart_emit (G : list object) (e : event) :
  (∀ x, ¬ deletes x e) → holds (Apart G) (emit e).
Proof.
  intros He st HI. apply (Apart_quiet G st _ [e]); try done.
  intros e' x [<-|[]]. apply He.
Qed.

Lemma Apart_deallocate (G : list object) (b : addr) :
  holds (Apart G) (deallocate b).
Proof.
  intros st HI. apply (Apart_quiet G st _ [EvDeallocate b]); try done.
  - intros x blk. simpl. rewrite lookup_delete_Some. by intros [_ ?].
  - quiet_entries.
Qed.

Lemma Apart_allocate (G : list object) (oom : bool) :
  holds (Apart G) (allocate oom).
Proof.
  intros st HI. unfold allocate. destruct oom; [done|].
  apply (Apart_quiet G st _ [EvAllocate (next_addr st)]); try done.
  quiet_entries.
Qed.

(** A block is written with the object it pointed to, or with none. *)
Lemma Apart_update (G : list object) (st : state) (b : addr)
    (blk blk' : block) :
  blocks st !! b = Some blk → kind blk' = kind blk →
  pointer blk' = pointer blk ∨ pointer blk' = None →
  Apart G st → Apart G (set_blocks (insert b blk') st).
Proof.
  intros Hb Hk Hp [H1 H2 H3 H4 H5].
  assert (Hold : ∀ x blkx y,
            <[b:=blk']> (blocks st) !! x = Some blkx → pointer blkx = Some y →
            ∃ blk0, blocks st !! x = Some blk0 ∧ pointer blk0 = Some y
                    ∧ kind blk0 = kind blkx).
  { intros x blkx y Hx Hy. destruct (decide (x = b)) as [->|Hne].
    - rewrite lookup_insert_eq in Hx. injection Hx as <-.
      destruct Hp as [Hp|Hp]; [|congruence].
      exists blk. by rewrite <- Hp.
    - rewrite lookup_insert_ne in Hx by done. by exists blkx. }
  split; simpl_state; try done.
  - intros x blkx y Hx Hy.
    destruct (Hold x blkx y Hx Hy) as (blk0 & Hx0 & Hy0 & Hk0).
    rewrite <- Hk0. by apply (H1 x blk0 y).
  - intros x blkx y e Hx Hy.
    destruct (Hold x blkx y Hx Hy) as (blk0 & Hx0 & Hy0 & _).
    by apply (H2 x blk0 y e).
  - intros b1 b2 blk1 blk2 y Hb1 Hb2 Hp1 Hp2.
    destruct (Hold b1 blk1 y Hb1 Hp1) as (blk01 & ? & ? & _).
    destruct (Hold b2 blk2 y Hb2 Hp2) as (blk02 & ? & ? & _).
    by apply (H3 b1 b2 blk01 blk02 y).
Qed.

(** [release_shared] as a whole: the deleter is called on the object of
    the block and the block forgets the object. *)
Lemma Apart_release (G : list object) (st : state) (b : addr) (blk : block) :
  blocks st !! b = Some blk → Apart G st →
  Apart G (set_blocks (insert b (details.with_pointer None blk))
             (log (object_release b blk) (log (EvReleaseShared b) st))).
Proof.
  intros Hb [H1 H2 H3 H4 H5].
  assert (Hold : ∀ x blkx y,
            <[b:=details.with_pointer None blk]> (blocks st) !! x = Some blkx →
            pointer blkx = Some y →
            x ≠ b ∧ blocks st !! x = Some blkx).
  { intros x blkx y Hx Hy. destruct (decide (x = b)) as [->|Hne].
    - rewrite lookup_insert_eq in Hx. by injection Hx as <-.
    - by rewrite lookup_insert_ne in Hx. }
  assert (Hdel : ∀ y, deletes y (object_release b blk) →
            pointer blk = Some y ∧ ∃ d, kind blk = KControlBlock d).
  { intros y. unfold object_release.
    destruct (kind blk) as [d|]; [|done]. simpl.
    destruct (pointer blk) as [z|]; [|done]. intros ->. eauto. }
  split; simpl_state.
  - intros x blkx y Hx Hy. destruct (Hold x blkx y Hx Hy) as [_ Hx0].
    by apply (H1 x blkx y).
  - intros x blkx y e Hx Hy [<-|[<-|Hin]]; [|by intros []|].
    + destruct (Hold x blkx y Hx Hy) as [Hne Hx0]. intros Hd.
      destruct (Hdel y Hd) as [Hpb _].
      by destruct Hne; apply (H3 x b blkx blk y).
    + destruct (Hold x blkx y Hx Hy) as [_ Hx0]. by apply (H2 x blkx y e).
  - intros b1 b2 blk1 blk2 y Hb1 Hb2 Hp1 Hp2.
    destruct (Hold b1 blk1 y Hb1 Hp1) as [_ ?].
    destruct (Hold b2 blk2 y Hb2 Hp2) as [_ ?].
    by apply (H3 b1 b2 blk1 blk2 y).
  - intros e y [<-|[<-|Hin]] Hd; [|by destruct Hd|by apply (H4 e y)].
    destruct (Hdel y Hd) as [Hpb [d Hk]].
    destruct (H1 b blk y Hb Hpb) as [[_ Hv]|?]; [congruence | done].
  - split; [|split; [by intros ? [] | exact H5]].
    intros y Hd e' [<-|Hin]; [by intros []|].
    destruct (Hdel y Hd) as [Hpb _]. by apply (H2 b blk y e').
Qed.

(** A new block for an object that has not been handed over before. *)
Lemma Apart_created (G : list object) (st st' : state) (b : addr)
    (k : block_kind) (ptr : option object) :
  (∀ x, ptr = Some x → ¬ In x G ∧ is_external x) →
  blocks st' = <[b:=details.new_block k ptr]> (blocks st) →
  events st' = EvAllocate b :: events st →
  Apart G st →
  Apart (match ptr with Some x => [x] | None => [] end ++ G) st'.
Proof.
  intros Hfresh Hbs Hev [H1 H2 H3 H4 H5].
  assert (Hnew : ∀ x blkx y, blocks st' !! x = Some blkx →
            pointer blkx = Some y →
            (x = b ∧ ptr = Some y) ∨ (x ≠ b ∧ blocks st !! x = Some blkx)).
  { intros x blkx y Hx Hy. rewrite Hbs in Hx.
    destruct (decide (x = b)) as [->|Hne].
    - rewrite lookup_insert_eq in Hx. injection Hx as <-. by left.
    - rewrite lookup_insert_ne in Hx by done. by right. }
  assert (Hother : ∀ x blkx y, blocks st !! x = Some blkx →
            pointer blkx = Some y → ptr ≠ Some y).
  { intros x blkx y Hx Hy Hptr. destruct (Hfresh y Hptr) as [HnG Hext].
    destruct (H1 x blkx y Hx Hy) as [[-> _]|[? _]]; done. }
  split.
  - intros x blkx y Hx Hy.
    destruct (Hnew x blkx y Hx Hy) as [[-> Hptr]|[_ Hx0]].
    + right. destruct (Hfresh y Hptr) as [_ Hext]. rewrite Hptr.
      split; [by left | done].
    + destruct (H1 x blkx y Hx0 Hy) as [?|[? ?]]; [by left|].
      right. split; [|done]. apply in_app_iff. by right.
  - intros x blkx y e Hx Hy Hin Hd. rewrite Hev in Hin.
    destruct Hin as [<-|Hin]; [by destruct Hd|].
    destruct (Hnew x blkx y Hx Hy) as [[-> Hptr]|[_ Hx0]].
    + destruct (Hfresh y Hptr) as [HnG _].
      by destruct (H4 e y Hin Hd).
    + by apply (H2 x blkx y e).
  - intros b1 b2 blk1 blk2 y Hb1 Hb2 Hp1 Hp2.
    destruct (Hnew b1 blk1 y Hb1 Hp1) as [[-> Hptr1]|[_ Hx1]];
      destruct (Hnew b2 blk2 y Hb2 Hp2) as [[-> Hptr2]|[_ Hx2]]; try done.
    + by destruct (Hother b2 blk2 y Hx2 Hp2).
    + by destruct (Hother b1 blk1 y Hx1 Hp1).
    + by apply (H3 b1 b2 blk1 blk2 y).
  - intros e y Hin Hd. rewrite Hev in Hin.
    destruct Hin as [<-|Hin]; [by destruct Hd|].
    destruct (H4 e y Hin Hd). split; [|done]. apply in_app_iff. by right.
  - rewrite Hev. split; [by intros y []|done].
Qed.

(** A new [BlockVault], which points to its own [value]. *)
Lemma Apart_vault (G : list object) (st st' : state) (b : addr) :
  blocks st'
  = <[b:=details.new_block KBlockVault (Some (ValueOf b))]> (blocks st) →
  events st' = EvAllocate b :: events st →
  Apart G st → Apart G st'.
Proof.
  intros Hbs Hev [H1 H2 H3 H4 H5].
  assert (Hnew : ∀ x blkx y, blocks st' !! x = Some blkx →
            pointer blkx = Some y →
            (x = b ∧ y = ValueOf b ∧ kind blkx = KBlockVault)
            ∨ (x ≠ b ∧ blocks st !! x = Some blkx)).
  { intros x blkx y Hx Hy. rewrite Hbs in Hx.
    destruct (decide (x = b)) as [->|Hne].
    - rewrite lookup_insert_eq in Hx. injection Hx as <-. left.
      simpl in Hy. by injection Hy as <-.
    - rewrite lookup_insert_ne in Hx by done. by right. }
  assert (Hother : ∀ x blkx, blocks st !! x = Some blkx →
            pointer blkx = Some (ValueOf b) → x = b).
  { intros x blkx Hx Hy.
    destruct (H1 x blkx _ Hx Hy) as [[[= ->] _]|[_ []]]. done. }
  split.
  - intros x blkx y Hx Hy.
    destruct (Hnew x blkx y Hx Hy) as [(-> & -> & Hk)|[_ Hx0]];
      [by left | by apply (H1 x blkx y)].
  - intros x blkx y e Hx Hy Hin Hd. rewrite Hev in Hin.
    destruct Hin as [<-|Hin]; [by destruct Hd|].
    destruct (Hnew x blkx y Hx Hy) as [(-> & -> & Hk)|[_ Hx0]].
    + by destruct (H4 e _ Hin Hd) as [_ []].
    + by apply (H2 x blkx y e).
  - intros b1 b2 blk1 blk2 y Hb1 Hb2 Hp1 Hp2.
    destruct (Hnew b1 blk1 y Hb1 Hp1) as [(Hb1' & Hy1 & _)|[Hn1 Hx1]];
      destruct (Hnew b2 blk2 y Hb2 Hp2) as [(Hb2' & Hy2 & _)|[Hn2 Hx2]].
    + congruence.
    + subst b1 y. symmetry. by apply (Hother b2 blk2).
    + subst b2 y. by apply (Hother b1 blk1).
    + by apply (H3 b1 b2 blk1 blk2 y).
  - intros e y Hin Hd. rewrite Hev in Hin.
    destruct Hin as [<-|Hin]; [by destruct Hd|].
    by apply (H4 e y).
  - rewrite Hev. split; [by intros y []|done].
Qed.

(** The deleter is called on an object that has not been handed over
    before and that no block holds. *)
Lemma Apart_deleter (G : list object) (st st' : state) (b : addr)
    (d : deleter) (ptr : option object) :
  (∀ x, ptr = Some x → ¬ In x G ∧ is_external x) →
  (∀ x blk, blocks st' !! x = Some blk → blocks st !! x = Some blk) →
  events st' = EvDeleter b d ptr :: EvAllocate b :: events st →
  Apart G st →
  Apart (match ptr with Some x => [x] | None => [] end ++ G) st'.
Proof.
  intros Hfresh Hbs Hev [H1 H2 H3 H4 H5].
  assert (Hd0 : ∀ y, deletes y (EvDeleter b d ptr) → ptr = Some y).
  { intros y. simpl. destruct ptr; [by intros -> | done]. }
  split.
  - intros x blkx y Hx Hy.
    destruct (H1 x blkx y (Hbs x blkx Hx) Hy) as [?|[? ?]]; [by left|].
    right. split; [|done]. apply in_app_iff. by right.
  - intros x blkx y e Hx Hy Hin Hd. rewrite Hev in Hin.
    destruct Hin as [<-|[<-|Hin]]; [|by destruct Hd|].
    + destruct (Hfresh y (Hd0 y Hd)) as [HnG Hext].
      destruct (H1 x blkx y (Hbs x blkx Hx) Hy) as [[-> _]|[? _]]; done.
    + by apply (H2 x blkx y e (Hbs x blkx Hx)).
  - intros b1 b2 blk1 blk2 y Hb1 Hb2. apply H3; by apply Hbs.
  - intros e y Hin Hd. rewrite Hev in Hin.
    destruct Hin as [<-|[<-|Hin]]; [|by destruct Hd|].
    + rewrite (Hd0 y Hd). destruct (Hfresh y (Hd0 y Hd)).
      split; [by left | done].
    + destruct (H4 e y Hin Hd). split; [|done]. apply in_app_iff. by right.
  - rewrite Hev. split; [|split; [by intros y []|done]].
    intros y Hd e' [<-|Hin]; [by intros []|]. intros Hd'.
    destruct (Hfresh y (Hd0 y Hd)) as [HnG _].
    by destruct (H4 e' y Hin Hd').
Qed.

Lemma holds_update (P : state → Prop) (b : addr) {A} (f : block → block)
    (k : block → M A) :
  (∀ st blk, blocks st !! b = Some blk → P st →
             P (set_blocks (insert b (f blk)) st)) →
  (∀ blk, holds P (k blk)) →
  holds P (blk ← deref b; store b (f blk);; k blk).
Proof.
  intros Hf Hk st HI. unfold mbind, M_bind, bind, deref, store.
  destruct (blocks st !! b) as [blk|] eqn:Hb; [|done].
  apply Hk. by apply Hf.
Qed.

Lemma Apart_increase_shared_count (G : list object) (b : addr) :
  holds (Apart G) (details.increase_shared_count b).
Proof.
  unfold details.increase_shared_count. cbv zeta.
  apply (holds_update _ b
           (λ blk, details.with_shared_count (wrap (shared_count blk + 1)) blk)
           (λ blk, mret (wrap (shared_count blk + 1)))).
  - intros st blk Hb. apply (Apart_update G st b blk); [done | done | by left].
  - intros blk. apply holds_ret.
Qed.

Lemma Apart_increase_weak_count (G : list object) (b : addr) :
  holds (Apart G) (details.increase_weak_count b).
Proof.
  unfold details.increase_weak_count. cbv zeta.
  apply (holds_update _ b
           (λ blk, details.with_weak_count (wrap (weak_count blk + 1)) blk)
           (λ blk, mret (wrap (weak_count blk + 1)))).
  - intros st blk Hb. apply (Apart_update G st b blk); [done | done | by left].
  - intros blk. apply holds_ret.
Qed.

Lemma Apart_release_weak (G : list object) (b : addr) :
  holds (Apart G) (details.release_weak b).
Proof.
  unfold details.release_weak.
  apply holds_bind; [apply holds_deref | intros blk].
  apply holds_bind; [apply Apart_emit; by intros ? [] | intros _].
  apply holds_bind; [|intros _; apply Apart_deallocate].
  destruct (kind blk); [apply Apart_emit; by intros ? [] | apply holds_ret].
Qed.

Lemma Apart_release_shared (G : list object) (b : addr) :
  holds (Apart G) (details.release_shared inert b).
Proof.
  intros st HI. unfold details.release_shared. msimpl.
  destruct (blocks st !! b) as [blk|] eqn:Hb; [|done].
  pose proof (Apart_release G st b blk Hb HI) as HR.
  unfold object_release in HR.
  destruct (kind blk); msimpl; by rewrite Hb.
Qed.

Lemma Apart_decrease_shared_counter (G : list object) (b : addr) :
  holds (Apart G) (details.decrease_shared_counter inert b).
Proof.
  unfold details.decrease_shared_counter. cbv zeta.
  apply (holds_update _ b
           (λ blk, details.with_shared_count (wrap (shared_count blk - 1)) blk)
           (λ blk, if (wrap (shared_count blk - 1) =? 0)%Z
                   then details.release_shared inert b;;
                        blk' ← deref b;
                        if (weak_count blk' =? 0)%Z
                        then details.release_weak b else mret tt
                   else mret tt)).
  - intros st blk Hb. apply (Apart_update G st b blk); [done | done | by left].
  - intros blk. destruct (_ =? _)%Z; [|apply holds_ret].
    apply holds_bind; [apply Apart_release_shared | intros _].
    apply holds_bind; [apply holds_deref | intros blk'].
    destruct (_ =? _)%Z; [apply Apart_release_weak | apply holds_ret].
Qed.

Lemma Apart_decrease_weak_counter (G : list object) (b : addr) :
  holds (Apart G) (details.decrease_weak_counter b).
Proof.
  unfold details.decrease_weak_counter. cbv zeta.
  apply (holds_update _ b
           (λ blk, details.with_weak_count (wrap (weak_count blk - 1)) blk)
           (λ blk, if ((shared_count blk =? 0)%Z
                       && (wrap (weak_count blk - 1) =? 0)%Z)%bool
                   then details.release_weak b else mret tt)).
  - intros st blk Hb. apply (Apart_update G st b blk); [done | done | by left].
  - intros blk. destruct (_ && _)%bool;
      [apply Apart_release_weak | apply holds_ret].
Qed.

(** Every operation keeps the objects apart, when the object it takes
    over has not been handed over before. *)
Lemma Apart_exec (G : list object) (o : op) (st : state) :
  (∀ x, In x (given o) → ¬ In x G ∧ is_external x) →
  Apart G st → Apart (given o ++ G) (final (exec o st)).
Proof.
  intros Hfresh HI.
  destruct (allocates o) eqn:Halloc.
  - assert (Hmono : ∀ s, Apart G s → Apart (given o ++ G) s).
    { intros s. apply Apart_mono. intros x Hx. apply in_app_iff. by right. }
    destruct o; try discriminate; cbn [exec].
    + assert (Hp : ∀ x, ptr = Some x → ¬ In x G ∧ is_external x).
      { intros x ->. apply Hfresh. by left. }
      assert (Hg : given (SRaw h ptr oom)
                   = match ptr with Some x => [x] | None => [] end)
        by (by destruct ptr).
      rewrite Hg. unfold SharedPtr.raw_ctor. destruct oom.
      { rewrite <- Hg. by apply Hmono. }
      msimpl.
      destruct (shared_ptrs st !! h); simpl_state;
        by apply (Apart_created G st _ (next_addr st)
                    (KControlBlock DefaultDelete) ptr).
    + assert (Hp : ∀ x, ptr = Some x → ¬ In x G ∧ is_external x).
      { intros x ->. apply Hfresh. by left. }
      assert (Hg : given (SDeleter h ptr d f)
                   = match ptr with Some x => [x] | None => [] end)
        by (by destruct ptr).
      rewrite Hg. unfold SharedPtr.deleter_ctor. destruct f; msimpl.
      * destruct (shared_ptrs st !! h); simpl_state;
          by apply (Apart_created G st _ (next_addr st)
                      (KControlBlock (CustomDeleter d)) ptr).
      * rewrite <- Hg. by apply Hmono.
      * rewrite <- Hg. apply Hmono.
        apply (Apart_quiet G st _
                 [EvDeallocate (next_addr st); EvAllocate (next_addr st)]);
          try done.
        -- intros x blk. simpl. rewrite lookup_delete_Some. by intros [_ ?].
        -- quiet_entries.
    + assert (Hp : ∀ x, ptr = Some x → ¬ In x G ∧ is_external x).
      { intros x ->. apply Hfresh. by left. }
      assert (Hg : given (SDeleterAlloc h ptr d f)
                   = match ptr with Some x => [x] | None => [] end)
        by (by destruct ptr).
      rewrite Hg. unfold SharedPtr.deleter_alloc_ctor. destruct f; msimpl.
      * destruct (shared_ptrs st !! h); simpl_state;
          by apply (Apart_created G st _ (next_addr st)
                      (KControlBlock (CustomDeleter d)) ptr).
      * rewrite <- Hg. by apply Hmono.
      * by apply (Apart_deleter G st _ (next_addr st) (CustomDeleter d) ptr).
    + unfold AllocateShared, SharedPtr.block_ctor. destruct f; msimpl.
      * destruct (shared_ptrs st !! h); simpl_state;
          by apply (Apart_vault G st _ (next_addr st)).
      * done.
      * apply (Apart_quiet G st _ [EvAllocate (next_addr st)]); try done.
        quiet_entries.
    + unfold MakeShared, AllocateShared, SharedPtr.block_ctor.
      destruct f; msimpl.
      * destruct (shared_ptrs st !! h); simpl_state;
          by apply (Apart_vault G st _ (next_addr st)).
      * done.
      * apply (Apart_quiet G st _ [EvAllocate (next_addr st)]); try done.
        quiet_entries.
  - assert (Hg : given o = []) by (by destruct o).
    rewrite Hg. simpl.
    apply (holds_exec_rest (Apart G));
      [ intros s ms mw; apply Apart_handles
      | apply Apart_increase_shared_count
      | apply Apart_increase_weak_count
      | apply Apart_decrease_shared_counter
      | apply Apart_decrease_weak_counter
      | done | done ].
Qed.

Lemma run_Apart (ops : list op) :
  ∀ (G : list object) (st : state),
    (∀ x, In x (objects_given ops) → ¬ In x G ∧ is_external x) →
    NoDup (objects_given ops) →
    Apart G st → ∃ G', Apart G' (snd (run ops st)).
Proof.
  induction ops as [|o rest IH]; intros G st Hfresh Hnd HI; [by exists G|].
  unfold objects_given in Hfresh, Hnd. simpl in Hfresh, Hnd.
  apply NoDup_app in Hnd as (Hnd1 & Hdisj & Hnd2).
  assert (HI' : Apart (given o ++ G) (final (exec o st))).
  { apply Apart_exec; [|done]. intros x Hx. apply Hfresh, in_app_iff.
    by left. }
  assert (Hrest : ∀ x, In x (objects_given rest) →
            ¬ In x (given o ++ G) ∧ is_external x).
  { intros x Hx.
    destruct (Hfresh x) as [HnG Hext]; [apply in_app_iff; by right|].
    split; [|done]. intros [Hin|Hin]%in_app_iff; [|done].
    apply (Hdisj x); by apply list_elem_of_In. }
  cbn [run]. destruct (exec o st) as [[] st'|st'|st'|st']; simpl in HI'.
  - by apply (IH (given o ++ G)).
  - by apply (IH (given o ++ G)).
  - by exists (given o ++ G).
  - by exists (given o ++ G).
Qed.

Lemma deleted_once_unique (l1 l2 : list event) (e1 : event) (x : object) :
  deleted_once (l1 ++ e1 :: l2) → deletes x e1 →
  ∀ e2, In e2 (l1 ++ l2) → ¬ deletes x e2.
Proof.
  induction l1 as [|e l1 IH]; simpl; intros [Hok Hlog] Hd e2 Hin Hd2.
  - by apply (Hok x Hd e2 Hin).
  - destruct Hin as [<-|Hin]; [|by apply (IH Hlog Hd e2 Hin)].
    apply (Hok x Hd2 e1); [|done]. apply in_app_iff. right. by left.
Qed.

(** X23.  In the log of every client program whose constructors from a
    raw pointer are given pointers to different objects, all outside the
    control blocks, no object is handed to a deleter twice.  This holds
    for every sequence of operations, the defective ones included, up to
    its end or its first undefined operation, over managed objects that
    hold no handle and whose destruction does not throw: [release_shared]
    forgets the object once the deleter has run, and no two blocks point
    to one object. *)
Theorem no_object_deleted_twice (ops : list op) (x : object)
    (pre post : list event) (e : event)
    (Hext : ∀ y, In y (objects_given ops) → is_external y)
    (Hnd : NoDup (objects_given ops))
    (Hev : events (after ops) = pre ++ e :: post)
    (Hd : deletes x e) :
  ∀ e', In e' (pre ++ post) → ¬ deletes x e'.
Proof.
  destruct (run_Apart ops [] init) as [G HI]; [|done | apply Apart_init|].
  { intros y Hy. split; [by intros [] | by apply Hext]. }
  apply (deleted_once_unique pre post e x); [|done].
  rewrite <- Hev. apply (apart_once G _ HI).
Qed.

Lemma no_object_deleted_twice_witness :
  (∀ y, In y (objects_given main_program) → is_external y)
  ∧ NoDup (objects_given main_program)
  ∧ events (after main_program)
    = [EvDeallocate 2; EvReleaseWeak 2 0 0; EvDestroyValue 2;
       EvReleaseShared 2; EvDeallocate 1; EvDestroyBlock 1;
       EvReleaseWeak 1 0 0]
      ++ EvDeleter 1 (CustomDeleter 0) obj7
         :: [EvReleaseShared 1; EvAllocate 2; EvAllocate 1]
  ∧ deletes (External 7) (EvDeleter 1 (CustomDeleter 0) obj7)
  ∧ ∀ e',
      In e' ([EvDeallocate 2; EvReleaseWeak 2 0 0; EvDestroyValue 2;
              EvReleaseShared 2; EvDeallocate 1; EvDestroyBlock 1;
              EvReleaseWeak 1 0 0]
             ++ [EvReleaseShared 1; EvAllocate 2; EvAllocate 1]) →
      ¬ deletes (External 7) e'.
Proof.
  assert (Hext : ∀ y, In y (objects_given main_program) → is_external y).
  { intros y [<-|[]]. exact I. }
  assert (Hnd : NoDup (objects_given main_program)).
  { apply NoDup_singleton. }
  split; [done|]. split; [done|]. split; [vm_compute; reflexivity|].
  split; [reflexivity|].
  apply (no_object_deleted_twice main_program (External 7) _ _
           (EvDeleter 1 (CustomDeleter 0) obj7) Hext Hnd);
    [vm_compute; reflexivity | reflexivity].
Defined.

(** ** Sound programs are memory safe *)

(** X1.  In a client program of fewer than 2^64 operations, made of sound
    operations, each used on handles that exist (constructors on fresh
    ones), over managed objects that hold no handle and whose destruction
    does not throw, and with the raw pointers given to the constructors
    pointing to different objects outside the control blocks: no
    operation dereferences a null or dangling control-block pointer, none
    uses a handle object outside its lifetime, so that the program runs to
    its end, and no object is handed to a deleter twice. *)
Theorem sound_program_is_defined (ops : list op)
    (Hsound : sound_program ops init = true)
    (Hlen : (Z.of_nat (length ops) < size_max)%Z)
    (Hext : ∀ y, In y (objects_given ops) → is_external y)
    (Hnd : NoDup (objects_given ops)) :
  fst (run ops init) = Finished
  ∧ ∀ x pre e post,
      events (after ops) = pre ++ e :: post → deletes x e →
      ∀ e', In e' (pre ++ post) → ¬ deletes x e'.
Proof.
  split; [by destruct (sound_program_Safe ops Hsound Hlen)|].
  intros x pre e post Hev Hd.
  destruct (run_Apart ops [] init) as [G HI]; [|done | apply Apart_init|].
  { intros y Hy. split; [by intros [] | by apply Hext]. }
  apply (deleted_once_unique pre post e x); [|done].
  rewrite <- Hev. apply (apart_once G _ HI).
Qed.

Lemma sound_program_is_defined_witness :
  sound_program main_program init = true
  ∧ (Z.of_nat (length main_program) < size_max)%Z
  ∧ (∀ y, In y (objects_given main_program) → is_external y)
  ∧ NoDup (objects_given main_program)
  ∧ fst (run main_program init) = Finished
  ∧ ∀ x pre e post,
      events (after main_program) = pre ++ e :: post → deletes x e →
      ∀ e', In e' (pre ++ post) → ¬ deletes x e'.
Proof.
  assert (Hext : ∀ y, In y (objects_given main_program) → is_external y).
  { intros y [<-|[]]. exact I. }
  assert (Hnd : NoDup (objects_given main_program)).
  { apply NoDup_singleton. }
  split; [vm_compute; reflexivity|]. split; [reflexivity|].
  split; [done|]. split; [done|].
  apply (sound_program_is_defined main_program);
    [vm_compute; reflexivity | reflexivity | done | done].
Defined.
